(** * SotN-Randomizer: relic search orchestration, solution minimization
      and rendering ([src/util.js])

    A shallow embedding of [randomizeRelics], [workerCountFromCores],
    [minifySolution], [simplifySolution], [collectAbilities],
    [pruneSubsets], [collapseSolution], [renderNode] and
    [renderSolutions], with the properties the specification states
    about them. *)

From Stdlib Require Import ZArith QArith Qround Ascii String List Lia.
From stdpp Require Import gmap strings list sorting.

Set Warnings "-register-all,-clear-no-such-hyp".

Local Open Scope string_scope.
Local Open Scope list_scope.
Local Open Scope Z_scope.

(** ** Worker count *)

(** [Math.max(Math.floor(3 * cores / 4), 1)]: the quotient is a real
    division, floored afterwards. *)
Definition workerCountFromCores (cores : Z) : Z :=
  Z.max (Qfloor (Qdiv (Qmult (inject_Z 3) (inject_Z cores)) (inject_Z 4))) 1.

(** ** The orchestrator: [randomizeRelics] *)

Module Orchestrator.

(** The [error] field of a worker reply after [JSON.parse]: a boolean,
    [null], or a serialised [Error] object. *)
Inductive ErrorField : Type :=
| ErrBool (b : bool)
| ErrNull
| ErrObject (name message stack : string).

(** A parsed worker reply.  [error = None] means that the reply has no
    [error] key; [nonce = None] that it has no [nonce]; [payload] is the
    rest of the reply. *)
Record WorkerResult : Type := mkResult {
  error : option ErrorField;
  done : bool;
  nonce : option Z;
  payload : string
}.

(** ['error' in r] *)
Definition hasErrorKey (r : WorkerResult) : bool :=
  match error r with Some _ => true | None => false end.

(** Truthiness of [r.error]. *)
Definition errorTruthy (r : WorkerResult) : bool :=
  match error r with
  | Some (ErrBool b) => b
  | Some (ErrObject _ _ _) => true
  | Some ErrNull | None => false
  end.

(** [typeof(r.error) !== 'boolean'] *)
Definition errorNotBoolean (r : WorkerResult) : bool :=
  match error r with Some (ErrBool _) => false | _ => true end.

(** [a < b] on two possibly missing numbers: a comparison with
    [undefined] is false. *)
Definition jsLt (a b : option Z) : bool :=
  match a, b with
  | Some x, Some y => x <? y
  | _, _ => false
  end.

(** What a [throw] carries. *)
Inductive Thrown : Type :=
| ThrownError (name message stack : string)
| ThrownValue (e : ErrorField)
| TypeError.

(** The data a bootstrap message adds, already serialised. *)
Record Bootstrap : Type := mkBootstrap {
  options : string;
  version : string;
  seed : string;
  removed : string
}.

(** Messages posted to a worker. *)
Inductive Message : Type :=
| LoadMsg (url : string)
| RelicsMsg (nonce : Z) (rounds : Z) (bootstrap : option Bootstrap)
| CancelMsg.

(** The variables [randomizeRelics] closes over: [done], [running], the
    state of the promises, the [nonce] counter, and the messages posted
    so far, each with the index of the worker it went to. *)
Record State : Type := mkState {
  doneFlag : bool;
  running : list bool;
  promises : list (option WorkerResult);
  nextNonce : Z;
  outbox : list (nat * Message)
}.

(** The inner [postMessage(bootstrap)] of worker [thread].  The counter
    is a double, on which [nonce++] is exact between [- 2 ^ 53] and
    [2 ^ 53]; it is an integer here, which is the same for the runs that
    stay in that range. *)
Definition postMessage (thread : nat) (rounds : Z) (bootstrap : option Bootstrap)
    (st : State) : State :=
  {| doneFlag := doneFlag st;
     running := running st;
     promises := promises st;
     nextNonce := nextNonce st + 1;
     outbox := outbox st ++ [(thread, RelicsMsg (nextNonce st) rounds bootstrap)] |}.

(** One turn of the [for] loop: [loadWorker], then the promise executor,
    which registers the listener and posts the bootstrap message. *)
Definition startWorker (url : string) (rounds : Z) (boot : Bootstrap)
    (st : State) (thread : nat) : State :=
  postMessage thread rounds (Some boot)
    {| doneFlag := doneFlag st;
       running := running st;
       promises := promises st;
       nextNonce := nextNonce st;
       outbox := outbox st ++ [(thread, LoadMsg url)] |}.

(** The state when the [for] loop has run over [workers] workers;
    [rounds] is 1 when the caller gives none. *)
Definition start (workers : nat) (nonce : Z) (url : string) (rounds : Z)
    (boot : Bootstrap) : State :=
  fold_left (startWorker url rounds boot) (seq 0 workers)
    {| doneFlag := false;
       running := replicate workers true;
       promises := replicate workers None;
       nextNonce := nonce;
       outbox := [] |}.

(** [resolve(result)]: settles the promise unless it is settled already. *)
Definition resolve (thread : nat) (r : WorkerResult)
    (ps : list (option WorkerResult)) : list (option WorkerResult) :=
  match ps !! thread with
  | Some None => <[thread := Some r]> ps
  | _ => ps
  end.

(** What running the listener gives: the new state, or an exception
    thrown out of the listener. *)
Inductive Handled : Type :=
| Next (st : State)
| Threw (t : Thrown).

(** The ['message'] listener of worker [thread]. *)
Definition onMessage (rounds : Z) (thread : nat) (result : WorkerResult)
    (st : State) : Handled :=
  if errorTruthy result && errorNotBoolean result then
    match error result with
    | Some (ErrObject name message stack) => Threw (ThrownError name message stack)
    | _ => Next st
    end
  else if doneFlag st || done result then
    Next {| doneFlag := true;
            running := <[thread := false]> (running st);
            promises := resolve thread result (promises st);
            nextNonce := nextNonce st;
            outbox := outbox st ++ [(thread, CancelMsg)] |}
  else
    Next (postMessage thread rounds None st).

(** The callback of [results.reduce]; a parsed reply is an object, so
    [!candidate] is false. *)
Definition pick (candidate result : WorkerResult) : WorkerResult :=
  if hasErrorKey candidate then result
  else if hasErrorKey result || jsLt (nonce candidate) (nonce result) then candidate
  else result.

(** [results.reduce(...)] without an initial value: a [TypeError] on the
    empty array, else the first element is the first candidate. *)
Definition reduceResults (results : list WorkerResult) : option WorkerResult :=
  match results with
  | [] => None
  | r :: rs => Some (fold_left pick rs r)
  end.

(** How the promise returned by [randomizeRelics] settles. *)
Inductive Outcome : Type :=
| Resolved (r : WorkerResult)
| Rejected (t : Thrown).

(** The [then] callback applied to the collected results. *)
Definition settle (results : list WorkerResult) : Outcome :=
  match reduceResults results with
  | None => Rejected TypeError
  | Some r =>
      if errorTruthy r then
        match error r with
        | Some e => Rejected (ThrownValue e)
        | None => Resolved r
        end
      else Resolved r
  end.

(** [Promise.all(promises)]: the results once every promise is settled. *)
Definition collected (st : State) : option (list WorkerResult) :=
  mapM id (promises st).

(** The first collected result whose [error] is truthy. *)
Definition firstError (results : list WorkerResult) : option ErrorField :=
  match filter (fun r => errorTruthy r = true) results with
  | r :: _ => error r
  | [] => None
  end.




(** A success report with the given nonce and payload. *)
Definition success (n : Z) (p : string) : WorkerResult :=
  {| error := None; done := true; nonce := Some n; payload := p |}.

(** The reply [{error: true}]. *)
Definition softError : WorkerResult :=
  {| error := Some (ErrBool true); done := false; nonce := None; payload := "" |}.

(** The reply [{done: false}] to an attempt that found nothing. *)
Definition notDone : WorkerResult :=
  {| error := None; done := false; nonce := None; payload := "" |}.

(** The replies [events], each with the index of its worker, handled in
    order from [st]. *)
Definition deliver (rounds : Z) (events : list (nat * WorkerResult)) (st : State)
    : Handled :=
  fold_left (fun h '(thread, result) =>
               match h with
               | Next st => onMessage rounds thread result st
               | Threw t => Threw t
               end) events (Next st).

(** Two workers started at nonce 0, with one round each. *)
Definition twoWorkers : State :=
  start 2 0 "worker.js" 1 (mkBootstrap "r" "1.0" "seed" "").

(** Three workers started at nonce 3, as the command line starts them,
    with one round each: their first attempts have the nonces 3, 4
    and 5. *)
Definition threeWorkers : State :=
  start 3 3 "worker.js" 1 (mkBootstrap "r" "1.0" "seed" "").

(** With the two workers, worker 0 asks for another attempt and then
    reports a success with nonce 2. *)
Definition afterFirstSuccess : Handled :=
  deliver 1 [(0%nat, {| error := None; done := false; nonce := None; payload := "" |});
             (0%nat, success 2 "late")]
          twoWorkers.

End Orchestrator.

(** ** The solution minimizer *)

Module Minimizer.

(** A node of the raw proof graph, [{item, locks}]: [locks] is absent on
    a node with no further requirements, else it lists the alternative
    locks, each a set of nodes that are all required. *)
Inductive LockNode : Type :=
| mkLockNode (item : string) (locks : option (list (list LockNode))).

(** A scored solution.  [Initial] is the object [{depth: 0, weight: 0}]
    that the reductions start from: it has no [avg] and no
    [requirements]. *)
Inductive SolutionOf (R : Type) : Type :=
| Initial
| Scored (depth weight : Z) (avg : Q) (requirements : list R).
Arguments Initial {R}.
Arguments Scored {R} depth weight avg requirements.

(** A requirement, [{item, depth, solution}]; a requirement made from a
    node without [locks] has no [solution]. *)
Inductive Requirement : Type :=
| mkReq (item : string) (depth : Z) (solution : option (SolutionOf Requirement)).

Abbreviation Solution := (SolutionOf Requirement).

Definition reqItem (r : Requirement) : string :=
  match r with mkReq item _ _ => item end.

Definition reqDepth (r : Requirement) : Z :=
  match r with mkReq _ depth _ => depth end.

Definition reqSolution (r : Requirement) : option Solution :=
  match r with mkReq _ _ solution => solution end.

Definition solDepth {R} (s : SolutionOf R) : Z :=
  match s with Initial => 0 | Scored depth _ _ _ => depth end.

Definition solWeight {R} (s : SolutionOf R) : Z :=
  match s with Initial => 0 | Scored _ weight _ _ => weight end.

Definition solAvg {R} (s : SolutionOf R) : option Q :=
  match s with Initial => None | Scored _ _ avg _ => Some avg end.

Definition solRequirements {R} (s : SolutionOf R) : option (list R) :=
  match s with Initial => None | Scored _ _ _ requirements => Some requirements end.

(** [Array.prototype.sort] with a comparator that returns a number: the
    sort is stable, an element stays before the later elements it does
    not compare greater than. *)
Fixpoint insertBy {A} (cmp : A -> A -> Z) (x : A) (l : list A) : list A :=
  match l with
  | [] => [x]
  | y :: t => if cmp x y <=? 0 then x :: y :: t else y :: insertBy cmp x t
  end.

Definition sortBy {A} (cmp : A -> A -> Z) (l : list A) : list A :=
  foldr (insertBy cmp) [] l.

(** [a < b] on two averages; a comparison with [undefined] is false. *)
Definition avgLt (a b : option Q) : bool :=
  match a, b with
  | Some a, Some b => negb (Qle_bool b a)
  | _, _ => false
  end.

(** The part of [minifySolution] that scores the mapped requirements:
    [depth] is the depth of the last requirement of an ascending sort
    ([pop] of an empty array gives [undefined], whose [depth] is a
    [TypeError]: [None]), [weight] the sum of the depths. *)
Definition score (requirements : list Requirement) : option Solution :=
  match last (sortBy (fun a b => reqDepth a - reqDepth b) requirements) with
  | None => None
  | Some deepest =>
      let depth := reqDepth deepest in
      let weight := fold_left (fun weight requirement => weight + reqDepth requirement)
                              requirements 0 in
      let avg := Qdiv (inject_Z weight) (inject_Z (Z.of_nat (length requirements))) in
      Some (Scored depth weight avg requirements)
  end.

(** The condition of the final [if] of [minifySolution]. *)
Definition replaces (solution min : Solution) : bool :=
  (solDepth min =? 0)
  || (solDepth solution <? solDepth min)
  || ((solDepth solution =? solDepth min) && (solWeight solution <? solWeight min))
  || ((solDepth solution =? solDepth min) && (solWeight solution =? solWeight min)
      && avgLt (solAvg solution) (solAvg min)).

(** The final [if] of [minifySolution]. *)
Definition select (min solution : Solution) : Solution :=
  if replaces solution min then solution else min.

(** [minifySolution(min, lock)] with the callback of its [map] as a
    parameter. *)
Definition minifyWith (requirementOf : LockNode -> option Requirement)
    (min : Solution) (lock : list LockNode) : option Solution :=
  requirements ← mapM requirementOf lock;
  solution ← score requirements;
  Some (select min solution).

(** [array.reduce(f, init)] for an [f] that may throw. *)
Definition reduceM {A B} (f : B -> A -> option B) (l : list A) (init : B) : option B :=
  fold_left (fun acc x => acc ≫= fun b => f b x) l (Some init).

(** The callback of the [map] in [minifySolution]. *)
Fixpoint requirementOf (node : LockNode) : option Requirement :=
  match node with
  | mkLockNode item None => Some (mkReq item 1 None)
  | mkLockNode item (Some locks) =>
      solution ← reduceM (minifyWith requirementOf) locks Initial;
      Some (mkReq item (1 + solDepth solution) (Some solution))
  end.

Definition minifySolution (min : Solution) (lock : list LockNode) : option Solution :=
  minifyWith requirementOf min lock.

(** A simplified node, [{item, solution}], with [solution] the array of
    the nodes required. *)
Inductive Simplified : Type :=
| mkSimplified (item : string) (solution : option (list Simplified)).

(** [simplifySolution]: reading [requirements] off the initial object
    gives [undefined], and its [map] is a [TypeError]. *)
Fixpoint simplifySolution (node : Requirement) : option Simplified :=
  match node with
  | mkReq item _ None => Some (mkSimplified item None)
  | mkReq item _ (Some Initial) => None
  | mkReq item _ (Some (Scored _ _ _ requirements)) =>
      solution ← mapM simplifySolution requirements;
      Some (mkSimplified item (Some solution))
  end.

(** The [Map] that [collectAbilities] memoises in, from ability to the
    set of abilities collected for it. *)
Abbreviation Memo := (gmap string (gset string)).

Fixpoint collectAbilities (node : Requirement) (map : Memo)
    : option (gset string * Memo) :=
  match node with
  | mkReq item _ solution =>
      match map !! item with
      | Some abilities => Some (abilities, map)
      | None =>
          match solution with
          | None => Some ({[item]}, <[item := {[item]}]> map)
          | Some Initial => None
          | Some (Scored _ _ _ requirements) =>
              '(abilities, map) ←
                reduceM (fun '(abilities, map) node =>
                           '(collected, map) ← collectAbilities node map;
                           Some (abilities ∪ {[reqItem node]} ∪ collected, map))
                        requirements ({[item]}, map);
              Some (abilities, <[item := abilities]> map)
          end
      end
  end.

(** The inner [for] loop of [pruneSubsets] over the nodes after position
    [i]: a node whose collected abilities are all in [abilities] is
    spliced out. *)
Fixpoint pruneLater (abilities : gset string) (later : list Requirement)
    (map : Memo) : option (list Requirement * Memo) :=
  match later with
  | [] => Some ([], map)
  | curr :: rest =>
      '(requirements, map) ← collectAbilities curr map;
      '(rest, map) ← pruneLater abilities rest map;
      Some (if bool_decide (requirements ⊆ abilities) then rest else curr :: rest, map)
  end.

(** A run bounded by a number of steps: [Stalled] when the bound is
    reached, else what the code gives, [None] for a [TypeError]. *)
Inductive Run (A : Type) : Type :=
| Stalled
| Ran (result : option A).
Arguments Stalled {A}.
Arguments Ran {A} result.

Definition runBind {A B} (r : Run A) (k : A -> Run B) : Run B :=
  match r with
  | Stalled => Stalled
  | Ran None => Ran None
  | Ran (Some a) => k a
  end.

(** The outer [for] loop of [pruneSubsets] from position [i] on: [nodes]
    is the array from [i], [prune] the recursive call. *)
Fixpoint pruneLoop (prune : Requirement -> Memo -> Run (Requirement * Memo))
    (steps : nat) (abilities : gset string) (nodes : list Requirement)
    (map : Memo) : Run (list Requirement * Memo) :=
  match nodes with
  | [] => Ran (Some ([], map))
  | node :: later =>
      match steps with
      | O => Stalled
      | S steps =>
          runBind (prune node map) (fun '(node, map) =>
          runBind (Ran (collectAbilities node map)) (fun '(collected, map) =>
          let abilities := abilities ∪ collected in
          runBind (Ran (pruneLater abilities later map)) (fun '(later, map) =>
          runBind (pruneLoop prune steps abilities later map) (fun '(rest, map) =>
          Ran (Some (node :: rest, map))))))
      end
  end.

(** The comparator of the sort in [pruneSubsets]. *)
Definition byDepthDescending (a b : Requirement) : Z := reqDepth b - reqDepth a.

(** [pruneSubsets(node, map)], giving the node and the map as the call
    leaves them.  The recursion follows the nodes of a sorted array, so
    it is bounded by [fuel]. *)
Fixpoint pruneSubsetsFuel (fuel : nat) (node : Requirement) (map : Memo)
    : Run (Requirement * Memo) :=
  match fuel with
  | O => Stalled
  | S fuel =>
      match node with
      | mkReq item depth None => Ran (Some (node, map))
      | mkReq item depth (Some Initial) => Ran None
      | mkReq item depth (Some (Scored d w a requirements)) =>
          let nodes := sortBy byDepthDescending requirements in
          runBind (pruneLoop (pruneSubsetsFuel fuel) (length nodes) ∅ nodes map)
            (fun '(nodes, map) =>
               Ran (Some (mkReq item depth (Some (Scored d w a nodes)), map)))
      end
  end.

(** The number of levels of requirements under a node. *)
Fixpoint reqHeight (node : Requirement) : nat :=
  match node with
  | mkReq _ _ (Some (Scored _ _ _ requirements)) =>
      S (foldr Nat.max O (List.map reqHeight requirements))
  | _ => O
  end.

Definition pruneSubsets (node : Requirement) (map : Memo) : Run (Requirement * Memo) :=
  pruneSubsetsFuel (S (reqHeight node)) node map.

(** A collapsed node, [{items, solution}]. *)
Inductive Collapsed : Type :=
| mkCollapsed (items : list string) (solution : option (list Collapsed)).

(** [collapseSolution]: the [while] loop walks down while the current
    node has exactly one sub-node, with [items] as pushed so far. *)
Fixpoint collapseFrom (items : list string) (curr : Simplified) : Collapsed :=
  match curr with
  | mkSimplified item (Some [next]) => collapseFrom (items ++ [item]) next
  | mkSimplified item (Some solution) =>
      mkCollapsed (items ++ [item]) (Some (List.map (collapseFrom []) solution))
  | mkSimplified item None => mkCollapsed (items ++ [item]) None
  end.

Definition collapseSolution (node : Simplified) : Collapsed := collapseFrom [] node.

Definition colItems (c : Collapsed) : list string :=
  match c with mkCollapsed items _ => items end.

Definition colSolution (c : Collapsed) : option (list Collapsed) :=
  match c with mkCollapsed _ solution => solution end.

(** The score in the words of the specification, from the depths of the
    children: [depth = 1 + max], [weight = sum], [avg = weight / count]. *)
Definition statedScore (childDepths : list Z) : Z * Z * Q :=
  (1 + foldr Z.max 0 childDepths,
   foldr Z.add 0 childDepths,
   Qdiv (inject_Z (foldr Z.add 0 childDepths))
        (inject_Z (Z.of_nat (length childDepths)))).

(** What the selection compares: [(depth, weight, avg)]. *)
Definition scoreKey (s : Solution) : Z * Z * Q :=
  (solDepth s, solWeight s, default 0%Q (solAvg s)).

(** The lexicographic order on [(depth, weight, avg)]. *)
Definition lexLt (a b : Z * Z * Q) : Prop :=
  let '(da, wa, qa) := a in
  let '(db, wb, qb) := b in
  da < db \/ (da = db /\ wa < wb) \/ (da = db /\ wa = wb /\ Qlt qa qb).

(** Equal on all three components. *)
Definition lexEq (a b : Z * Z * Q) : Prop :=
  let '(da, wa, qa) := a in
  let '(db, wb, qb) := b in
  da = db /\ wa = wb /\ Qeq qa qb.

(** A scored solution of depth at least 1, as every candidate is. *)
Definition isCandidate (s : Solution) : Prop :=
  exists depth weight avg requirements,
    s = Scored depth weight avg requirements /\ 1 <= depth.

(** No node has an empty [items] or a [solution] of exactly one node. *)
Fixpoint wellCollapsed (c : Collapsed) : bool :=
  match c with
  | mkCollapsed items solution =>
      negb (bool_decide (items = []))
      && match solution with
         | None => true
         | Some solution =>
             negb (length solution =? 1)%nat && forallb wellCollapsed solution
         end
  end.

(** The chain of the nodes [items], one under the other in this order,
    above [node]. *)
Fixpoint prependChain (items : list string) (node : Simplified) : Simplified :=
  match items with
  | [] => node
  | item :: items => mkSimplified item (Some [prependChain items node])
  end.

(** The chain that a collapsed node stands for: its items one under the
    other in the order of [items], the last with the node's solution. *)
Definition chainOf (items : list string) (solution : option (list Simplified))
    : Simplified :=
  prependChain (removelast items) (mkSimplified (List.last items "") solution).

Fixpoint expand (c : Collapsed) : Simplified :=
  match c with
  | mkCollapsed items solution =>
      chainOf items (match solution with
                     | Some solution => Some (List.map expand solution)
                     | None => None
                     end)
  end.

(** The abilities under a node, all the way down: its item, the items
    of its requirements, and the abilities under each of them. *)
Fixpoint closure (node : Requirement) : gset string :=
  match node with
  | mkReq item _ (Some (Scored _ _ _ requirements)) =>
      {[item]} ∪ ⋃ (List.map (fun r => {[reqItem r]} ∪ closure r) requirements)
  | mkReq item _ _ => {[item]}
  end.

(** No node of the tree has the initial object as solution. *)
Fixpoint wellScored (node : Requirement) : bool :=
  match node with
  | mkReq _ _ None => true
  | mkReq _ _ (Some Initial) => false
  | mkReq _ _ (Some (Scored _ _ _ requirements)) => forallb wellScored requirements
  end.

(** The nodes of a tree. *)
Fixpoint nodesOf (node : Requirement) : list Requirement :=
  node :: match node with
          | mkReq _ _ (Some (Scored _ _ _ requirements)) =>
              concat (List.map nodesOf requirements)
          | _ => []
          end.

(** Every occurrence of an ability in the tree has the same abilities
    under it: what the memo of [collectAbilities], keyed by the ability,
    relies on. *)
Definition oneClosurePerItem (node : Requirement) : Prop :=
  Forall (fun x =>
            Forall (fun y => reqItem x = reqItem y -> closure x = closure y)
                   (nodesOf node))
         (nodesOf node).

#[global] Instance oneClosurePerItem_dec node : Decision (oneClosurePerItem node).
Proof. unfold oneClosurePerItem. apply _. Defined.

(** The pruning in the words of the specification: along the list, with
    [seen] the union of the closures of the nodes before, a node is
    dropped if and only if its closure is a subset of [seen]. *)
Fixpoint keepNovel (seen : gset string) (nodes : list Requirement) : list Requirement :=
  match nodes with
  | [] => []
  | node :: later =>
      if decide (closure node ⊆ seen)
      then keepNovel (seen ∪ closure node) later
      else node :: keepNovel (seen ∪ closure node) later
  end.

(** A tree with every list of requirements, at every level, sorted by
    descending depth and pruned of the nodes that bring nothing new. *)
Fixpoint pruned (node : Requirement) : Requirement :=
  match node with
  | mkReq item depth (Some (Scored d w a requirements)) =>
      mkReq item depth
        (Some (Scored d w a
                 (keepNovel ∅ (sortBy byDepthDescending (List.map pruned requirements)))))
  | _ => node
  end.

(** Every node of the tree has under it the abilities that [cl] gives
    for its item. *)
Definition consistentWith (cl : string -> gset string) (node : Requirement) : Prop :=
  Forall (fun x => closure x = cl (reqItem x)) (nodesOf node).

(** Every set in the memo is the one that [cl] gives for its key. *)
Definition soundMemo (cl : string -> gset string) (map : Memo) : Prop :=
  forall item abilities, map !! item = Some abilities -> abilities = cl item.

(** What [collectAbilities] gives on a tree in which [cl] tells the
    abilities under every node, with a memo that agrees with [cl]. *)
Definition collectsClosure (cl : string -> gset string) (node : Requirement) : Prop :=
  forall map, soundMemo cl map ->
    exists map', collectAbilities node map = Some (cl (reqItem node), map')
                 /\ soundMemo cl map'.

(** What the recursive call is to give on a node of the sorted array. *)
Definition prunesTo (cl : string -> gset string)
    (prune : Requirement -> Memo -> Run (Requirement * Memo))
    (node : Requirement) : Prop :=
  wellScored node = true /\ consistentWith cl node
  /\ forall map, soundMemo cl map ->
       exists map', prune node map = Ran (Some (pruned node, map'))
                    /\ soundMemo cl map'.

(** The closures that a tree with one closure per item gives its items. *)
Definition closuresOf (node : Requirement) (item : string) : gset string :=
  ⋃ (closure <$> filter (fun x => reqItem x = item) (nodesOf node)).

(** A raw node [R] that needs [X] and [B], where [X] needs [B] and [B]
    needs [C] at both places. *)
Definition sharedRaw : LockNode :=
  mkLockNode "R" (Some [[
    mkLockNode "X" (Some [[mkLockNode "B" (Some [[mkLockNode "C" None]])]]);
    mkLockNode "B" (Some [[mkLockNode "C" None]])]]).

(** The same, but the [B] next to [X] needs [D] where the [B] under [X]
    needs [C]. *)
Definition splitRaw : LockNode :=
  mkLockNode "R" (Some [[
    mkLockNode "X" (Some [[mkLockNode "B" (Some [[mkLockNode "C" None]])]]);
    mkLockNode "B" (Some [[mkLockNode "D" None]])]]).

(** The requirements that [minifySolution] makes for [X] and for the
    [B] next to it in [sharedRaw], and for [R]. *)
Definition sharedX : Requirement :=
  mkReq "X" 3
    (Some (Scored 2 2 2 [mkReq "B" 2 (Some (Scored 1 1 1 [mkReq "C" 1 None]))])).

Definition sharedB : Requirement :=
  mkReq "B" 2 (Some (Scored 1 1 1 [mkReq "C" 1 None])).

Definition sharedTree : Requirement :=
  mkReq "R" 4 (Some (Scored 3 5 (5 # 2) [sharedX; sharedB])).

(** A lock of two nodes and its requirements. *)
Definition pairLock : list LockNode :=
  [mkLockNode "A" None; mkLockNode "B" (Some [[mkLockNode "C" None]])].

Definition pairRequirements : list Requirement :=
  [mkReq "A" 1 None; mkReq "B" 2 (Some (Scored 1 1 1 [mkReq "C" 1 None]))].

(** Three alternative locks and their candidates; the last two score
    the same. *)
Definition threeLocks : list (list LockNode) :=
  [[mkLockNode "A" (Some [[mkLockNode "B" None]])];
   [mkLockNode "C" None; mkLockNode "D" None];
   [mkLockNode "E" None; mkLockNode "F" None]].

(** A raw node [R] that needs [B], [A] and [W]: [B] is a chain of four
    nodes; [A] needs an [X] that needs nothing and a [Q] whose [X] needs
    [W]. *)
Definition twoPassRaw : LockNode :=
  mkLockNode "R" (Some [[
    mkLockNode "B" (Some [[
      mkLockNode "C" (Some [[mkLockNode "D" (Some [[mkLockNode "E" None]])]])]]);
    mkLockNode "A" (Some [[
      mkLockNode "X" None;
      mkLockNode "Q" (Some [[mkLockNode "X" (Some [[mkLockNode "W" None]])]])]]);
    mkLockNode "W" None]]).

(** The requirements that [minifySolution] makes for the [B] and the
    [Q] of [twoPassRaw], and for its [R]. *)
Definition twoPassB : Requirement :=
  mkReq "B" 4
    (Some (Scored 3 3 3
       [mkReq "C" 3
          (Some (Scored 2 2 2
             [mkReq "D" 2 (Some (Scored 1 1 1 [mkReq "E" 1 None]))]))])).

Definition twoPassQ : Requirement :=
  mkReq "Q" 3
    (Some (Scored 2 2 2 [mkReq "X" 2 (Some (Scored 1 1 1 [mkReq "W" 1 None]))])).

Definition twoPassTree : Requirement :=
  mkReq "R" 5
    (Some (Scored 4 9 (9 # 3)
       [twoPassB;
        mkReq "A" 4 (Some (Scored 3 4 (4 # 2) [mkReq "X" 1 None; twoPassQ]));
        mkReq "W" 1 None])).

(** [twoPassTree] as [pruneSubsets] leaves it, and as a second run of
    [pruneSubsets] leaves that. *)
Definition oncePruned : Requirement :=
  mkReq "R" 5
    (Some (Scored 4 9 (9 # 3)
       [twoPassB;
        mkReq "A" 4 (Some (Scored 3 4 (4 # 2) [twoPassQ]));
        mkReq "W" 1 None])).

Definition twicePruned : Requirement :=
  mkReq "R" 5
    (Some (Scored 4 9 (9 # 3)
       [twoPassB;
        mkReq "A" 4 (Some (Scored 3 4 (4 # 2) [twoPassQ]))])).

Definition threeCandidates : list Solution :=
  [Scored 2 2 2 [mkReq "A" 2 (Some (Scored 1 1 1 [mkReq "B" 1 None]))];
   Scored 1 2 (2 # 2) [mkReq "C" 1 None; mkReq "D" 1 None];
   Scored 1 2 (2 # 2) [mkReq "E" 1 None; mkReq "F" 1 None]].

End Minimizer.

(** ** The solution renderer *)

Module Renderer.
Import Minimizer.

(** An entry of the relic table, of which the renderer reads the name
    and the ability. *)
Record Relic : Type := mkRelic {
  name : string;
  ability : string
}.

(** The steps of [renderSolutions] up to [collapsed]: the minimization
    pipeline. *)
Definition minimize (solutions : list (list LockNode)) : Run (list Collapsed) :=
  runBind (Ran (reduceM minifySolution solutions Initial)) (fun minified =>
  runBind (Ran (solRequirements minified)) (fun requirements =>
  runBind (foldr (fun node acc =>
                    runBind (pruneSubsets node ∅) (fun '(node, _) =>
                    runBind acc (fun nodes => Ran (Some (node :: nodes)))))
                 (Ran (Some [])) requirements) (fun pruned =>
  runBind (Ran (mapM simplifySolution pruned)) (fun simplified =>
  Ran (Some (List.map collapseSolution simplified)))))).

Section WithRelics.

(** The relic table, [relics], is defined outside [util.js]. *)
Variable relics : list Relic.

(** [relics.filter(...).pop()]: the last relic with the ability, if any. *)
Definition relicFromAbility (a : string) : option Relic :=
  last (filter (fun relic => ability relic = a) relics).

(** [Array(level).fill(' ').join('')] *)
Definition indent (level : nat) : string :=
  String.concat "" (replicate level " ").

(** [names.slice(0, -1).concat(['']).join('   ').length] *)
Definition chainWidth (names : list string) : nat :=
  String.length (String.concat "   " (removelast names ++ [""])).

(** [renderNode]; the name of an ability that has no relic is a
    [TypeError]. *)
Fixpoint renderNode (indentLevel : nat) (sub : bool) (node : Collapsed)
    : option (list string) :=
  match node with
  | mkCollapsed items solution =>
      names ← mapM (fun a => name <$> relicFromAbility a) items;
      let line := (indent indentLevel ++ (if sub then "^ " else "")
                   ++ String.concat " < " names)%string in
      match solution with
      | Some solution =>
          let indentLevel := if sub then (indentLevel + 2)%nat else indentLevel in
          let indentLevel := (indentLevel + chainWidth names)%nat in
          nodes ← mapM (renderNode indentLevel true) solution;
          Some (line :: concat nodes)
      | None => Some [line]
      end
  end.

(** [renderSolutions]; its second parameter is not read. *)
Definition renderSolutions (solutions : list (list LockNode)) : Run (list string) :=
  runBind (minimize solutions) (fun collapsed =>
  runBind (Ran (mapM (renderNode 0 false) collapsed)) (fun lines =>
  Ran (Some (concat lines)))).

End WithRelics.

(** A relic table in which the abilities [A], [B] and [C] have their own
    letter as name. *)
Definition lettersABC : list Relic :=
  [mkRelic "A" "A"; mkRelic "B" "B"; mkRelic "C" "C"].

End Renderer.

(** ** Runs of the orchestrator *)

Module Dispatch.
Import Orchestrator.

(** The nonces of the attempts posted, in the order of posting. *)
Definition attemptNonces (outbox : list (nat * Message)) : list Z :=
  omap (fun m => match m.2 with
                 | RelicsMsg nonce _ _ => Some nonce
                 | _ => None
                 end) outbox.

(** What the [for] loop posts for worker [thread]: the url, then the
    bootstrap attempt with the nonce [nonce + thread]. *)
Definition bootstrapOf (nonce : Z) (url : string) (rounds : Z) (boot : Bootstrap)
    (thread : nat) : list (nat * Message) :=
  [(thread, LoadMsg url);
   (thread, RelicsMsg (nonce + Z.of_nat thread) rounds (Some boot))].

(** The state that [afterFirstSuccess] ends in. *)
Definition firstSuccessState : State :=
  match afterFirstSuccess with
  | Next st => st
  | Threw _ => twoWorkers
  end.

End Dispatch.

(** ** Hexadecimal text: [bufToHex], [numToHex] and the keys of
       [entityData] *)

Module Hex.

(** The digit of [d] in ["0123456789abcdef"]. *)
Definition hexDigit (d : Z) : ascii :=
  match String.get (Z.to_nat d) "0123456789abcdef" with
  | Some c => c
  | None => "0"%char
  end.

(** The value of a hexadecimal digit, as [parseInt] reads it; [None] for
    any other character. *)
Definition digitValue (c : ascii) : option Z :=
  let n := Z.of_nat (nat_of_ascii c) in
  if (48 <=? n) && (n <=? 57) then Some (n - 48)
  else if (97 <=? n) && (n <=? 102) then Some (n - 87)
  else if (65 <=? n) && (n <=? 70) then Some (n - 55)
  else None.

(** [[0-9a-f]] *)
Definition isLowerHex (c : ascii) : bool :=
  let n := Z.of_nat (nat_of_ascii c) in
  ((48 <=? n) && (n <=? 57)) || ((97 <=? n) && (n <=? 102)).

(** The digits of [n / 16 ^ k], for the [k] of each turn, put before
    [digits] until the quotient is 0. *)
Fixpoint digitsBefore (fuel : nat) (n : Z) (digits : string) : string :=
  match fuel with
  | O => digits
  | S fuel =>
      let digits := String (hexDigit (n mod 16)) digits in
      if n / 16 =? 0 then digits else digitsBefore fuel (n / 16) digits
  end.

(** [n.toString(16)] for an integer [n >= 0]. *)
Definition toString16 (n : Z) : string :=
  digitsBefore (S (Z.to_nat (Z.log2 n))) n "".

Fixpoint dropString (n : nat) (s : string) : string :=
  match n, s with
  | S n, String _ s => dropString n s
  | _, _ => s
  end.

(** [s.slice(-width)] for an integer [width >= 0]: the last [width]
    characters, the whole string when it is shorter, and also when
    [width] is 0, [-0] being 0. *)
Definition sliceLast (width : nat) (s : string) : string :=
  match width with
  | O => s
  | _ => dropString (String.length s - width) s
  end.


(** [bufToHex]: two digits for each byte. *)
Definition bufToHex (buf : list Z) : string :=
  String.concat ""
    (List.map (fun byte => sliceLast 2 ("00" ++ toString16 byte)%string) buf).


(** [key.match(/[0-9a-f]{2}/g)]: the pairs of hexadecimal digits found
    from left to right, a pair starting where the one before ends. *)
Fixpoint hexPairs (key : string) : list string :=
  match key with
  | String a (String b rest as tail) =>
      if isLowerHex a && isLowerHex b
      then String a (String b "") :: hexPairs rest
      else hexPairs tail
  | _ => []
  end.

(** [parseInt(text, 16)] on a text without sign, blank or [0x] before
    its digits: the value of the digits it starts with, [None] for
    [NaN]. *)
Fixpoint parseDigits (text : string) (value : option Z) : option Z :=
  match text with
  | String c rest =>
      match digitValue c with
      | Some d => parseDigits rest (Some (16 * default 0 value + d))
      | None => value
      end
  | EmptyString => value
  end.

Definition parseInt16 (text : string) : option Z := parseDigits text None.

(** The bytes that [entityData] reads back from a key made by
    [bufToHex]; [match] gives [null] when it finds no pair, and the [map]
    on it is a [TypeError]: [None]. *)
Definition keyBytes (key : string) : option (list (option Z)) :=
  match hexPairs key with
  | [] => None
  | pairs => Some (List.map parseInt16 pairs)
  end.

(** The two digits of a byte. *)
Definition twoDigits (byte : Z) : string :=
  String (hexDigit (byte / 16)) (String (hexDigit (byte mod 16)) "").



End Hex.

(** * The checked writer

    [checked] of [src/util.js]: a record of the bytes written, by address,
    kept beside the file that takes them.  The file is [undefined], a
    [Buffer], or a file descriptor: a descriptor is modelled by the calls
    of [fs.writeSync] made on it, each a position and the bytes put
    there.  Addresses and values are integers. *)

Module Patch.

Inductive File : Type :=
| NoFile
| Buffer (bytes : list Z)
| Descriptor (fd : Z) (written : list (Z * list Z)).

Record Checked : Type := mkChecked {
  file : File;
  writes : gmap Z Z
}.

(** [if (file)]: a buffer is an object, a descriptor is a number and 0 is
    not truthy. *)
Definition truthy (f : File) : bool :=
  match f with
  | NoFile => false
  | Buffer _ => true
  | Descriptor fd _ => negb (fd =? 0)
  end.

(** [new checked(file, writes)] *)
Definition checked (f : File) (w : option (gmap Z Z)) : Checked :=
  mkChecked (if truthy f then f else NoFile) (default ∅ w).

(** [checkAddressRange]: [None] for the error it throws. *)
Definition checkAddressRange (address : Z) : option unit :=
  if (address <? 0xffff) || (0xffffffff <? address) then None else Some tt.

(** [val >>> n] *)
Definition ushr (val n : Z) : Z := Z.shiftr (val mod 2 ^ 32) n.

(** [file[address + i] = bytes[i]] for each [i]; an index past the end of
    a buffer is not written. *)
Fixpoint setBytes (buf : list Z) (address : Z) (bytes : list Z) : list Z :=
  match bytes with
  | [] => buf
  | b :: bytes => setBytes (<[Z.to_nat address := b]> buf) (address + 1) bytes
  end.

(** What the file takes of a write of [bytes] at [address]. *)
Definition store (f : File) (address : Z) (bytes : list Z) : File :=
  match f with
  | NoFile => NoFile
  | Buffer buf => Buffer (setBytes buf address bytes)
  | Descriptor fd written =>
      if fd =? 0 then f else Descriptor fd (written ++ [(address, bytes)])
  end.

(** [writes[address + i] = bytes[i]] for each [i]. *)
Fixpoint record (w : gmap Z Z) (address : Z) (bytes : list Z) : gmap Z Z :=
  match bytes with
  | [] => w
  | b :: bytes => record (<[address := b]> w) (address + 1) bytes
  end.

Definition writeChar (self : Checked) (address val : Z) : option (Checked * Z) :=
  _ ← checkAddressRange address;
  let bytes := [Z.land val 0xff] in
  Some (mkChecked (store (file self) address bytes)
          (record (writes self) address bytes), address + 1).

Definition writeShort (self : Checked) (address val : Z) : option (Checked * Z) :=
  _ ← checkAddressRange address;
  let bytes := [Z.land val 0xff; Z.land (ushr val 8) 0xff] in
  Some (mkChecked (store (file self) address bytes)
          (record (writes self) address bytes), address + 2).

Definition writeWord (self : Checked) (address val : Z) : option (Checked * Z) :=
  _ ← checkAddressRange address;
  let bytes := [Z.land val 0xff; Z.land (ushr val 8) 0xff;
                Z.land (ushr val 16) 0xff; Z.land (ushr val 24) 0xff] in
  Some (mkChecked (store (file self) address bytes)
          (record (writes self) address bytes), address + 4).

(** How [apply] ends: all names visited, or an error thrown at one of
    them, with the writer as it is by then. *)
Inductive Applied : Type :=
| Wrote (self : Checked)
| Threw (self : Checked).

(** [apply], on the [names] that [Object.getOwnPropertyNames] gives for
    the writes of the other writer, in the order it gives them;
    a name that has no value reads [undefined], 0 once masked. *)
Fixpoint apply (names : list Z) (self : Checked) (other : gmap Z Z) : Applied :=
  match names with
  | [] => Wrote self
  | address :: names =>
      match writeChar self address (default 0 (other !! address)) with
      | Some (self, _) => apply names self other
      | None => Threw self
      end
  end.

(** The number that [bytes] write, lowest byte first. *)
Fixpoint littleEndian (bytes : list Z) : Z :=
  match bytes with
  | [] => 0
  | b :: bytes => b + 256 * littleEndian bytes
  end.

(** The [n] bytes on record from [address] on. *)
Definition recorded (w : gmap Z Z) (address : Z) (n : Z) : list (option Z) :=
  (fun i => w !! (address + i)) <$> seqZ 0 n.

End Patch.

(** * The text of the seed in the menu

    [writeMenuText] and [setSeedText] of [src/util.js].  A text is the
    list of its UTF-16 code units. *)

Module MenuText.
Import Patch.

Module Range.
Record t : Type := make {
  start : Z;
  length : Z
}.
End Range.

Definition code (c : ascii) : Z := Z.of_nat (nat_of_ascii c).

(** The table [map], the double quote being character 34. *)
Definition table : list (Z * Z) :=
  [ (code ",", 0x8143); (code ".", 0x8144); (code ":", 0x8146);
    (code ";", 0x8147); (code "?", 0x8148); (code "!", 0x8149);
    (code "`", 0x814d); (34, 0x814e); (code "^", 0x814f);
    (code "_", 0x8151); (code "~", 0x8160); (code "'", 0x8166);
    (code "(", 0x8169); (code ")", 0x816a); (code "[", 0x816d);
    (code "]", 0x816e); (code "{", 0x816f); (code "}", 0x8170);
    (code "+", 0x817b); (code "-", 0x817c); (code "0", 0x824f);
    (code "1", 0x8250); (code "2", 0x8251); (code "3", 0x8252);
    (code "4", 0x8253); (code "5", 0x8254); (code "6", 0x8255);
    (code "7", 0x8256); (code "8", 0x8257); (code "9", 0x8258) ].

(** [map[c]], [None] when [c] is not [in map]. *)
Definition map (c : Z) : option Z :=
  snd <$> List.find (fun entry => fst entry =? c) table.

(** [/[a-zA-Z ]/] *)
Definition isLetterOrSpace (c : Z) : bool :=
  ((97 <=? c) && (c <=? 122)) || ((65 <=? c) && (c <=? 90)) || (c =? 32).

(** The loop of [writeMenuText], [a] bytes written and [text] left to
    read; an error thrown by [writeChar] is [None]. *)
Fixpoint writeMenuTextFrom (a : Z) (data : Checked) (text : list Z) (range : Range.t)
    : option Checked :=
  match text with
  | [] => Some data
  | c :: rest =>
      if a <? Range.length range then
        match map c with
        | Some val =>
            if a + 1 <? Range.length range then
              '(data, _) ← writeChar data (Range.start range + a) (ushr val 8);
              '(data, _) ← writeChar data (Range.start range + (a + 1)) (Z.land val 0xff);
              writeMenuTextFrom (a + 2) data rest range
            else Some data
        | None =>
            if isLetterOrSpace c then
              '(data, _) ← writeChar data (Range.start range + a) c;
              writeMenuTextFrom (a + 1) data rest range
            else writeMenuTextFrom a data rest range
        end
      else Some data
  end.

Definition writeMenuText (data : Checked) (text : list Z) (range : Range.t)
    : option Checked :=
  writeMenuTextFrom 0 data text range.

Definition seedRange : Range.t := Range.make 0x04389c6c 31.
Definition presetRange : Range.t := Range.make 0x04389c8c 20.

(** [setSeedText]; [preset] is [None] when it is not given. *)
Definition setSeedText (data : Checked) (seed : list Z) (preset : option (list Z))
    : option Checked :=
  data ← foldl (fun data i =>
                  data ← data; fst <$> writeChar data (0x04389c6c + i) 0)
               (Some data) (seqZ 0 52);
  '(data, _) ← writeShort data 0x043930c4 0x78b4;
  '(data, _) ← writeShort data 0x043930d4 0x78d4;
  '(data, _) ← writeShort data 0x0439312c 0x78b4;
  '(data, _) ← writeShort data 0x0439313c 0x78d4;
  data ← writeMenuText data seed seedRange;
  writeMenuText data (default [] preset) presetRange.

(** The bytes that a character of a text takes in the menu: two for a
    character of the table, one for a letter or a space, none for
    another. *)
Definition glyph (c : Z) : list Z :=
  match map c with
  | Some val => [val / 256; val mod 256]
  | None => if isLetterOrSpace c then [c] else []
  end.

Definition glyphs (text : list Z) : list Z := text ≫= glyph.

(** [writeChar] for each of [bytes], one address after another. *)
Fixpoint writeChars (data : Checked) (address : Z) (bytes : list Z) : option Checked :=
  match bytes with
  | [] => Some data
  | b :: bytes =>
      '(data, address) ← writeChar data address b;
      writeChars data address bytes
  end.

(** [bytes], then zeros up to [n] bytes. *)
Definition padded (n : nat) (bytes : list Z) : list Z :=
  bytes ++ replicate (n - List.length bytes) 0.

(** The code units of a text of one-byte characters. *)
Definition unitsOf (text : string) : list Z :=
  code <$> list_ascii_of_string text.

End MenuText.

(** * Files on the disc image

    [romOffset] and [restoreFile] of [src/util.js].  On the image a file
    lies in sectors: [0x800] bytes of the file, then [0x130] bytes that
    are not of it.  Positions, lengths and addresses are natural
    numbers; a buffer is the list of its bytes. *)

Module Rom.

Record Zone : Type := mkZone {
  pos : nat;
  len : nat
}.

Definition sector : nat := Z.to_nat 0x800.
Definition gap : nat := Z.to_nat 0x130.

Definition romOffset (zone : Zone) (address : nat) : nat :=
  pos zone + address + address / sector * gap.

(** [buf.slice(from, to)], both clamped to the length of the buffer. *)
Definition slice (buf : list Z) (from to : nat) : list Z :=
  take (to - from) (drop from buf).

(** [curr.set(chunk)], where [curr] is the view of [file] from [offset]
    on: the bytes go into [file]; a chunk longer than the view is a
    [RangeError], [None]. *)
Definition set (file : list Z) (offset : nat) (chunk : list Z) : option (list Z) :=
  if decide (length chunk <= length file - offset)%nat
  then Some (take offset file ++ chunk ++ drop (offset + length chunk) file)
  else None.

Inductive Restored : Type :=
| OutOfSteps
| RangeError
| File (bytes : list Z).

(** The loop of [restoreFile]: [curr] is the offset in [file] of the view
    of that name, [steps] bounds the number of turns. *)
Fixpoint restoreLoop (steps : nat) (data file : list Z) (curr : nat) : Restored :=
  match data with
  | [] => File file
  | _ =>
      match steps with
      | O => OutOfSteps
      | S steps =>
          match set file curr (slice data 0 sector) with
          | None => RangeError
          | Some file =>
              restoreLoop steps (drop (sector + gap) data) file
                (Nat.min (curr + sector) (length file))
          end
      end
  end.

Definition restoreFile (data : list Z) (file : Zone) : Restored :=
  let dataLength := (len file + len file / sector * gap)%nat in
  let data := slice data (pos file) (pos file + dataLength) in
  restoreLoop (S (length data)) data (replicate (len file) 0) 0.

End Rom.

(** * Shuffling

    [shuffled] of [src/util.js].  The generator is the sequence of the
    numbers it gives, call after call; they are rationals here, and the
    product with the length and its floor are exact.  An array element
    that is [undefined] is [None]. *)

Module Shuffle.

(** [copy.splice(rand, 1)]: the elements removed, at most one, and the
    array left.  A negative start counts from the end, and a start past
    the end removes nothing. *)
Definition splice {A} (copy : list A) (rand : Z) : list A * list A :=
  let len := Z.of_nat (length copy) in
  let start := if rand <? 0 then Z.max (len + rand) 0 else Z.min rand len in
  (option_list (copy !! Z.to_nat start), delete (Z.to_nat start) copy).

(** The loop of [shuffled] after [calls] calls of [rng]; [None] when it
    has not ended within [steps] turns. *)
Fixpoint shuffleLoop {A} (steps : nat) (rng : nat -> Q) (calls : nat)
    (copy : list A) (shuffled : list (option A)) : option (list (option A)) :=
  match copy with
  | [] => Some shuffled
  | _ =>
      match steps with
      | O => None
      | S steps =>
          let rand := Qfloor (Qmult (rng calls) (inject_Z (Z.of_nat (length copy)))) in
          let '(removed, copy) := splice copy rand in
          shuffleLoop steps rng (S calls) copy (shuffled ++ [head removed])
      end
  end.

Definition shuffled {A} (steps : nat) (rng : nat -> Q) (array : list A)
    : option (list (option A)) :=
  shuffleLoop steps rng 0 array [].

End Shuffle.

(** * The shape of a proof graph

    What [minifySolution] and the steps after it need of the raw graph
    they are given, read off the places where they throw. *)

Module Shape.
Import Minimizer.

(** No lock of the node, at any level, is an empty array. *)
Fixpoint noEmptyLock (node : LockNode) : bool :=
  match node with
  | mkLockNode _ None => true
  | mkLockNode _ (Some locks) =>
      forallb (fun lock => match lock with
                           | [] => false
                           | _ => forallb noEmptyLock lock
                           end) locks
  end.

(** No lock of the node is empty, and no [locks] of it is, at any
    level. *)
Fixpoint wellFormed (node : LockNode) : bool :=
  match node with
  | mkLockNode _ None => true
  | mkLockNode _ (Some locks) =>
      match locks with
      | [] => false
      | _ => forallb (fun lock => match lock with
                                  | [] => false
                                  | _ => forallb wellFormed lock
                                  end) locks
      end
  end.

(** [trims node' node]: [node'] is [node] with, at every level, the
    requirements sorted by descending depth, some of them removed but not
    the first, and those kept trimmed in turn. *)
Inductive trims : Requirement -> Requirement -> Prop :=
| trims_leaf item depth :
    trims (mkReq item depth None) (mkReq item depth None)
| trims_scored item depth d w a requirements kept requirements' :
    kept `sublist_of` sortBy byDepthDescending requirements ->
    head kept = head (sortBy byDepthDescending requirements) ->
    Forall2 trims requirements' kept ->
    trims (mkReq item depth (Some (Scored d w a requirements')))
          (mkReq item depth (Some (Scored d w a requirements))).

(** What the recursive call is to give on a node of the sorted array,
    whatever the memo. *)
Definition trimsNode (prune : Requirement -> Memo -> Run (Requirement * Memo))
    (node : Requirement) : Prop :=
  wellScored node = true
  /\ forall map, exists node' map',
       prune node map = Ran (Some (node', map'))
       /\ trims node' node /\ wellScored node' = true.

(** A scored solution with a requirement at least, and no initial
    solution under it. *)
Definition goodSolution (s : Solution) : Prop :=
  exists d w a requirements,
    s = Scored d w a requirements /\ requirements <> []
    /\ Forall (fun r => wellScored r = true) requirements.

(** A lock that is not empty, of nodes for which [f] gives a requirement
    without initial solution. *)
Definition goodLock (f : LockNode -> option Requirement) (lock : list LockNode) : Prop :=
  lock <> []
  /\ Forall (fun node => exists r, f node = Some r /\ wellScored r = true) lock.

(** The abilities named in a collapsed tree, and the number of its
    nodes. *)
Fixpoint itemsOf (c : Collapsed) : list string :=
  match c with
  | mkCollapsed items solution =>
      items ++ match solution with
               | Some solution => concat (List.map itemsOf solution)
               | None => []
               end
  end.

Fixpoint countNodes (c : Collapsed) : nat :=
  match c with
  | mkCollapsed _ solution =>
      S (match solution with
         | Some solution => sum_list (List.map countNodes solution)
         | None => 0
         end)
  end.

End Shape.

(** * Rooms of a zone

    [roomCount] of [src/util.js], on a zone given as the list of its
    bytes. *)

Module Zone.

Inductive Counted : Type :=
| OutOfSteps
| RangeError
| Rooms (rooms : Z).

(** [zone.readUInt32LE(offset)]: a [RangeError], [None], when the four
    bytes are not all in the buffer. *)
Definition readUInt32LE (zone : list Z) (offset : nat) : option Z :=
  if decide (offset + 4 <= length zone)%nat
  then Some (Patch.littleEndian (take 4 (drop offset zone)))
  else None.

(** [zone[index]], [undefined] outside the buffer. *)
Definition byteAt (zone : list Z) (index : Z) : option Z :=
  if index <? 0 then None else zone !! Z.to_nat index.

(** The loop of [roomCount], bounded by [steps] turns. *)
Fixpoint roomLoop (steps : nat) (zone : list Z) (layout rooms : Z) : Counted :=
  match steps with
  | O => OutOfSteps
  | S steps =>
      if decide (byteAt zone layout = Some 0x40) then Rooms rooms
      else roomLoop steps zone (layout + 8) (rooms + 1)
  end.

Definition roomCount (steps : nat) (zone : list Z) : Counted :=
  match readUInt32LE zone (Z.to_nat 0x10) with
  | None => RangeError
  | Some word => roomLoop steps zone (word - 0x80180000) 0
  end.

(** A zone of 33 bytes whose layout starts at byte 24 and has one
    room. *)
Definition oneRoom : list Z :=
  replicate 16 0 ++ [0x18; 0x00; 0x18; 0x80] ++ replicate 4 0
  ++ [1] ++ replicate 7 0 ++ [0x40].

End Zone.

(** * Properties *)

(** ** Worker count *)

Lemma floor_three_quarters (cores : Z) :
  Qfloor (Qdiv (Qmult (inject_Z 3) (inject_Z cores)) (inject_Z 4)) = 3 * cores / 4.
Proof.
  unfold Qfloor, Qdiv, Qmult, Qinv, inject_Z. cbn.
  f_equal. lia.
Qed.

(** C9: for every nonnegative core count, [workerCountFromCores] is at
    least 1, and it is the maximum of the floor of three quarters of the
    core count and 1. *)
Theorem workerCountFromCores_at_least_one (cores : Z) :
  0 <= cores ->
  1 <= workerCountFromCores cores
  /\ workerCountFromCores cores = Z.max (3 * cores / 4) 1.
Proof.
  intros _. unfold workerCountFromCores.
  rewrite floor_three_quarters. split; [apply Z.le_max_r | reflexivity].
Qed.

Lemma workerCountFromCores_at_least_one_witness :
  0 <= 8 /\ 1 <= workerCountFromCores 8 /\ workerCountFromCores 8 = Z.max (3 * 8 / 4) 1.
Proof.
  split; [lia | apply (workerCountFromCores_at_least_one 8); lia].
Defined.

(** ** The orchestrator *)

Section OrchestratorFacts.
Import Orchestrator.


Lemma pick_cases c r : pick c r = c \/ pick c r = r.
Proof.
  unfold pick. destruct (hasErrorKey c); [auto |].
  destruct (hasErrorKey r || jsLt (nonce c) (nonce r)); auto.
Qed.

Lemma pick_keeps_error_free c r :
  hasErrorKey c = false -> hasErrorKey (pick c r) = false.
Proof.
  intros Hc. unfold pick. rewrite Hc.
  destruct (hasErrorKey r) eqn:Hr; simpl; [done |].
  by destruct (jsLt _ _).
Qed.

Lemma fold_pick_elem rs : forall c, fold_left pick rs c ∈ c :: rs.
Proof.
  induction rs as [| r rs IH]; intros c; simpl; [apply list_elem_of_here |].
  specialize (IH (pick c r)). apply elem_of_cons in IH as [Heq | Hin].
  - rewrite Heq. destruct (pick_cases c r) as [H | H]; rewrite H.
    + apply list_elem_of_here.
    + apply list_elem_of_further, list_elem_of_here.
  - by do 2 apply list_elem_of_further.
Qed.

Lemma fold_pick_keeps_error_free rs :
  forall c, hasErrorKey c = false -> hasErrorKey (fold_left pick rs c) = false.
Proof.
  induction rs as [| r rs IH]; intros c Hc; simpl; [done |].
  by apply IH, pick_keeps_error_free.
Qed.

(** Once a result without an [error] key is met, the candidate never
    has one again. *)
Lemma fold_pick_error_free rs :
  forall c, Exists (fun r => hasErrorKey r = false) (c :: rs) ->
            hasErrorKey (fold_left pick rs c) = false.
Proof.
  induction rs as [| r rs IH]; intros c Hex; simpl.
  - apply Exists_cons in Hex as [Hc | Hex]; [done | by apply Exists_nil in Hex].
  - apply Exists_cons in Hex as [Hc | Hex].
    + by apply fold_pick_keeps_error_free, pick_keeps_error_free.
    + destruct (hasErrorKey c) eqn:Hc.
      * unfold pick. rewrite Hc. by apply IH.
      * by apply fold_pick_keeps_error_free, pick_keeps_error_free.
Qed.

(** When every result has an [error] key, the last one is what the
    reduction ends on. *)
Lemma fold_pick_all_errors rs :
  forall c, Forall (fun r => hasErrorKey r = true) (c :: rs) ->
            Some (fold_left pick rs c) = last (c :: rs).
Proof.
  induction rs as [| r rs IH]; intros c Hall; simpl; [done |].
  apply Forall_cons in Hall as [Hc Hall].
  unfold pick at 2. rewrite Hc. rewrite (IH r Hall). by destruct rs.
Qed.

Lemma error_free_not_truthy r : hasErrorKey r = false -> errorTruthy r = false.
Proof. unfold hasErrorKey, errorTruthy. by destruct (error r). Qed.






(** C1, as stated, fails: with the results [{error: true}] and a success,
    in this order, the first error is not what [randomizeRelics] ends
    with; it resolves with the success. *)
Lemma first_error_is_masked :
  ~ (forall results e,
        firstError results = Some e -> settle results = Rejected (ThrownValue e)).
Proof.
  intros H. specialize (H [softError; success 5 "relics"] (ErrBool true) eq_refl).
  vm_compute in H. discriminate H.
Qed.

(** C1, amended: a truthy, non-boolean [error] is thrown by the listener
    when the reply arrives; in the selection a result without an [error]
    key is never given up for one that has the key, so with at least one
    such result the promise resolves with a result without [error]; and
    when all results have the key the selection ends on the last one,
    whose [error] is thrown if it is truthy. *)
Theorem errors_yield_to_successes :
  (forall rounds thread st name message stack d n p,
      onMessage rounds thread
        {| error := Some (ErrObject name message stack); done := d;
           nonce := n; payload := p |} st
      = Threw (ThrownError name message stack))
  /\ (forall results,
        Exists (fun r => hasErrorKey r = false) results ->
        exists r, settle results = Resolved r /\ r ∈ results /\ hasErrorKey r = false)
  /\ (forall results r,
        Forall (fun r => hasErrorKey r = true) (results ++ [r]) ->
        reduceResults (results ++ [r]) = Some r
        /\ settle (results ++ [r])
           = if errorTruthy r then
               match error r with
               | Some e => Rejected (ThrownValue e)
               | None => Resolved r
               end
             else Resolved r).
Proof.
  split; [done | split].
  - intros [| c rs] Hex; [by apply Exists_nil in Hex |].
    pose proof (fold_pick_error_free rs c Hex) as Hf.
    exists (fold_left pick rs c). split; [| split; [apply fold_pick_elem | done]].
    unfold settle. simpl. by rewrite (error_free_not_truthy _ Hf).
  - intros results r Hall.
    assert (Hred : reduceResults (results ++ [r]) = Some r).
    { destruct (results ++ [r]) as [| c rs] eqn:Heq.
      - by destruct results.
      - simpl. rewrite (fold_pick_all_errors rs c Hall), <- Heq. apply last_snoc. }
    split; [done |]. unfold settle. by rewrite Hred.
Qed.

Lemma errors_yield_to_successes_witness :
  (exists r, settle [softError; success 5 "relics"] = Resolved r
             /\ r ∈ [softError; success 5 "relics"] /\ hasErrorKey r = false)
  /\ reduceResults ([softError] ++ [softError]) = Some softError.
Proof.
  destruct errors_yield_to_successes as (_ & Hsome & Hall). split.
  - apply Hsome. apply Exists_cons_tl, Exists_cons_hd. reflexivity.
  - apply Hall. repeat constructor.
Defined.




(** The case the specification names: of the nonces 5 and 3, in either
    order, the result with nonce 3 is selected. *)
Lemma nonce_three_beats_five p5 p3 :
  settle [success 5 p5; success 3 p3] = Resolved (success 3 p3)
  /\ settle [success 3 p3; success 5 p5] = Resolved (success 3 p3).
Proof. split; reflexivity. Qed.

(** A reply without [error] and without [nonce], as [{done: false}] is,
    wins over any candidate: the comparison with its missing nonce is
    false. *)
Lemma nonceless_result_replaces n p :
  settle [success n p; {| error := None; done := false; nonce := None; payload := "" |}]
  = Resolved {| error := None; done := false; nonce := None; payload := "" |}.
Proof. reflexivity. Qed.

(** The promise that [randomizeRelics] returns is pending as long as
    the promise of some worker is. *)
Lemma collected_waits_for_all (st : State) (j : nat) :
  promises st !! j = Some None -> collected st = None.
Proof.
  intros Hj. apply mapM_None. apply Exists_exists. exists None.
  split; [| done]. apply list_elem_of_lookup. by exists j.
Qed.

(** C3, as stated, fails: after the first success, of worker 0, the only
    cancellation posted is the one to worker 0 itself, none to worker 1,
    and [randomizeRelics] does not go on, it waits for worker 1; the
    reply of worker 1 that arrives next is not disregarded, it settles
    the promise of worker 1 and is the result that [randomizeRelics]
    resolves with. *)
Lemma other_workers_not_cancelled_at_once :
  exists st1 st2,
    afterFirstSuccess = Next st1
    /\ ((1%nat, CancelMsg) ∉ outbox st1)
    /\ ((0%nat, CancelMsg) ∈ outbox st1)
    /\ collected st1 = None
    /\ onMessage 1 1 (success 1 "early") st1 = Next st2
    /\ promises st2 !! 1%nat = Some (Some (success 1 "early"))
    /\ (settle <$> collected st2) = Some (Resolved (success 1 "early")).
Proof.
  eexists _, _. split; [reflexivity |]. simpl.
  split; [| split; [| repeat split]].
  - intros H. repeat (apply elem_of_cons in H as [H | H]; [discriminate H |]).
    by apply elem_of_nil in H.
  - do 5 apply list_elem_of_further. apply list_elem_of_here.
Qed.

(** C3, amended: on a reply that does not throw, when it reports a
    success or when a success was seen before, the listener at once sets
    [done], settles the promise of the replying worker with this reply
    if it is pending, marks that worker as not running and posts one
    message, the cancellation of the replying worker; nothing is posted
    to any other worker and no promise of another worker changes, and
    the listener waits for no acknowledgement.  So another worker is
    cancelled when its own next reply arrives, that reply is kept as its
    result, and until then the promise of [randomizeRelics] is
    pending. *)
Theorem cancellation_on_own_reply rounds thread (r : WorkerResult) (st : State) :
  errorTruthy r && errorNotBoolean r = false ->
  doneFlag st || done r = true ->
  exists st',
    onMessage rounds thread r st = Next st'
    /\ doneFlag st' = true
    /\ outbox st' = outbox st ++ [(thread, CancelMsg)]
    /\ nextNonce st' = nextNonce st
    /\ running st' = <[thread := false]> (running st)
    /\ (promises st !! thread = Some None -> promises st' !! thread = Some (Some r))
    /\ (forall j, j <> thread -> promises st' !! j = promises st !! j)
    /\ (forall j, j <> thread -> promises st !! j = Some None -> collected st' = None).
Proof.
  intros Herr Hdone. unfold onMessage. rewrite Herr, Hdone.
  eexists. split; [reflexivity |]. simpl.
  assert (Hother : forall j, j <> thread ->
            resolve thread r (promises st) !! j = promises st !! j).
  { intros j Hj. unfold resolve.
    destruct (promises st !! thread) as [[|] |]; [done | | done].
    by apply list_lookup_insert_ne. }
  repeat split.
  - intros Hp. unfold resolve. rewrite Hp.
    apply list_lookup_insert_eq. by eapply lookup_lt_Some.
  - exact Hother.
  - intros j Hj Hpending. apply (collected_waits_for_all _ j). simpl.
    by rewrite Hother.
Qed.

Lemma cancellation_on_own_reply_witness :
  exists st',
    onMessage 1 0 (success 7 "relics") twoWorkers = Next st'
    /\ doneFlag st' = true
    /\ outbox st' = outbox twoWorkers ++ [(0%nat, CancelMsg)]
    /\ nextNonce st' = nextNonce twoWorkers
    /\ running st' = <[0%nat := false]> (running twoWorkers)
    /\ (promises twoWorkers !! 0%nat = Some None ->
        promises st' !! 0%nat = Some (Some (success 7 "relics")))
    /\ (forall j, j <> 0%nat -> promises st' !! j = promises twoWorkers !! j)
    /\ (forall j, j <> 0%nat -> promises twoWorkers !! j = Some None ->
                  collected st' = None).
Proof.
  apply cancellation_on_own_reply; reflexivity.
Defined.

(** Until a success is seen, an error-free reply that is not a success
    is answered with the next attempt, under the next nonce. *)
Lemma next_attempt_on_failure rounds thread (r : WorkerResult) (st : State) :
  errorTruthy r && errorNotBoolean r = false ->
  doneFlag st = false -> done r = false ->
  onMessage rounds thread r st = Next (postMessage thread rounds None st).
Proof. intros Herr Hd Hr. unfold onMessage. by rewrite Herr, Hd, Hr. Qed.

End OrchestratorFacts.

(** ** Sorting *)

Section SortBy.
Import Minimizer.
Context {A : Type} (cmp : A -> A -> Z) (key : A -> Z).
Hypothesis cmp_key : forall a b, cmp a b <= 0 <-> key a <= key b.

Lemma insertBy_perm x l : insertBy cmp x l ≡ₚ x :: l.
Proof.
  induction l as [| y l IH]; simpl; [done |].
  destruct (cmp x y <=? 0); [done |].
  rewrite IH. apply perm_swap.
Qed.

Lemma sortBy_perm l : sortBy cmp l ≡ₚ l.
Proof.
  induction l as [| x l IH]; simpl; [done |].
  unfold sortBy in *. simpl. by rewrite insertBy_perm, IH.
Qed.

Lemma insertBy_sorted x l :
  StronglySorted (fun a b => key a <= key b) l ->
  StronglySorted (fun a b => key a <= key b) (insertBy cmp x l).
Proof.
  induction l as [| y l IH]; intros Hs; simpl.
  - repeat constructor.
  - apply StronglySorted_cons in Hs as [Hy Hs].
    destruct (Z.leb_spec (cmp x y) 0) as [Hle | Hgt].
    + apply cmp_key in Hle. apply StronglySorted_cons. split.
      * constructor; [done |]. eapply Forall_impl; [exact Hy |].
        intros z Hz. simpl in Hz. lia.
      * by apply StronglySorted_cons.
    + assert (Hyx : key y <= key x).
      { destruct (Z.le_gt_cases (key x) (key y)) as [H | H]; [| lia].
        apply cmp_key in H. lia. }
      apply StronglySorted_cons. split; [| by apply IH].
      rewrite insertBy_perm. by constructor.
Qed.

Lemma sortBy_sorted l : StronglySorted (fun a b => key a <= key b) (sortBy cmp l).
Proof.
  induction l as [| x l IH]; [constructor |].
  unfold sortBy in *. simpl. by apply insertBy_sorted.
Qed.

(** The sort leaves a sorted array as it is. *)
Lemma sortBy_of_sorted l :
  StronglySorted (fun a b => key a <= key b) l -> sortBy cmp l = l.
Proof.
  induction l as [| x l IH]; intros Hs; [done |].
  apply StronglySorted_cons in Hs as [Hx Hs].
  unfold sortBy in *. simpl. rewrite (IH Hs).
  destruct l as [| y l]; [done |]. simpl.
  apply Forall_cons in Hx as [Hxy _]. apply cmp_key in Hxy.
  destruct (Z.leb_spec (cmp x y) 0); [done | lia].
Qed.

Lemma sortBy_elem x l : x ∈ sortBy cmp l <-> x ∈ l.
Proof. by rewrite sortBy_perm. Qed.

Lemma sortBy_length l : length (sortBy cmp l) = length l.
Proof. by rewrite sortBy_perm. Qed.

End SortBy.

Lemma sortBy_map {A} (cmp : A -> A -> Z) (g : A -> A) (l : list A) :
  (forall a b, cmp (g a) (g b) = cmp a b) ->
  Minimizer.sortBy cmp (g <$> l) = g <$> Minimizer.sortBy cmp l.
Proof.
  intros Hg. unfold Minimizer.sortBy.
  induction l as [| x l IH]; [done |].
  rewrite fmap_cons. simpl. rewrite IH. clear IH.
  induction (foldr (Minimizer.insertBy cmp) [] l) as [| y t IHt]; [done |].
  simpl. rewrite Hg.
  destruct (cmp x y <=? 0); simpl; [done |]. f_equal. apply IHt.
Qed.

(** The last element of an ascending sort has the greatest key. *)
Lemma last_sortBy_greatest {A} (cmp : A -> A -> Z) (key : A -> Z) (l : list A) x :
  (forall a b, cmp a b <= 0 <-> key a <= key b) ->
  last (Minimizer.sortBy cmp l) = Some x ->
  x ∈ l /\ forall y, y ∈ l -> key y <= key x.
Proof.
  intros Hcmp Hlast.
  pose proof (sortBy_sorted cmp key Hcmp l) as Hs.
  pose proof (sortBy_perm cmp l) as Hp.
  apply last_Some in Hlast as [l' Hl']. rewrite Hl' in Hs, Hp.
  split.
  - rewrite <- Hp. apply elem_of_app. right. apply list_elem_of_here.
  - intros y Hy. rewrite <- Hp in Hy. apply elem_of_app in Hy as [Hy | Hy].
    + apply (StronglySorted_app_1_elem_of (fun a b => key a <= key b) l' [x]);
        [done | done | apply list_elem_of_here].
    + apply list_elem_of_singleton in Hy as ->. lia.
Qed.

(** ** Scoring and selection *)

Section MinifyFacts.
Import Minimizer.

(** Induction over a raw node and the nodes of its locks. *)
Section LockNodeInduction.
Variable P : LockNode -> Prop.
Hypothesis leaf_case : forall item, P (mkLockNode item None).
Hypothesis locks_case :
  forall item locks, Forall (Forall P) locks -> P (mkLockNode item (Some locks)).

Lemma LockNode_nested_ind : forall node, P node.
Proof.
  fix IH 1. intros [item [locks |]]; [| apply leaf_case].
  apply locks_case.
  induction locks as [| lock locks IHlocks]; constructor; [| exact IHlocks].
  induction lock as [| node lock IHlock]; constructor; [apply IH | exact IHlock].
Qed.
End LockNodeInduction.

Lemma reduceM_none {A B} (f : B -> A -> option B) (l : list A) :
  fold_left (fun acc x => acc ≫= fun b => f b x) l None = None.
Proof. induction l as [| x l IH]; [done | exact IH]. Qed.

Lemma reduceM_cons {A B} (f : B -> A -> option B) x (l : list A) init :
  reduceM f (x :: l) init = f init x ≫= reduceM f l.
Proof.
  unfold reduceM. simpl. destruct (f init x) as [b |]; [done |].
  apply reduceM_none.
Qed.

Lemma score_cases requirements :
  (requirements = [] /\ score requirements = None)
  \/ (exists deepest,
        deepest ∈ requirements
        /\ (forall r, r ∈ requirements -> reqDepth r <= reqDepth deepest)
        /\ score requirements
           = Some (Scored (reqDepth deepest)
                     (fold_left (fun weight requirement => weight + reqDepth requirement)
                                requirements 0)
                     (Qdiv (inject_Z (fold_left (fun weight requirement =>
                                                   weight + reqDepth requirement)
                                                requirements 0))
                           (inject_Z (Z.of_nat (length requirements))))
                     requirements)).
Proof.
  unfold score.
  destruct (last (sortBy (fun a b => reqDepth a - reqDepth b) requirements))
    as [deepest |] eqn:Hlast.
  - right. exists deepest.
    destruct (last_sortBy_greatest (fun a b => reqDepth a - reqDepth b) reqDepth
                requirements deepest) as [Hin Hmax];
      [intros a b; lia | done |].
    by repeat split.
  - left. apply last_None in Hlast.
    pose proof (sortBy_length (fun a b => reqDepth a - reqDepth b) requirements) as Hlen.
    rewrite Hlast in Hlen. destruct requirements; [| done].
    split; [done |]. reflexivity.
Qed.

Lemma fold_left_sum requirements : forall acc,
  fold_left (fun weight requirement => weight + reqDepth requirement) requirements acc
  = acc + foldr Z.add 0 (reqDepth <$> requirements).
Proof.
  induction requirements as [| r rs IH]; intros acc; cbn; [lia |].
  rewrite IH. lia.
Qed.

(** The depth of a requirement is at least 1. *)
Lemma requirementOf_depth node :
  forall r, requirementOf node = Some r -> 1 <= reqDepth r.
Proof.
  induction node as [item | item locks IH] using LockNode_nested_ind; intros r Hr.
  - simpl in Hr. injection Hr as <-. simpl. lia.
  - simpl in Hr.
    destruct (reduceM (minifyWith requirementOf) locks Initial) as [sol |] eqn:Hsol;
      [| done].
    simpl in Hr. injection Hr as <-. simpl.
    assert (Hgen : forall min, 0 <= solDepth min ->
              forall sol, reduceM (minifyWith requirementOf) locks min = Some sol ->
                          0 <= solDepth sol).
    { clear Hsol sol. induction locks as [| lock locks IHl]; intros min Hmin sol Hsol.
      - unfold reduceM in Hsol. simpl in Hsol. by injection Hsol as <-.
      - rewrite reduceM_cons in Hsol.
        apply Forall_cons in IH as [Hlock IH].
        destruct (minifyWith requirementOf min lock) as [min' |] eqn:Hmin'; [| done].
        simpl in Hsol. apply (IHl IH min'); [| done].
        unfold minifyWith in Hmin'.
        destruct (mapM requirementOf lock) as [reqs |] eqn:Hreqs; [| done].
        simpl in Hmin'.
        destruct (score_cases reqs) as [[_ Hs] | (deepest & Hin & _ & Hs)];
          rewrite Hs in Hmin'; [done |].
        simpl in Hmin'. injection Hmin' as <-.
        unfold select. destruct (replaces _ min); [| done]. simpl.
        apply mapM_Some in Hreqs.
        apply list_elem_of_lookup in Hin as [i Hi].
        destruct (Forall2_lookup_r _ _ _ _ _ Hreqs Hi) as (node & Hnode & Hreq).
        pose proof (Forall_lookup_1 _ _ _ _ Hlock Hnode _ Hreq) as Hdepth.
        lia. }
    specialize (Hgen Initial (Z.le_refl 0) sol Hsol). lia.
Qed.

(** C4, as stated, fails.  For the lock of the single node [A] without
    locks, the requirement made for [A] has depth 1, not 0, and the
    candidate has depth 1 and weight 1: the stated score gives weight 0
    from the stated leaf depth 0, and depth 2 from the depth 1 that the
    code gives the child. *)
Lemma stated_score_differs :
  requirementOf (mkLockNode "A" None) = Some (mkReq "A" 1 None)
  /\ (exists avg,
        minifySolution Initial [mkLockNode "A" None]
        = Some (Scored 1 1 avg [mkReq "A" 1 None])
        /\ (1, 1, avg) <> statedScore [0]
        /\ (1, 1, avg) <> statedScore [1]).
Proof.
  split; [reflexivity |]. eexists. split; [reflexivity |].
  split; intros H; vm_compute in H; discriminate H.
Qed.

(** C4, amended: a requirement made from a node without locks has depth
    1, one made from a node with locks has depth 1 + the depth of the
    solution selected among its locks; a candidate solution has the
    greatest depth of its requirements as depth (not one more), the sum
    of their depths as weight, and weight divided by their number as
    avg. *)
Theorem scoring_of_candidates (min : Solution) (lock : list LockNode)
    (requirements : list Requirement) :
  mapM requirementOf lock = Some requirements ->
  requirements <> [] ->
  exists depth weight,
    minifySolution min lock
    = Some (select min (Scored depth weight
                          (Qdiv (inject_Z weight)
                                (inject_Z (Z.of_nat (length requirements))))
                          requirements))
    /\ (exists r, r ∈ requirements /\ depth = reqDepth r)
    /\ (forall r, r ∈ requirements -> reqDepth r <= depth)
    /\ weight = foldr Z.add 0 (reqDepth <$> requirements)
    /\ Forall2 (fun node r =>
                  match node with
                  | mkLockNode item None => r = mkReq item 1 None
                  | mkLockNode item (Some locks) =>
                      exists solution,
                        reduceM minifySolution locks Initial = Some solution
                        /\ r = mkReq item (1 + solDepth solution) (Some solution)
                  end) lock requirements.
Proof.
  intros Hreqs Hne.
  destruct (score_cases requirements) as [[-> _] | (deepest & Hin & Hmax & Hs)];
    [done |].
  exists (reqDepth deepest),
    (fold_left (fun weight requirement => weight + reqDepth requirement) requirements 0).
  split; [| split; [by exists deepest | split; [done | split]]].
  - unfold minifySolution, minifyWith. rewrite Hreqs. simpl. by rewrite Hs.
  - rewrite fold_left_sum. lia.
  - apply mapM_Some in Hreqs. eapply Forall2_impl; [exact Hreqs |].
    intros [item [locks |]] r Hr; simpl in Hr.
    + destruct (reduceM (minifyWith requirementOf) locks Initial) as [sol |] eqn:Hsol;
        [| done].
      simpl in Hr. injection Hr as <-. by exists sol.
    + by injection Hr as <-.
Qed.

Lemma scoring_of_candidates_witness :
  exists depth weight,
    minifySolution Initial pairLock
    = Some (select Initial
              (Scored depth weight
                 (Qdiv (inject_Z weight) (inject_Z (Z.of_nat (length pairRequirements))))
                 pairRequirements))
    /\ (exists r, r ∈ pairRequirements /\ depth = reqDepth r)
    /\ (forall r, r ∈ pairRequirements -> reqDepth r <= depth)
    /\ weight = foldr Z.add 0 (reqDepth <$> pairRequirements)
    /\ Forall2 (fun node r =>
                  match node with
                  | mkLockNode item None => r = mkReq item 1 None
                  | mkLockNode item (Some locks) =>
                      exists solution,
                        reduceM minifySolution locks Initial = Some solution
                        /\ r = mkReq item (1 + solDepth solution) (Some solution)
                  end) pairLock pairRequirements.
Proof.
  apply scoring_of_candidates; [reflexivity | discriminate].
Defined.

(** *** Selection *)

Lemma lexLt_asym a b : lexLt a b -> ~ lexLt b a.
Proof.
  destruct a as [[da wa] qa], b as [[db wb] qb]. unfold lexLt.
  intros [H | [[? H] | (? & ? & H)]] [H' | [[? H'] | (? & ? & H')]]; try lia.
  by apply (Qlt_irrefl qa), (Qlt_trans _ qb).
Qed.

Lemma lexLt_between a b c : lexLt a b -> lexLt a c \/ lexLt c b.
Proof.
  destruct a as [[da wa] qa], b as [[db wb] qb], c as [[dc wc] qc]. unfold lexLt.
  intros Hab.
  destruct (Z.lt_trichotomy da dc) as [? | [-> | ?]];
    [by left; left | | right; left; lia].
  destruct (Z.lt_trichotomy dc db) as [? | [-> | ?]]; [by right; left | | lia].
  destruct (Z.lt_trichotomy wa wc) as [? | [-> | ?]];
    [left; right; left; lia | | right; right; left; lia].
  destruct (Z.lt_trichotomy wc wb) as [? | [-> | ?]];
    [right; right; left; lia | | lia].
  destruct Hab as [? | [[? ?] | (_ & _ & Hq)]]; [lia | lia |].
  destruct (Qlt_le_dec qa qc) as [? | Hle]; [left; auto |].
  right. right. right. repeat split. by apply (Qle_lt_trans _ qa).
Qed.

(** The order is total: two keys are ordered one way or the other, or
    equal on all three components. *)
Lemma lexLt_total a b : lexLt a b \/ lexLt b a \/ lexEq a b.
Proof.
  destruct a as [[da wa] qa], b as [[db wb] qb]. unfold lexLt, lexEq.
  destruct (Z.lt_trichotomy da db) as [? | [-> | ?]];
    [by left; left | | right; left; left; lia].
  destruct (Z.lt_trichotomy wa wb) as [? | [-> | ?]];
    [left; right; left; lia | | right; left; right; left; lia].
  destruct (Q_dec qa qb) as [[? | ?] | ?]; [left | right; left | right; right]; auto.
Qed.

Lemma avgLt_spec a b : avgLt (Some a) (Some b) = true <-> Qlt a b.
Proof.
  unfold avgLt. rewrite negb_true_iff. split.
  - intros H. apply Qnot_le_lt. intros Hle. apply Qle_bool_iff in Hle. congruence.
  - intros H. destruct (Qle_bool b a) eqn:Hb; [| done].
    apply Qle_bool_iff in Hb. by apply Qlt_not_le in H.
Qed.

Lemma select_candidate min c :
  isCandidate min -> isCandidate c ->
  (lexLt (scoreKey c) (scoreKey min) /\ select min c = c)
  \/ (~ lexLt (scoreKey c) (scoreKey min) /\ select min c = min).
Proof.
  intros (dm & wm & am & rm & -> & Hdm) (dc & wc & ac & rc & -> & Hdc).
  unfold select, replaces, scoreKey, lexLt. simpl.
  destruct (Z.eqb_spec dm 0); [lia |]. simpl.
  destruct (Z.ltb_spec dc dm); simpl; [left; auto |].
  destruct (Z.eqb_spec dc dm); simpl; [| right; split; [lia | done]].
  destruct (Z.ltb_spec wc wm); simpl; [left; auto |].
  destruct (Z.eqb_spec wc wm); simpl; [| right; split; [lia | done]].
  destruct (negb (Qle_bool am ac)) eqn:Hq.
  - left. split; [| done]. right. right. repeat split; [done .. |].
    by apply (avgLt_spec ac am).
  - right. split; [| done]. intros [? | [[? ?] | (_ & _ & Hlt)]]; [lia | lia |].
    apply (avgLt_spec ac am) in Hlt. unfold avgLt in Hlt. congruence.
Qed.

(** Folding the selection from a candidate gives the first of the least
    candidates. *)
Lemma fold_select_first_least cs : forall c,
  Forall isCandidate (c :: cs) ->
  exists i,
    (c :: cs) !! i = Some (fold_left select cs c)
    /\ (forall j x, (c :: cs) !! j = Some x ->
                    ~ lexLt (scoreKey x) (scoreKey (fold_left select cs c)))
    /\ (forall j x, (c :: cs) !! j = Some x -> (j < i)%nat ->
                    lexLt (scoreKey (fold_left select cs c)) (scoreKey x)).
Proof.
  induction cs as [| c' cs IH]; intros c Hall.
  - exists 0%nat. simpl. split; [done |]. split.
    + intros [| j] x Hx; [| done]. injection Hx as <-.
      intros H. exact (lexLt_asym (scoreKey c) (scoreKey c) H H).
    + intros j x _ Hj. lia.
  - apply Forall_cons in Hall as [Hc Hall].
    pose proof Hall as Hall'. apply Forall_cons in Hall' as [Hc' Hcs].
    simpl. destruct (select_candidate c c' Hc Hc') as [[Hlt ->] | [Hge ->]].
    + destruct (IH c' Hall) as (i & Hi & Hleast & Hfirst).
      set (best := fold_left select cs c') in *.
      assert (Hbest : lexLt (scoreKey best) (scoreKey c)).
      { destruct (lexLt_between _ _ (scoreKey best) Hlt) as [H | H]; [| done].
        exfalso. exact (Hleast 0%nat c' eq_refl H). }
      exists (S i). split; [done |]. split.
      * intros [| j] x Hx; [| by apply (Hleast j)].
        injection Hx as <-. exact (lexLt_asym _ _ Hbest).
      * intros [| j] x Hx Hj; [by injection Hx as <- |].
        apply (Hfirst j); [done | lia].
    + destruct (IH c (Forall_cons_2 _ _ _ Hc Hcs)) as (i & Hi & Hleast & Hfirst).
      set (best := fold_left select cs c) in *.
      destruct i as [| i].
      * injection Hi as Hi. exists 0%nat. split; [by rewrite <- Hi |]. split.
        -- intros [| [| j]] x Hx.
           ++ by apply (Hleast 0%nat).
           ++ injection Hx as <-. by rewrite <- Hi.
           ++ by apply (Hleast (S j)).
        -- intros j x _ Hj. lia.
      * pose proof (Hfirst 0%nat c eq_refl (Nat.lt_0_succ i)) as Hbest.
        assert (Hbest' : lexLt (scoreKey best) (scoreKey c')).
        { by destruct (lexLt_between _ _ (scoreKey c') Hbest) as [H | H]. }
        exists (S (S i)). split; [done |]. split.
        -- intros [| [| j]] x Hx.
           ++ by apply (Hleast 0%nat).
           ++ injection Hx as <-. exact (lexLt_asym _ _ Hbest').
           ++ by apply (Hleast (S j)).
        -- intros [| [| j]] x Hx Hj.
           ++ by injection Hx as <-.
           ++ by injection Hx as <-.
           ++ apply (Hfirst (S j)); [done | lia].
Qed.

Lemma minifySolution_select min lock :
  minifySolution min lock = select min <$> minifySolution Initial lock.
Proof.
  unfold minifySolution, minifyWith.
  destruct (mapM requirementOf lock) as [reqs |]; [| done]. simpl.
  destruct (score_cases reqs) as [[_ ->] | (deepest & _ & _ & ->)]; done.
Qed.

Lemma minifySolution_candidate lock c :
  minifySolution Initial lock = Some c -> isCandidate c.
Proof.
  unfold minifySolution, minifyWith. intros Hc.
  destruct (mapM requirementOf lock) as [reqs |] eqn:Hreqs; [| done].
  simpl in Hc.
  destruct (score_cases reqs) as [[_ Hs] | (deepest & Hin & _ & Hs)];
    rewrite Hs in Hc; [done |].
  simpl in Hc. injection Hc as <-. do 4 eexists. split; [reflexivity |].
  apply mapM_Some in Hreqs. apply list_elem_of_lookup in Hin as [i Hi].
  destruct (Forall2_lookup_r _ _ _ _ _ Hreqs Hi) as (node & _ & Hreq).
  by apply (requirementOf_depth node).
Qed.

Lemma reduceM_minifySolution locks : forall candidates min,
  mapM (minifySolution Initial) locks = Some candidates ->
  reduceM minifySolution locks min = Some (fold_left select candidates min).
Proof.
  induction locks as [| lock locks IH]; intros candidates min Hc.
  - by injection Hc as <-.
  - apply mapM_Some in Hc. apply Forall2_cons_inv_l in Hc as (c & cs & Hc & Hcs & ->).
    rewrite reduceM_cons, minifySolution_select, Hc. simpl.
    apply IH. by apply mapM_Some.
Qed.

(** C5: among the alternative locks of a requirement, each scored to a
    candidate, the reduction with [minifySolution] ends on a candidate
    that no candidate is below in the lexicographic order on (depth,
    weight, avg), and every candidate met before it is strictly above
    it: the first of the least candidates is kept.  The order is total:
    two candidates are ordered or equal on all three components. *)
Theorem selection_keeps_first_least (locks : list (list LockNode))
    (candidates : list Solution) :
  mapM (minifySolution Initial) locks = Some candidates ->
  candidates <> [] ->
  exists i best,
    reduceM minifySolution locks Initial = Some best
    /\ candidates !! i = Some best
    /\ (forall j c, candidates !! j = Some c -> ~ lexLt (scoreKey c) (scoreKey best))
    /\ (forall j c, candidates !! j = Some c -> (j < i)%nat ->
                    lexLt (scoreKey best) (scoreKey c))
    /\ (forall a b : Solution,
          lexLt (scoreKey a) (scoreKey b) \/ lexLt (scoreKey b) (scoreKey a)
          \/ lexEq (scoreKey a) (scoreKey b)).
Proof.
  intros Hc Hne.
  assert (Hall : Forall isCandidate candidates).
  { apply mapM_Some in Hc. apply Forall_forall. intros c Hin.
    apply list_elem_of_lookup in Hin as [i Hi].
    destruct (Forall2_lookup_r _ _ _ _ _ Hc Hi) as (lock & _ & Hlock).
    by apply (minifySolution_candidate lock). }
  rewrite (reduceM_minifySolution locks candidates Initial Hc).
  destruct candidates as [| c cs]; [done |].
  assert (Hfirst : select Initial c = c).
  { apply Forall_cons in Hall as [(d & w & a & rs & -> & _) _]. reflexivity. }
  simpl. rewrite Hfirst.
  destruct (fold_select_first_least cs c Hall) as (i & Hi & Hleast & Hbefore).
  exists i, (fold_left select cs c).
  split; [done | split; [done | split; [done | split; [done |]]]].
  intros a b. exact (lexLt_total (scoreKey a) (scoreKey b)).
Qed.

Lemma selection_keeps_first_least_witness :
  exists i best,
    reduceM minifySolution threeLocks Initial = Some best
    /\ threeCandidates !! i = Some best
    /\ (forall j c, threeCandidates !! j = Some c ->
                    ~ lexLt (scoreKey c) (scoreKey best))
    /\ (forall j c, threeCandidates !! j = Some c -> (j < i)%nat ->
                    lexLt (scoreKey best) (scoreKey c))
    /\ (forall a b : Solution,
          lexLt (scoreKey a) (scoreKey b) \/ lexLt (scoreKey b) (scoreKey a)
          \/ lexEq (scoreKey a) (scoreKey b)).
Proof.
  apply selection_keeps_first_least; [reflexivity | discriminate].
Defined.

(** Of two equal candidates the one met first is kept. *)
Example selection_tie_keeps_first :
  reduceM minifySolution threeLocks Initial = threeCandidates !! 1%nat.
Proof. reflexivity. Qed.

End MinifyFacts.

(** ** Pruning *)

Section PruneFacts.
Import Minimizer.

Section RequirementInduction.
Variable P : Requirement -> Prop.
Hypothesis leaf_case : forall item depth, P (mkReq item depth None).
Hypothesis initial_case : forall item depth, P (mkReq item depth (Some Initial)).
Hypothesis scored_case :
  forall item depth d w a requirements,
    Forall P requirements -> P (mkReq item depth (Some (Scored d w a requirements))).

Lemma Requirement_nested_ind : forall node, P node.
Proof.
  fix IH 1. intros [item depth [[| d w a requirements] |]];
    [apply initial_case | | apply leaf_case].
  apply scored_case.
  induction requirements as [| node requirements IHr]; constructor;
    [apply IH | exact IHr].
Qed.
End RequirementInduction.

Lemma closure_self node : reqItem node ∈ closure node.
Proof. destruct node as [item depth [[| d w a reqs] |]]; simpl; set_solver. Qed.

Lemma closure_scored item depth d w a requirements :
  closure (mkReq item depth (Some (Scored d w a requirements)))
  = {[item]} ∪ ⋃ (closure <$> requirements).
Proof.
  simpl. f_equal. induction requirements as [| r rs IH]; [done |].
  cbn. rewrite IH. pose proof (closure_self r). set_solver.
Qed.

Lemma pruned_item node : reqItem (pruned node) = reqItem node.
Proof. by destruct node as [item depth [[| d w a reqs] |]]. Qed.

Lemma pruned_depth node : reqDepth (pruned node) = reqDepth node.
Proof. by destruct node as [item depth [[| d w a reqs] |]]. Qed.

(** *** The pruning of a list *)

Lemma keepNovel_elem x l : forall seen, x ∈ keepNovel seen l -> x ∈ l.
Proof.
  induction l as [| y l IH]; intros seen Hx; [done |]. simpl in Hx.
  destruct (decide (closure y ⊆ seen)).
  - apply list_elem_of_further. by eapply IH.
  - apply elem_of_cons in Hx as [-> | Hx]; [apply list_elem_of_here |].
    apply list_elem_of_further. by eapply IH.
Qed.

(** What is dropped brings no ability: the kept nodes have the same
    abilities under them as all the nodes. *)
Lemma keepNovel_union l : forall seen,
  seen ∪ ⋃ (closure <$> keepNovel seen l) = seen ∪ ⋃ (closure <$> l).
Proof.
  induction l as [| y l IH]; intros seen; [done |]. simpl.
  specialize (IH (seen ∪ closure y)).
  destruct (decide (closure y ⊆ seen)); cbn; set_solver.
Qed.

Lemma keepNovel_idempotent l : forall seen,
  keepNovel seen (keepNovel seen l) = keepNovel seen l.
Proof.
  induction l as [| y l IH]; intros seen; [done |]. simpl.
  destruct (decide (closure y ⊆ seen)) as [Hsub | Hnew].
  - replace (seen ∪ closure y) with seen by set_solver. apply IH.
  - simpl. destruct (decide (closure y ⊆ seen)); [done |]. by rewrite IH.
Qed.

(** Nodes already within [seen0] can be taken out beforehand. *)
Lemma keepNovel_filter l : forall seen0 seen,
  seen0 ⊆ seen ->
  keepNovel seen (filter (fun c => ¬ closure c ⊆ seen0) l) = keepNovel seen l.
Proof.
  induction l as [| y l IH]; intros seen0 seen Hsub; [done |].
  rewrite filter_cons. destruct (decide (¬ closure y ⊆ seen0)) as [Hnew | Hold].
  - simpl. destruct (decide (closure y ⊆ seen)); rewrite (IH seen0); set_solver.
  - apply dec_stable in Hold. simpl.
    destruct (decide (closure y ⊆ seen)) as [_ | Hn]; [| set_solver].
    replace (seen ∪ closure y) with seen by set_solver. by apply IH.
Qed.

Lemma keepNovel_fmap (g : Requirement -> Requirement) l : forall seen,
  Forall (fun x => closure (g x) = closure x) l ->
  keepNovel seen (g <$> l) = g <$> keepNovel seen l.
Proof.
  induction l as [| y l IH]; intros seen Hg; [done |].
  apply Forall_cons in Hg as [Hy Hg]. cbn. rewrite Hy.
  destruct (decide (closure y ⊆ seen)); cbn; by rewrite IH.
Qed.

Lemma keepNovel_sorted (R : Requirement -> Requirement -> Prop) l : forall seen,
  StronglySorted R l -> StronglySorted R (keepNovel seen l).
Proof.
  induction l as [| y l IH]; intros seen Hs; [done |].
  apply StronglySorted_cons in Hs as [Hy Hs]. simpl.
  destruct (decide (closure y ⊆ seen)); [by apply IH |].
  apply StronglySorted_cons. split; [| by apply IH].
  apply Forall_forall. intros x Hx. apply keepNovel_elem in Hx.
  by apply (proj1 (Forall_forall _ _) Hy).
Qed.

(** A node is never dropped while nothing has been seen. *)
Lemma keepNovel_first node later :
  keepNovel ∅ (node :: later) = node :: keepNovel (∅ ∪ closure node) later.
Proof.
  simpl. destruct (decide (closure node ⊆ ∅)) as [Hsub |]; [| done].
  pose proof (closure_self node). set_solver.
Qed.

(** *** The pruned tree *)

Lemma elem_of_closures a (l : list Requirement) :
  a ∈ ⋃ (closure <$> l) <-> exists r, r ∈ l /\ a ∈ closure r.
Proof.
  rewrite elem_of_union_list. split.
  - intros (X & HX & Ha). apply list_elem_of_fmap in HX as (r & -> & Hr). eauto.
  - intros (r & Hr & Ha). exists (closure r). split; [| done].
    by apply list_elem_of_fmap_2.
Qed.

Lemma closures_perm (l l' : list Requirement) :
  l ≡ₚ l' -> ⋃ (closure <$> l) = ⋃ (closure <$> l').
Proof.
  intros Hp. apply set_eq. intros a. rewrite !elem_of_closures.
  by setoid_rewrite Hp.
Qed.

Lemma byDepthDescending_key a b :
  byDepthDescending a b <= 0 <-> - reqDepth a <= - reqDepth b.
Proof. unfold byDepthDescending. lia. Qed.

Lemma pruned_requirements item depth d w a requirements :
  pruned (mkReq item depth (Some (Scored d w a requirements)))
  = mkReq item depth
      (Some (Scored d w a
               (keepNovel ∅ (sortBy byDepthDescending (pruned <$> requirements))))).
Proof. reflexivity. Qed.

Lemma pruned_closure node : closure (pruned node) = closure node.
Proof.
  induction node as [| | item depth d w a reqs IH] using Requirement_nested_ind;
    [done | done |].
  rewrite pruned_requirements, !closure_scored. f_equal.
  pose proof (keepNovel_union (sortBy byDepthDescending (pruned <$> reqs)) ∅) as Hk.
  rewrite !union_empty_l_L in Hk. rewrite Hk.
  rewrite (closures_perm _ _ (sortBy_perm byDepthDescending (pruned <$> reqs))).
  f_equal. rewrite <- list_fmap_compose.
  apply Forall_fmap_ext. eapply Forall_impl; [exact IH |].
  intros r Hr. exact Hr.
Qed.

(** Below a pruned node are the pruned nodes that are kept of the
    sorted requirements. *)
Lemma pruned_kept item depth d w a requirements :
  pruned (mkReq item depth (Some (Scored d w a requirements)))
  = mkReq item depth
      (Some (Scored d w a
               (pruned <$> keepNovel ∅ (sortBy byDepthDescending requirements)))).
Proof.
  rewrite pruned_requirements. do 3 f_equal.
  rewrite sortBy_map.
  - apply keepNovel_fmap. apply Forall_forall. intros r _. apply pruned_closure.
  - intros x y. unfold byDepthDescending. by rewrite !pruned_depth.
Qed.

Lemma kept_elem r requirements seen :
  r ∈ keepNovel seen (sortBy byDepthDescending requirements) -> r ∈ requirements.
Proof.
  intros Hr. apply keepNovel_elem in Hr.
  by apply (proj1 (sortBy_elem byDepthDescending r requirements)).
Qed.

Lemma wellScored_scored item depth d w a requirements :
  wellScored (mkReq item depth (Some (Scored d w a requirements))) = true
  <-> Forall (fun r => wellScored r = true) requirements.
Proof. simpl. rewrite forallb_forall, Forall_forall. by setoid_rewrite list_elem_of_In. Qed.

Lemma pruned_wellScored node : wellScored node = true -> wellScored (pruned node) = true.
Proof.
  induction node as [| | item depth d w a reqs IH] using Requirement_nested_ind;
    [done | done |].
  rewrite pruned_kept, !wellScored_scored. intros Hw.
  apply Forall_forall. intros r' Hr'.
  apply list_elem_of_fmap in Hr' as (r & -> & Hr).
  apply kept_elem in Hr.
  rewrite Forall_forall in IH. rewrite Forall_forall in Hw.
  exact (IH r Hr (Hw r Hr)).
Qed.

Lemma consistentWith_scored cl item depth d w a requirements :
  consistentWith cl (mkReq item depth (Some (Scored d w a requirements)))
  <-> closure (mkReq item depth (Some (Scored d w a requirements))) = cl item
      /\ Forall (consistentWith cl) requirements.
Proof.
  unfold consistentWith.
  change (nodesOf (mkReq item depth (Some (Scored d w a requirements))))
    with (mkReq item depth (Some (Scored d w a requirements))
          :: concat (nodesOf <$> requirements)).
  rewrite Forall_cons, Forall_concat, Forall_fmap. done.
Qed.

Lemma consistentWith_closure cl node :
  consistentWith cl node -> closure node = cl (reqItem node).
Proof.
  unfold consistentWith. destruct node as [item depth sol]; simpl.
  intros H. by apply Forall_cons in H as [H _].
Qed.

Lemma pruned_consistentWith cl node :
  consistentWith cl node -> consistentWith cl (pruned node).
Proof.
  induction node as [| | item depth d w a reqs IH] using Requirement_nested_ind;
    [done | done |].
  intros Hc. pose proof (pruned_closure (mkReq item depth (Some (Scored d w a reqs)))) as Hcl.
  rewrite pruned_kept in Hcl |- *.
  apply consistentWith_scored in Hc as [Hroot Hreqs].
  apply consistentWith_scored. split; [by rewrite Hcl |].
  apply Forall_forall. intros r' Hr'.
  apply list_elem_of_fmap in Hr' as (r & -> & Hr).
  apply kept_elem in Hr.
  rewrite Forall_forall in IH. rewrite Forall_forall in Hreqs.
  exact (IH r Hr (Hreqs r Hr)).
Qed.

(** Pruning a pruned tree changes nothing. *)
Lemma pruned_idempotent node : pruned (pruned node) = pruned node.
Proof.
  induction node as [| | item depth d w a reqs IH] using Requirement_nested_ind;
    [done | done |].
  rewrite pruned_requirements.
  set (kept := keepNovel ∅ (sortBy byDepthDescending (pruned <$> reqs))).
  rewrite pruned_requirements. do 3 f_equal.
  assert (Hfix : pruned <$> kept = kept).
  { rewrite <- (list_fmap_id kept) at 2. apply Forall_fmap_ext, Forall_forall.
    intros r' Hr'. apply kept_elem in Hr'.
    apply list_elem_of_fmap in Hr' as (r & -> & Hr).
    rewrite Forall_forall in IH. by apply IH. }
  rewrite Hfix.
  rewrite (sortBy_of_sorted byDepthDescending (fun r => - reqDepth r)
             byDepthDescending_key).
  - apply keepNovel_idempotent.
  - apply keepNovel_sorted, sortBy_sorted, byDepthDescending_key.
Qed.

(** *** The memo *)

Section WithClosures.
Variable cl : string -> gset string.

Lemma soundMemo_insert map item abilities :
  soundMemo cl map -> abilities = cl item -> soundMemo cl (<[item := abilities]> map).
Proof.
  intros Hm -> k s Hk. destruct (decide (item = k)) as [<- | Hne].
  - rewrite lookup_insert_eq in Hk. by injection Hk as <-.
  - rewrite lookup_insert_ne in Hk by done. by apply Hm.
Qed.

Lemma collect_requirements requirements :
  Forall (collectsClosure cl) requirements ->
  forall abilities map, soundMemo cl map ->
    exists map',
      reduceM (fun '(abilities, map) node =>
                 '(collected, map) ← collectAbilities node map;
                 Some (abilities ∪ {[reqItem node]} ∪ collected, map))
              requirements (abilities, map)
      = Some (abilities ∪ ⋃ ((fun r => {[reqItem r]} ∪ cl (reqItem r)) <$> requirements),
              map')
      /\ soundMemo cl map'.
Proof.
  induction requirements as [| r rs IH]; intros Hall abilities map Hm.
  - exists map. split; [| done]. cbn. f_equal. f_equal. set_solver.
  - apply Forall_cons in Hall as [Hr Hrs]. rewrite reduceM_cons.
    destruct (Hr map Hm) as (map1 & -> & Hm1). simpl.
    destruct (IH Hrs (abilities ∪ {[reqItem r]} ∪ cl (reqItem r)) map1 Hm1)
      as (map2 & -> & Hm2).
    exists map2. split; [| done]. f_equal. f_equal. cbn. set_solver.
Qed.

Lemma collectAbilities_sound node :
  wellScored node = true -> consistentWith cl node -> collectsClosure cl node.
Proof.
  induction node as [item depth | | item depth d w a reqs IH]
    using Requirement_nested_ind; intros Hw Hc map Hm; [| done |].
  - simpl. destruct (map !! item) as [abilities |] eqn:Hitem.
    + exists map. by rewrite (Hm _ _ Hitem).
    + apply consistentWith_closure in Hc. simpl in Hc. rewrite <- Hc.
      eexists. split; [reflexivity |]. by apply soundMemo_insert.
  - pose proof (consistentWith_closure _ _ Hc) as Hroot.
    rewrite closure_scored in Hroot. simpl in Hroot.
    apply consistentWith_scored in Hc as [_ Hreqs].
    apply wellScored_scored in Hw.
    assert (Hall : Forall (collectsClosure cl) reqs).
    { rewrite Forall_forall in IH, Hw, Hreqs |- *. intros r Hr.
      exact (IH r Hr (Hw r Hr) (Hreqs r Hr)). }
    assert (Hsame : ⋃ ((fun r => {[reqItem r]} ∪ cl (reqItem r)) <$> reqs)
                    = ⋃ (closure <$> reqs)).
    { f_equal. apply Forall_fmap_ext. rewrite Forall_forall in Hreqs |- *.
      intros r Hr. rewrite <- (consistentWith_closure _ _ (Hreqs r Hr)).
      pose proof (closure_self r). set_solver. }
    simpl. destruct (map !! item) as [abilities |] eqn:Hitem.
    + exists map. by rewrite (Hm _ _ Hitem).
    + destruct (collect_requirements reqs Hall {[item]} map Hm) as (map' & -> & Hm').
      simpl. rewrite Hsame, Hroot.
      eexists. split; [reflexivity |]. by apply soundMemo_insert.
Qed.

(** The inner loop keeps the later nodes that bring an ability. *)
Lemma pruneLater_sound abilities later :
  Forall (fun r => wellScored r = true) later ->
  Forall (consistentWith cl) later ->
  forall map, soundMemo cl map ->
    exists map',
      pruneLater abilities later map
      = Some (filter (fun c => ¬ closure c ⊆ abilities) later, map')
      /\ soundMemo cl map'.
Proof.
  induction later as [| curr rest IH]; intros Hw Hc map Hm.
  - by exists map.
  - apply Forall_cons in Hw as [Hw Hws]. apply Forall_cons in Hc as [Hc Hcs].
    destruct (collectAbilities_sound curr Hw Hc map Hm) as (map1 & Hcoll & Hm1).
    destruct (IH Hws Hcs map1 Hm1) as (map2 & Hrest & Hm2).
    exists map2. split; [| done].
    simpl. rewrite Hcoll. simpl. rewrite Hrest. simpl.
    rewrite <- (consistentWith_closure _ _ Hc), filter_cons.
    destruct (decide (closure curr ⊆ abilities)) as [Hsub | Hnew].
    + rewrite bool_decide_eq_true_2 by done.
      by destruct (decide (¬ closure curr ⊆ abilities)).
    + rewrite bool_decide_eq_false_2 by done.
      by destruct (decide (¬ closure curr ⊆ abilities)).
Qed.

(** *** The loops of [pruneSubsets] *)

Lemma pruneLoop_sound prune steps : forall seen nodes map,
  (length nodes <= steps)%nat ->
  Forall (prunesTo cl prune) nodes ->
  Forall (fun c => ¬ closure c ⊆ seen) nodes ->
  soundMemo cl map ->
  exists map',
    pruneLoop prune steps seen nodes map
    = Ran (Some (pruned <$> keepNovel seen nodes, map'))
    /\ soundMemo cl map'.
Proof.
  induction steps as [| steps IH]; intros seen nodes map Hlen Hgood Hnew Hm.
  - destruct nodes; [| simpl in Hlen; lia]. by exists map.
  - destruct nodes as [| node later]; [by exists map |].
    apply Forall_cons in Hgood as [(Hw & Hc & Hprune) Hgood].
    apply Forall_cons in Hnew as [Hnode Hnew].
    destruct (Hprune map Hm) as (map1 & Hp & Hm1).
    destruct (collectAbilities_sound (pruned node) (pruned_wellScored _ Hw)
                (pruned_consistentWith cl _ Hc) map1 Hm1) as (map2 & Hcoll & Hm2).
    rewrite pruned_item, <- (consistentWith_closure _ _ Hc) in Hcoll.
    assert (Hws : Forall (fun r => wellScored r = true) later).
    { eapply Forall_impl; [exact Hgood |]. by intros r (? & _). }
    assert (Hcs : Forall (consistentWith cl) later).
    { eapply Forall_impl; [exact Hgood |]. by intros r (_ & ? & _). }
    destruct (pruneLater_sound (seen ∪ closure node) later Hws Hcs map2 Hm2)
      as (map3 & Hlater & Hm3).
    destruct (IH (seen ∪ closure node)
                 (filter (fun c => ¬ closure c ⊆ seen ∪ closure node) later) map3)
      as (map4 & Hrest & Hm4); [| | | done |].
    { etrans; [apply length_filter |]. simpl in Hlen. lia. }
    { apply Forall_forall. intros r Hr. apply list_elem_of_filter in Hr as [_ Hr].
      by apply (proj1 (Forall_forall _ _) Hgood). }
    { apply Forall_forall. intros r Hr. by apply list_elem_of_filter in Hr as [Hr _]. }
    exists map4. split; [| done].
    simpl. rewrite Hp. simpl. rewrite Hcoll. simpl. rewrite Hlater. simpl.
    rewrite Hrest. simpl. do 3 f_equal.
    rewrite keepNovel_filter by done.
    by destruct (decide (closure node ⊆ seen)).
Qed.

Lemma reqHeight_requirement r item depth d w a requirements :
  r ∈ requirements ->
  (reqHeight r < reqHeight (mkReq item depth (Some (Scored d w a requirements))))%nat.
Proof.
  intros Hr. simpl. apply Nat.lt_succ_r.
  induction requirements as [| x xs IH]; [by apply elem_of_nil in Hr |].
  simpl. apply elem_of_cons in Hr as [-> | Hr]; [lia |].
  specialize (IH Hr). lia.
Qed.

(** With enough fuel [pruneSubsets] runs to the end, gives the pruned
    tree and leaves a memo that agrees with [cl]. *)
Lemma pruneSubsetsFuel_sound fuel : forall node map,
  (reqHeight node < fuel)%nat ->
  wellScored node = true -> consistentWith cl node -> soundMemo cl map ->
  exists map', pruneSubsetsFuel fuel node map = Ran (Some (pruned node, map'))
               /\ soundMemo cl map'.
Proof.
  induction fuel as [| fuel IH]; intros node map Hfuel Hw Hc Hm; [lia |].
  destruct node as [item depth [[| d w a reqs] |]]; [done | | by exists map].
  assert (Hgood : Forall (prunesTo cl (pruneSubsetsFuel fuel))
                    (sortBy byDepthDescending reqs)).
  { apply Forall_forall. intros r Hr.
    apply (proj1 (sortBy_elem byDepthDescending r reqs)) in Hr.
    pose proof (reqHeight_requirement r item depth d w a reqs Hr) as Hh.
    apply wellScored_scored in Hw. apply consistentWith_scored in Hc as [_ Hc].
    rewrite Forall_forall in Hw. rewrite Forall_forall in Hc.
    split; [by apply Hw | split; [by apply Hc |]].
    intros map0 Hm0. apply IH; [lia | by apply Hw | by apply Hc | done]. }
  destruct (pruneLoop_sound (pruneSubsetsFuel fuel)
              (length (sortBy byDepthDescending reqs)) ∅
              (sortBy byDepthDescending reqs) map) as (map' & Hloop & Hm');
    [done | done | | done |].
  { apply Forall_forall. intros r _ Hsub. pose proof (closure_self r). set_solver. }
  exists map'. split; [| done].
  rewrite pruned_kept.
  change (pruneSubsetsFuel (S fuel) (mkReq item depth (Some (Scored d w a reqs))) map)
    with (runBind (pruneLoop (pruneSubsetsFuel fuel)
                     (length (sortBy byDepthDescending reqs)) ∅
                     (sortBy byDepthDescending reqs) map)
            (fun '(nodes, map) =>
               Ran (Some (mkReq item depth (Some (Scored d w a nodes)), map)))).
  by rewrite Hloop.
Qed.

End WithClosures.

Lemma oneClosurePerItem_consistent node :
  oneClosurePerItem node -> consistentWith (closuresOf node) node.
Proof.
  intros Hone. apply Forall_forall. intros x Hx. unfold closuresOf.
  apply set_eq. intros a. rewrite elem_of_closures. split.
  - intros Ha. exists x. split; [| done]. by apply list_elem_of_filter.
  - intros (y & Hy & Ha). apply list_elem_of_filter in Hy as [Hitem Hy].
    unfold oneClosurePerItem in Hone. rewrite Forall_forall in Hone.
    specialize (Hone x Hx). rewrite Forall_forall in Hone.
    by rewrite (Hone y Hy).
Qed.

(** *** [pruneSubsets] runs to the end *)

Lemma pruneLater_sublist abilities later : forall map later' map',
  pruneLater abilities later map = Some (later', map') -> later' `sublist_of` later.
Proof.
  induction later as [| curr rest IH]; intros map later' map' Hl.
  - by injection Hl as <- _.
  - simpl in Hl. destruct (collectAbilities curr map) as [[reqs map1] |]; [| done].
    simpl in Hl.
    destruct (pruneLater abilities rest map1) as [[rest' map2] |] eqn:Hrest; [| done].
    simpl in Hl. injection Hl as <- _. specialize (IH _ _ _ Hrest).
    destruct (bool_decide (reqs ⊆ abilities));
      [by apply sublist_cons | by apply sublist_skip].
Qed.

Lemma pruneLoop_runs prune steps : forall abilities nodes map,
  (length nodes <= steps)%nat ->
  Forall (fun node => forall map, prune node map <> Stalled) nodes ->
  pruneLoop prune steps abilities nodes map <> Stalled.
Proof.
  induction steps as [| steps IH]; intros abilities nodes map Hlen Hruns.
  - destruct nodes; [done | simpl in Hlen; lia].
  - destruct nodes as [| node later]; [done |].
    apply Forall_cons in Hruns as [Hnode Hlater]. simpl.
    specialize (Hnode map).
    destruct (prune node map) as [| [[node' map1] |]]; [done | | done]. simpl.
    destruct (collectAbilities node' map1) as [[collected map2] |]; [| done]. simpl.
    destruct (pruneLater (abilities ∪ collected) later map2)
      as [[later' map3] |] eqn:Hl; [| done]. simpl.
    apply pruneLater_sublist in Hl.
    assert (Hrest : pruneLoop prune steps (abilities ∪ collected) later' map3 <> Stalled).
    { apply IH.
      - apply sublist_length in Hl. simpl in Hlen. lia.
      - apply Forall_forall. intros r Hr.
        apply (proj1 (Forall_forall _ _) Hlater). by eapply elem_of_sublist. }
    by destruct (pruneLoop prune steps (abilities ∪ collected) later' map3)
      as [| [[rest map4] |]].
Qed.

(** The fuel that [pruneSubsets] gives is enough on every tree and
    every memo. *)
Lemma pruneSubsets_runs node map : pruneSubsets node map <> Stalled.
Proof.
  unfold pruneSubsets.
  assert (Hgen : forall fuel node map,
            (reqHeight node < fuel)%nat -> pruneSubsetsFuel fuel node map <> Stalled);
    [| by apply Hgen; lia].
  clear. induction fuel as [| fuel IH]; intros node map Hfuel; [lia |].
  destruct node as [item depth [[| d w a reqs] |]]; [done | | done].
  change (pruneSubsetsFuel (S fuel) (mkReq item depth (Some (Scored d w a reqs))) map)
    with (runBind (pruneLoop (pruneSubsetsFuel fuel)
                     (length (sortBy byDepthDescending reqs)) ∅
                     (sortBy byDepthDescending reqs) map)
            (fun '(nodes, map) =>
               Ran (Some (mkReq item depth (Some (Scored d w a nodes)), map)))).
  pose proof (pruneLoop_runs (pruneSubsetsFuel fuel)
                (length (sortBy byDepthDescending reqs)) ∅
                (sortBy byDepthDescending reqs) map (Nat.le_refl _)) as Hloop.
  destruct (pruneLoop _ _ _ _ _) as [| [[nodes map'] |]]; [| done | done].
  exfalso. apply Hloop; [| done].
  apply Forall_forall. intros r Hr map0.
  apply (proj1 (sortBy_elem byDepthDescending r reqs)) in Hr.
  pose proof (reqHeight_requirement r item depth d w a reqs Hr).
  apply IH. lia.
Qed.

(** *** What [pruneSubsets] removes *)

Lemma pruneSubsets_pruned node :
  wellScored node = true -> oneClosurePerItem node ->
  exists map', pruneSubsets node ∅ = Ran (Some (pruned node, map')).
Proof.
  intros Hw Hone.
  destruct (pruneSubsetsFuel_sound (closuresOf node) (S (reqHeight node)) node ∅)
    as (map' & Hp & _); [lia | done | by apply oneClosurePerItem_consistent | done |].
  by exists map'.
Qed.

(** Where a node stands in the list, it is tested against the closures
    of all the nodes before it. *)
Lemma keepNovel_at before node after : forall seen,
  keepNovel seen (before ++ node :: after)
  = keepNovel seen before
    ++ (if decide (closure node ⊆ seen ∪ ⋃ (closure <$> before)) then [] else [node])
    ++ keepNovel (seen ∪ ⋃ (closure <$> before) ∪ closure node) after.
Proof.
  induction before as [| x before IH]; intros seen.
  - cbn. rewrite !union_empty_r_L. by destruct (decide (closure node ⊆ seen)).
  - cbn. rewrite IH.
    replace (seen ∪ closure x ∪ ⋃ (closure <$> before))
      with (seen ∪ (closure x ∪ ⋃ (closure <$> before))) by set_solver.
    by destruct (decide (closure x ⊆ seen)).
Qed.

(** C6, as stated, fails: [collectAbilities] memoises by ability.  In
    the tree made from [splitRaw] the sorted requirements of [R] are [X]
    and the second [B]; the ability [D] is under this [B] and not under
    [X], yet [pruneSubsets] removes this [B], by the closure memoised for
    the [B] under [X]. *)
Lemma pruneSubsets_memo_by_item :
  exists d w a x b nodes map',
    requirementOf splitRaw = Some (mkReq "R" 4 (Some (Scored d w a [x; b])))
    /\ sortBy byDepthDescending [x; b] = [x; b]
    /\ "D" ∈ closure b
    /\ ¬ closure b ⊆ ⋃ (closure <$> [x])
    /\ pruneSubsets (mkReq "R" 4 (Some (Scored d w a [x; b]))) ∅
       = Ran (Some (mkReq "R" 4 (Some (Scored d w a nodes)), map'))
    /\ reqItem <$> nodes = ["X"].
Proof.
  eexists _, _, _, _, _, _, _. split; [reflexivity |].
  split; [reflexivity |]. split; [| split; [| split]].
  - apply (bool_decide_unpack _). by vm_compute.
  - apply (bool_decide_eq_false_1 _). by vm_compute.
  - vm_compute. reflexivity.
  - reflexivity.
Qed.

(** C6, amended: in a tree without an initial solution in which every
    occurrence of an ability has the same closure, [pruneSubsets] sorts
    the requirements of the node by descending depth and, along the
    sorted list, removes a node if and only if its closure is a subset
    of the union of the closures of the nodes before it; so a node with
    an ability that none before it has is kept.  The kept nodes are
    pruned in the same way below, which changes neither their item nor
    their depth nor their closure. *)
Theorem pruneSubsets_drops_dominated item depth d w a
    (requirements : list Requirement) :
  wellScored (mkReq item depth (Some (Scored d w a requirements))) = true ->
  oneClosurePerItem (mkReq item depth (Some (Scored d w a requirements))) ->
  exists map',
    pruneSubsets (mkReq item depth (Some (Scored d w a requirements))) ∅
    = Ran (Some (mkReq item depth
                   (Some (Scored d w a
                            (pruned <$> keepNovel ∅
                                          (sortBy byDepthDescending requirements)))),
                 map'))
    /\ (forall before node after,
          sortBy byDepthDescending requirements = before ++ node :: after ->
          keepNovel ∅ (sortBy byDepthDescending requirements)
          = keepNovel ∅ before
            ++ (if decide (closure node ⊆ ⋃ (closure <$> before)) then [] else [node])
            ++ keepNovel (⋃ (closure <$> before) ∪ closure node) after)
    /\ (forall r, reqItem (pruned r) = reqItem r /\ reqDepth (pruned r) = reqDepth r
                  /\ closure (pruned r) = closure r).
Proof.
  intros Hw Hone.
  destruct (pruneSubsets_pruned _ Hw Hone) as (map' & Hp).
  exists map'. rewrite pruned_kept in Hp. split; [exact Hp |]. split.
  - intros before node after ->. rewrite keepNovel_at.
    by rewrite !union_empty_l_L.
  - intros r. auto using pruned_item, pruned_depth, pruned_closure.
Qed.

Example sharedTree_minified : requirementOf sharedRaw = Some sharedTree.
Proof. reflexivity. Qed.

Lemma pruneSubsets_drops_dominated_witness :
  exists map',
    pruneSubsets sharedTree ∅
    = Ran (Some (mkReq "R" 4
                   (Some (Scored 3 5 (5 # 2)
                            (pruned <$> keepNovel ∅
                               (sortBy byDepthDescending [sharedX; sharedB])))),
                 map'))
    /\ (forall before node after,
          sortBy byDepthDescending [sharedX; sharedB] = before ++ node :: after ->
          keepNovel ∅ (sortBy byDepthDescending [sharedX; sharedB])
          = keepNovel ∅ before
            ++ (if decide (closure node ⊆ ⋃ (closure <$> before)) then [] else [node])
            ++ keepNovel (⋃ (closure <$> before) ∪ closure node) after)
    /\ (forall r, reqItem (pruned r) = reqItem r /\ reqDepth (pruned r) = reqDepth r
                  /\ closure (pruned r) = closure r).
Proof.
  apply pruneSubsets_drops_dominated.
  - reflexivity.
  - apply (bool_decide_unpack (oneClosurePerItem sharedTree)). vm_compute. exact I.
Defined.

(** In [sharedTree] the [B] next to [X] has nothing that [X] has not,
    and is removed. *)
Example sharedTree_pruned :
  pruned sharedTree = mkReq "R" 4 (Some (Scored 3 5 (5 # 2) [sharedX])).
Proof. by vm_compute. Qed.

End PruneFacts.

(** ** Collapsing *)

Section CollapseFacts.
Import Minimizer.

Section SimplifiedInduction.
Variable P : Simplified -> Prop.
Hypothesis leaf_case : forall item, P (mkSimplified item None).
Hypothesis solution_case :
  forall item solution, Forall P solution -> P (mkSimplified item (Some solution)).

Lemma Simplified_nested_ind : forall node, P node.
Proof.
  fix IH 1. intros [item [solution |]]; [| apply leaf_case].
  apply solution_case.
  induction solution as [| node solution IHs]; constructor; [apply IH | exact IHs].
Qed.
End SimplifiedInduction.

Lemma chainOf_snoc items item solution :
  chainOf (items ++ [item]) solution = prependChain items (mkSimplified item solution).
Proof.
  unfold chainOf. by rewrite removelast_last, last_last.
Qed.

Lemma prependChain_snoc items item node :
  prependChain (items ++ [item]) node
  = prependChain items (mkSimplified item (Some [node])).
Proof. induction items as [| i items IH]; simpl; [done | by rewrite IH]. Qed.

Lemma collapseFrom_spec node : forall items,
  wellCollapsed (collapseFrom items node) = true
  /\ expand (collapseFrom items node) = prependChain items node.
Proof.
  induction node as [item | item solution IH] using Simplified_nested_ind;
    intros items.
  - simpl. split.
    + rewrite andb_true_r. apply negb_true_iff, bool_decide_eq_false.
      by destruct items.
    + apply chainOf_snoc.
  - assert (Hmany :
      wellCollapsed (mkCollapsed (items ++ [item])
                       (Some (List.map (collapseFrom []) solution))) = true
      /\ expand (mkCollapsed (items ++ [item])
                   (Some (List.map (collapseFrom []) solution)))
         = prependChain items (mkSimplified item (Some solution))
      \/ length solution = 1%nat).
    { destruct (decide (length solution = 1%nat)) as [? | Hlen]; [by right |].
      left. split.
      - simpl. apply andb_true_iff. split.
        + apply negb_true_iff, bool_decide_eq_false. by destruct items.
        + apply andb_true_iff. split.
          * rewrite length_map. by apply negb_true_iff, Nat.eqb_neq.
          * apply forallb_forall. intros c Hc. apply in_map_iff in Hc as (n & <- & Hn).
            apply list_elem_of_In in Hn.
            by apply (proj1 (Forall_forall _ _) IH n Hn []).
      - simpl. rewrite chainOf_snoc. do 3 f_equal.
        rewrite List.map_map. rewrite <- (List.map_id solution) at 2.
        apply map_ext_in. intros n Hn. apply list_elem_of_In in Hn.
        by apply (proj1 (Forall_forall _ _) IH n Hn []). }
    destruct solution as [| next [| other solution]].
    + destruct Hmany as [H | H]; [exact H | done].
    + apply Forall_cons in IH as [IH _]. simpl.
      destruct (IH (items ++ [item])) as [Hw He]. split; [done |].
      by rewrite He, prependChain_snoc.
    + destruct Hmany as [H | H]; [exact H | done].
Qed.

Lemma collapseSolution_wellCollapsed node :
  wellCollapsed (collapseSolution node) = true.
Proof. exact (proj1 (collapseFrom_spec node [])). Qed.

(** C10: in the tree that [collapseSolution] returns no node has a
    solution of exactly one node and every node has at least one item;
    and expanding every node back into the chain of its items, in the
    order of [items], gives the input: a merged node lists the tokens of
    the chain it merges in their order. *)
Theorem collapse_leaves_no_single_chain (node : Simplified) :
  wellCollapsed (collapseSolution node) = true
  /\ expand (collapseSolution node) = node.
Proof.
  unfold collapseSolution.
  destruct (collapseFrom_spec node []) as [Hwell Hexpand].
  split; [exact Hwell |].
  rewrite Hexpand. reflexivity.
Qed.

Example collapse_chain_example :
  collapseSolution
    (mkSimplified "A" (Some [mkSimplified "B"
       (Some [mkSimplified "C" None; mkSimplified "D" (Some [mkSimplified "E" None])])]))
  = mkCollapsed ["A"; "B"]
      (Some [mkCollapsed ["C"] None; mkCollapsed ["D"; "E"] None]).
Proof. reflexivity. Qed.

End CollapseFacts.

(** ** Rendering *)

Section RenderFacts.
Import Minimizer Renderer.

Lemma string_length_append (a b : string) :
  String.length (a ++ b)%string = (String.length a + String.length b)%nat.
Proof. induction a as [| ch a IH]; simpl; [done | by rewrite IH]. Qed.

Lemma indent_length level : String.length (indent level) = level.
Proof.
  unfold indent. induction level as [| [| level] IH]; [done | done |].
  change (replicate (S (S level)) " ") with (" " :: replicate (S level) " ").
  change (replicate (S level) " ") with (" " :: replicate level " ") in *.
  change (String.concat "" (" " :: " " :: replicate level " "))
    with (" " ++ "" ++ String.concat "" (" " :: replicate level " "))%string.
  rewrite !string_length_append, IH. reflexivity.
Qed.

(** The width added for the sub-nodes is the printed width of the names
    joined by [" < "], less the last name. *)
Lemma chainWidth_joined names :
  chainWidth names
  = (String.length (String.concat " < " names) - String.length (List.last names ""))%nat.
Proof.
  unfold chainWidth. induction names as [| a [| b names] IH]; [done | simpl; lia |].
  change (removelast (a :: b :: names)) with (a :: removelast (b :: names)).
  change (List.last (a :: b :: names) "") with (List.last (b :: names) "").
  change (String.concat " < " (a :: b :: names))
    with (a ++ " < " ++ String.concat " < " (b :: names))%string.
  assert (Hlast : (String.length (List.last (b :: names) "")
                   <= String.length (String.concat " < " (b :: names)))%nat).
  { clear. revert b. induction names as [| c names IHn]; intros b; [simpl; lia |].
    change (List.last (b :: c :: names) "") with (List.last (c :: names) "").
    change (String.concat " < " (b :: c :: names))
      with (b ++ " < " ++ String.concat " < " (c :: names))%string.
    rewrite !string_length_append. specialize (IHn c). lia. }
  destruct (removelast (b :: names) ++ [""]) as [| c rest] eqn:Hrest.
  { by destruct (removelast (b :: names)). }
  change ((a :: removelast (b :: names)) ++ [""])
    with (a :: (removelast (b :: names) ++ [""])).
  rewrite Hrest.
  change (String.concat "   " (a :: c :: rest))
    with (a ++ "   " ++ String.concat "   " (c :: rest))%string.
  rewrite !string_length_append, IH.
  change (String.length "   ") with 3%nat. change (String.length " < ") with 3%nat.
  lia.
Qed.

(** C8: a node prints as one line, the indentation, then ["^ "] if it
    is reached as a sub-node, then its names joined by [" < "] in the
    order of its items; its sub-nodes are printed after it, as
    sub-nodes, indented by the printed width of the joined names up to
    the last name (and by the 2 of ["^ "] when the node is a sub-node
    itself).  The tree [{items: [A, B], solution: [{items: [C]}]}] is
    printed as the two lines ["A < B"] and ["^ C"] under the last name;
    being a function of the tree, the text is the same at every call. *)
Theorem renderNode_layout (relics : list Relic) (indentLevel : nat) (sub : bool)
    (items : list string) (solution : option (list Collapsed)) (names : list string) :
  mapM (fun a => name <$> relicFromAbility relics a) items = Some names ->
  renderNode relics indentLevel sub (mkCollapsed items solution)
  = match solution with
    | None =>
        Some [(indent indentLevel ++ (if sub then "^ " else "")
               ++ String.concat " < " names)%string]
    | Some solution =>
        nodes ← mapM (renderNode relics
                        (indentLevel + (if sub then 2 else 0)
                         + (String.length (String.concat " < " names)
                            - String.length (List.last names "")))%nat
                        true) solution;
        Some ((indent indentLevel ++ (if sub then "^ " else "")
               ++ String.concat " < " names)%string :: concat nodes)
    end
  /\ String.length (indent indentLevel) = indentLevel
  /\ renderNode lettersABC 0 false
       (mkCollapsed ["A"; "B"] (Some [mkCollapsed ["C"] None]))
     = Some ["A < B"; "    ^ C"].
Proof.
  intros Hnames. split; [| split; [apply indent_length | reflexivity]].
  simpl. rewrite Hnames. simpl. destruct solution as [solution |]; [| done].
  rewrite chainWidth_joined. by destruct sub; rewrite ?Nat.add_0_r.
Qed.

Lemma renderNode_layout_witness :
  renderNode lettersABC 0 false (mkCollapsed ["A"; "B"] (Some [mkCollapsed ["C"] None]))
  = Some ["A < B"; "    ^ C"].
Proof.
  exact (proj2 (proj2 (renderNode_layout lettersABC 0 false ["A"; "B"]
                         (Some [mkCollapsed ["C"] None]) ["A"; "B"] eq_refl))).
Defined.

End RenderFacts.

(** ** Minimizing again *)

Section MinimizeFacts.
Import Minimizer Renderer.

(** C7, as stated, fails: a second run of the pruning can remove what
    the first has kept.  In [twoPassTree], made by [minifySolution], the
    ability [X] has two closures: it needs nothing next to [Q] and needs
    [W] under [Q].  In the first run the memo takes [X] from the
    occurrence that needs nothing, while [A] is collected before its
    requirements are sorted, so [W] is not among the abilities of [A]
    and the [W] next to [A] is kept; that occurrence of [X] is then
    spliced out.  A second run finds the [X] that needs [W] first, [W] is
    among the abilities of [A], and the [W] next to [A] is removed: the
    tree changes again, and so does what is collapsed from it. *)
Lemma second_pruning_removes_more :
  requirementOf twoPassRaw = Some twoPassTree
  /\ wellScored twoPassTree = true
  /\ ~ oneClosurePerItem twoPassTree
  /\ (exists map', pruneSubsets twoPassTree ∅ = Ran (Some (oncePruned, map')))
  /\ (exists map'', pruneSubsets oncePruned ∅ = Ran (Some (twicePruned, map'')))
  /\ twicePruned <> oncePruned
  /\ collapseSolution <$> simplifySolution twicePruned
     <> collapseSolution <$> simplifySolution oncePruned.
Proof.
  split; [reflexivity |]. split; [reflexivity |]. split.
  { intros Hone. apply (bool_decide_pack (oneClosurePerItem twoPassTree)) in Hone.
    by vm_compute in Hone. }
  split; [eexists; vm_compute; reflexivity |].
  split; [eexists; vm_compute; reflexivity |].
  split; intros Heq; vm_compute in Heq; discriminate Heq.
Qed.

Lemma simplifySolution_total node :
  wellScored node = true -> exists simplified, simplifySolution node = Some simplified.
Proof.
  induction node as [item depth | | item depth d w a reqs IH]
    using Requirement_nested_ind; intros Hw; [by eexists | done |].
  apply wellScored_scored in Hw.
  assert (Hall : exists solution, mapM simplifySolution reqs = Some solution).
  { induction reqs as [| r rs IHrs]; [by eexists |].
    apply Forall_cons in IH as [Hr IH]. apply Forall_cons in Hw as [Hwr Hw].
    destruct (Hr Hwr) as (s & Hs). destruct (IHrs IH Hw) as (ss & Hss).
    exists (s :: ss). apply mapM_Some. constructor; [done |]. by apply mapM_Some. }
  destruct Hall as (solution & Hsol). simpl. rewrite Hsol. by eexists.
Qed.

(** C7, amended: the steps of the pipeline that can be run again find
    nothing more to do.  In a tree without an initial solution in which
    every occurrence of an ability has the same closure, [pruneSubsets]
    run on the tree it has pruned gives that tree again; and the tree
    simplified and collapsed has no node with a single sub-node left to
    merge. *)
Theorem pruning_and_collapsing_are_final (node : Requirement) :
  wellScored node = true ->
  oneClosurePerItem node ->
  exists node' map' map'' simplified,
    pruneSubsets node ∅ = Ran (Some (node', map'))
    /\ pruneSubsets node' ∅ = Ran (Some (node', map''))
    /\ simplifySolution node' = Some simplified
    /\ wellCollapsed (collapseSolution simplified) = true.
Proof.
  intros Hw Hone.
  destruct (pruneSubsets_pruned node Hw Hone) as (map' & Hp).
  pose proof (pruned_wellScored node Hw) as Hw'.
  pose proof (pruned_consistentWith _ _ (oneClosurePerItem_consistent node Hone)) as Hc'.
  destruct (pruneSubsetsFuel_sound (closuresOf node) (S (reqHeight (pruned node)))
              (pruned node) ∅) as (map'' & Hp' & _); [lia | done | done | done |].
  rewrite pruned_idempotent in Hp'.
  destruct (simplifySolution_total (pruned node) Hw') as (simplified & Hs).
  exists (pruned node), map', map'', simplified.
  split; [done | split; [done | split; [done |]]].
  apply collapseSolution_wellCollapsed.
Qed.

Lemma pruning_and_collapsing_are_final_witness :
  exists node' map' map'' simplified,
    pruneSubsets sharedTree ∅ = Ran (Some (node', map'))
    /\ pruneSubsets node' ∅ = Ran (Some (node', map''))
    /\ simplifySolution node' = Some simplified
    /\ wellCollapsed (collapseSolution simplified) = true.
Proof.
  apply pruning_and_collapsing_are_final.
  - reflexivity.
  - apply (bool_decide_unpack (oneClosurePerItem sharedTree)). vm_compute. exact I.
Defined.

End MinimizeFacts.

(** * Further properties *)

(** ** Worker count *)

(** X1: from two cores on, [workerCountFromCores] asks for fewer workers
    than there are cores, so one core at least is left to the main
    thread; and a machine with more cores never gets fewer workers. *)
Theorem workerCountFromCores_leaves_a_core (cores more : Z) :
  2 <= cores -> cores <= more ->
  workerCountFromCores cores < cores
  /\ workerCountFromCores cores <= workerCountFromCores more.
Proof.
  intros Hcores Hmore. unfold workerCountFromCores.
  rewrite !floor_three_quarters.
  assert (3 * cores / 4 <= 3 * more / 4) by (apply Z.div_le_mono; lia).
  assert (3 * cores / 4 < cores) by (apply Z.div_lt_upper_bound; lia).
  lia.
Qed.

Lemma workerCountFromCores_leaves_a_core_witness :
  workerCountFromCores 2 < 2 /\ workerCountFromCores 2 <= workerCountFromCores 16.
Proof. apply (workerCountFromCores_leaves_a_core 2 16); lia. Defined.

(** ** Runs of the orchestrator *)

Section DispatchFacts.
Import Orchestrator Dispatch.

Lemma attemptNonces_app l1 l2 :
  attemptNonces (l1 ++ l2) = attemptNonces l1 ++ attemptNonces l2.
Proof. unfold attemptNonces. apply omap_app. Qed.

Lemma deliver_threw rounds events t :
  fold_left (fun h '(thread, result) =>
               match h with
               | Next st => onMessage rounds thread result st
               | Threw t => Threw t
               end) events (Threw t) = Threw t.
Proof. induction events as [| [thread r] events IH]; [done | exact IH]. Qed.

(** What holds of a state and is kept by the listener holds after every
    run that does not throw. *)
Lemma deliver_invariant (P : State -> Prop) rounds events : forall st st',
  P st ->
  (forall thread r s s', P s -> onMessage rounds thread r s = Next s' -> P s') ->
  deliver rounds events st = Next st' -> P st'.
Proof.
  induction events as [| [thread r] events IH]; intros st st' HP Hstep Hrun.
  - by injection Hrun as <-.
  - unfold deliver in Hrun. simpl in Hrun.
    destruct (onMessage rounds thread r st) as [st1 | t] eqn:Hone.
    + by apply (IH st1 st'); [eapply Hstep | |].
    + by rewrite deliver_threw in Hrun.
Qed.

Lemma onMessage_cases rounds thread r st st' :
  onMessage rounds thread r st = Next st' ->
  st' = {| doneFlag := true;
           running := <[thread := false]> (running st);
           promises := resolve thread r (promises st);
           nextNonce := nextNonce st;
           outbox := outbox st ++ [(thread, CancelMsg)] |}
      /\ doneFlag st || done r = true
  \/ st' = postMessage thread rounds None st /\ doneFlag st = false.
Proof.
  unfold onMessage. intros H.
  destruct (errorTruthy r && errorNotBoolean r) eqn:Herr.
  - exfalso. destruct r as [[[b | | n m s] |] d nn p]; simpl in *;
      try discriminate; by destruct b.
  - destruct (doneFlag st || done r) eqn:Hd.
    + left. by injection H as <-.
    + right. injection H as <-. by apply orb_false_iff in Hd as [-> _].
Qed.

Lemma start_outbox workers nonce url rounds boot :
  outbox (start workers nonce url rounds boot)
  = seq 0 workers ≫= bootstrapOf nonce url rounds boot
  /\ nextNonce (start workers nonce url rounds boot) = nonce + Z.of_nat workers
  /\ doneFlag (start workers nonce url rounds boot) = false
  /\ promises (start workers nonce url rounds boot) = replicate workers None.
Proof.
  unfold start.
  assert (Hgen : forall n a st,
            nextNonce st = nonce + Z.of_nat a ->
            let st' := fold_left (startWorker url rounds boot) (seq a n) st in
            outbox st' = outbox st ++ (seq a n ≫= bootstrapOf nonce url rounds boot)
            /\ nextNonce st' = nonce + Z.of_nat (a + n)
            /\ doneFlag st' = doneFlag st /\ promises st' = promises st).
  { induction n as [| n IH]; intros a st Hst; simpl.
    - rewrite app_nil_r, Nat.add_0_r. done.
    - destruct (IH (S a) (startWorker url rounds boot st a)) as (Ho & Hn & Hd & Hp).
      { simpl. rewrite Hst. lia. }
      rewrite Ho, Hn, Hd, Hp. simpl. rewrite Hst, <- !app_assoc. simpl.
      repeat split; try done. f_equal. lia. }
  destruct (Hgen workers 0%nat
              {| doneFlag := false; running := replicate workers true;
                 promises := replicate workers None; nextNonce := nonce;
                 outbox := [] |}) as (Ho & Hn & Hd & Hp); [simpl; lia |].
  simpl in *. by rewrite Ho, Hn, Hd, Hp.
Qed.

Lemma start_attemptNonces workers nonce url rounds boot :
  attemptNonces (outbox (start workers nonce url rounds boot))
  = seqZ nonce (Z.of_nat workers).
Proof.
  destruct (start_outbox workers nonce url rounds boot) as (-> & _).
  assert (Hgen : forall n a,
            attemptNonces (seq a n ≫= bootstrapOf nonce url rounds boot)
            = seqZ (nonce + Z.of_nat a) (Z.of_nat n)).
  { induction n as [| n IH]; intros a; [done |].
    change (seq a (S n)) with (a :: seq (S a) n).
    rewrite bind_cons, attemptNonces_app, (IH (S a)), (seqZ_cons _ (Z.of_nat (S n)))
      by lia.
    simpl. f_equal. f_equal; lia. }
  rewrite (Hgen workers 0%nat). f_equal. lia.
Qed.

(** The counter moves by one at most with each reply. *)
Lemma deliver_counter rounds events : forall st st',
  deliver rounds events st = Next st' ->
  nextNonce st <= nextNonce st' <= nextNonce st + Z.of_nat (length events).
Proof.
  induction events as [| [thread r] events IH]; intros st st' Hrun.
  - injection Hrun as <-. cbn [length]. lia.
  - unfold deliver in Hrun. cbn [fold_left] in Hrun.
    destruct (onMessage rounds thread r st) as [st1 | t] eqn:Hone;
      [| by rewrite deliver_threw in Hrun].
    specialize (IH st1 st' Hrun).
    apply onMessage_cases in Hone as [[-> _] | [-> _]];
      cbn [nextNonce postMessage length] in *; lia.
Qed.

(** X2: the counter of the nonces is a double, on which [nonce++] is
    exact between [- 2 ^ 53] and [2 ^ 53].  In a run of [randomizeRelics]
    in which the nonce given, the number of workers and the number of
    replies keep it there, the nonces of the attempts posted, in the
    order of posting, are the consecutive numbers from the nonce given,
    one for each attempt and each in that range: no nonce is sent twice
    or left out, and each worker starts with the url and then a bootstrap
    attempt whose nonce is the nonce given plus the index of the
    worker. *)
Theorem nonces_are_consecutive workers nonce url rounds boot events st :
  - 2 ^ 53 <= nonce ->
  nonce + Z.of_nat workers + Z.of_nat (length events) <= 2 ^ 53 ->
  deliver rounds events (start workers nonce url rounds boot) = Next st ->
  attemptNonces (outbox st) = seqZ nonce (nextNonce st - nonce)
  /\ NoDup (attemptNonces (outbox st))
  /\ Forall (fun n => - 2 ^ 53 <= n < 2 ^ 53) (attemptNonces (outbox st))
  /\ nonce + Z.of_nat workers <= nextNonce st <= 2 ^ 53
  /\ seq 0 workers ≫= bootstrapOf nonce url rounds boot `prefix_of` outbox st.
Proof.
  intros Hlow Hhigh Hrun.
  pose proof (start_outbox workers nonce url rounds boot) as (Ho & Hn & _ & _).
  pose proof (deliver_counter _ _ _ _ Hrun) as Hcounter. rewrite Hn in Hcounter.
  assert (Hinv : attemptNonces (outbox st) = seqZ nonce (nextNonce st - nonce)
                 /\ nonce + Z.of_nat workers <= nextNonce st
                 /\ seq 0 workers ≫= bootstrapOf nonce url rounds boot
                    `prefix_of` outbox st).
  { apply (deliver_invariant
             (fun s => attemptNonces (outbox s) = seqZ nonce (nextNonce s - nonce)
                       /\ nonce + Z.of_nat workers <= nextNonce s
                       /\ seq 0 workers ≫= bootstrapOf nonce url rounds boot
                          `prefix_of` outbox s)
             rounds events (start workers nonce url rounds boot) st); [| | done].
    - rewrite start_attemptNonces, Hn, Ho. repeat split; [f_equal; lia | lia | done].
    - intros thread r s s' (Hs & Hle & Hpre) Hstep.
      apply onMessage_cases in Hstep as [[-> _] | [-> _]]; simpl.
      + rewrite attemptNonces_app, app_nil_r.
        repeat split; [done | done | by apply prefix_app_r].
      + rewrite attemptNonces_app, Hs. simpl.
        repeat split; [| lia | by apply prefix_app_r].
        replace (nextNonce s + 1 - nonce) with (Z.succ (nextNonce s - nonce)) by lia.
        rewrite <- (Z2Nat.id (nextNonce s - nonce)) at 2 by lia.
        rewrite <- Nat2Z.inj_succ, seqZ_S, Z2Nat.id by lia.
        do 2 f_equal. lia. }
  destruct Hinv as (Hs & Hle & Hpre).
  split; [done |]. split; [rewrite Hs; apply NoDup_seqZ |].
  split; [| split; [lia | done]].
  rewrite Hs. apply Forall_forall. intros n Hn'%elem_of_seqZ. lia.
Qed.

Lemma nonces_are_consecutive_witness :
  exists st,
    deliver 1 [(2%nat, notDone); (2%nat, success 5 "five"); (0%nat, success 3 "three");
               (1%nat, notDone)] threeWorkers = Next st
    /\ attemptNonces (outbox st) = seqZ 3 (nextNonce st - 3)
    /\ NoDup (attemptNonces (outbox st))
    /\ Forall (fun n => - 2 ^ 53 <= n < 2 ^ 53) (attemptNonces (outbox st))
    /\ 3 + Z.of_nat 3 <= nextNonce st <= 2 ^ 53
    /\ seq 0 3 ≫= bootstrapOf 3 "worker.js" 1 (mkBootstrap "r" "1.0" "seed" "")
       `prefix_of` outbox st.
Proof.
  eexists. split; [vm_compute; reflexivity |].
  apply (nonces_are_consecutive 3 3 "worker.js" 1 (mkBootstrap "r" "1.0" "seed" "")
           [(2%nat, notDone); (2%nat, success 5 "five"); (0%nat, success 3 "three");
            (1%nat, notDone)]).
  - by vm_compute.
  - by vm_compute.
  - vm_compute. reflexivity.
Defined.

(** X3: once a success was seen, whatever replies arrive and from
    whichever worker, [done] stays set, no further attempt is posted and
    the nonce counter stands still: all that is posted from then on are
    cancellations, one to the sender of each reply. *)
Theorem no_attempt_after_done rounds events (st st' : State) :
  doneFlag st = true ->
  deliver rounds events st = Next st' ->
  doneFlag st' = true
  /\ nextNonce st' = nextNonce st
  /\ outbox st' = outbox st ++ ((fun e => (e.1, CancelMsg)) <$> events).
Proof.
  revert st. induction events as [| [thread r] events IH]; intros st Hdone Hrun.
  - injection Hrun as <-. by rewrite app_nil_r.
  - unfold deliver in Hrun. simpl in Hrun.
    destruct (onMessage rounds thread r st) as [st1 | t] eqn:Hone;
      [| by rewrite deliver_threw in Hrun].
    apply onMessage_cases in Hone as [[-> _] | [_ Hnot]]; [| congruence].
    apply IH in Hrun as (Hd & Hn & Ho); [| done].
    rewrite Hd, Hn, Ho. simpl. by rewrite <- app_assoc.
Qed.

Lemma no_attempt_after_done_witness :
  exists st',
    deliver 1 [(1%nat, softError); (0%nat, softError)] firstSuccessState = Next st'
    /\ doneFlag st' = true
    /\ nextNonce st' = nextNonce firstSuccessState
    /\ outbox st' = outbox firstSuccessState
                    ++ ((fun e => (e.1, CancelMsg))
                          <$> [(1%nat, softError); (0%nat, softError)]).
Proof.
  eexists. split; [reflexivity |].
  apply (no_attempt_after_done 1 [(1%nat, softError); (0%nat, softError)]
           firstSuccessState); reflexivity.
Defined.

(** X4: a promise that is settled keeps its value through every later
    reply, from whichever worker: a later reply of a worker never
    replaces the result that was collected for it. *)
Theorem settled_promise_is_kept rounds events (st st' : State) (j : nat)
    (r : WorkerResult) :
  promises st !! j = Some (Some r) ->
  deliver rounds events st = Next st' ->
  promises st' !! j = Some (Some r).
Proof.
  intros Hj Hrun.
  apply (deliver_invariant (fun s => promises s !! j = Some (Some r))
           rounds events st st'); [done | | done].
  intros thread r' s s' Hs Hstep.
  apply onMessage_cases in Hstep as [[-> _] | [-> _]]; simpl; [| done].
  unfold resolve. destruct (promises s !! thread) as [[r0 |] |] eqn:Ht; [done | | done].
  destruct (decide (thread = j)) as [-> | Hne]; [congruence |].
  by rewrite list_lookup_insert_ne.
Qed.

Lemma settled_promise_is_kept_witness :
  exists st',
    deliver 1 [(0%nat, success 9 "again"); (1%nat, softError)] firstSuccessState
    = Next st'
    /\ promises st' !! 0%nat = Some (Some (success 2 "late")).
Proof.
  eexists. split; [reflexivity |].
  apply (settled_promise_is_kept 1 [(0%nat, success 9 "again"); (1%nat, softError)]
           firstSuccessState); reflexivity.
Defined.

End DispatchFacts.

(** ** Hexadecimal text *)

Section HexFacts.
Import Hex.

Lemma string_app_length (a b : string) :
  String.length (a ++ b)%string = (String.length a + String.length b)%nat.
Proof. induction a as [| ch a IH]; simpl; [done | by rewrite IH]. Qed.

Lemma bytes_checked (P : Z -> bool) :
  forallb P (seqZ 0 256) = true -> forall b, 0 <= b < 256 -> P b = true.
Proof.
  intros Hall b Hb. rewrite forallb_forall in Hall. apply Hall.
  apply list_elem_of_In, elem_of_seqZ. lia.
Qed.

Lemma byte_two_digits b :
  0 <= b < 256 -> sliceLast 2 ("00" ++ toString16 b)%string = twoDigits b.
Proof.
  intros Hb.
  apply (bytes_checked
           (fun b => bool_decide (sliceLast 2 ("00" ++ toString16 b)%string
                                  = twoDigits b))) in Hb;
    [by apply bool_decide_eq_true in Hb | by vm_compute].
Qed.

Lemma byte_digits_hex b :
  0 <= b < 256 ->
  isLowerHex (hexDigit (b / 16)) = true /\ isLowerHex (hexDigit (b mod 16)) = true
  /\ parseInt16 (twoDigits b) = Some b.
Proof.
  intros Hb.
  apply (bytes_checked
           (fun b => isLowerHex (hexDigit (b / 16)) && isLowerHex (hexDigit (b mod 16))
                     && bool_decide (parseInt16 (twoDigits b) = Some b))) in Hb;
    [| by vm_compute].
  apply andb_true_iff in Hb as [Hb Hp]. apply andb_true_iff in Hb as [Hh Hl].
  by apply bool_decide_eq_true in Hp.
Qed.

Lemma hexPairs_two a b rest :
  isLowerHex a = true -> isLowerHex b = true ->
  hexPairs (String a (String b "") ++ rest)%string
  = String a (String b "") :: hexPairs rest.
Proof. intros Ha Hb. simpl. by rewrite Ha, Hb. Qed.

Lemma bufToHex_cons b buf :
  0 <= b < 256 -> bufToHex (b :: buf) = (twoDigits b ++ bufToHex buf)%string.
Proof.
  intros Hb. unfold bufToHex. rewrite map_cons, (byte_two_digits b Hb).
  destruct (List.map _ buf) as [| x xs] eqn:Hmap; [done |].
  reflexivity.
Qed.

(** X5: [bufToHex] writes two characters for each byte, and the key it
    makes for a buffer that is not empty is read back by [entityData],
    pair by pair, as the bytes of the buffer; the key of an empty buffer
    is the empty text, in which [match] finds nothing. *)
Theorem bufToHex_read_back (buf : list Z) :
  Forall (fun b => 0 <= b < 256) buf ->
  String.length (bufToHex buf) = (2 * length buf)%nat
  /\ (buf <> [] -> keyBytes (bufToHex buf) = Some (Some <$> buf))
  /\ keyBytes (bufToHex []) = None.
Proof.
  intros Hbuf. split; [| split; [| done]].
  - induction Hbuf as [| b buf Hb Hbuf IH]; [done |].
    rewrite (bufToHex_cons b buf Hb), string_app_length, IH. simpl. lia.
  - assert (Hpairs : hexPairs (bufToHex buf) = twoDigits <$> buf).
    { induction Hbuf as [| b buf Hb Hbuf IH]; [done |].
      rewrite (bufToHex_cons b buf Hb). destruct (byte_digits_hex b Hb) as (Hh & Hl & _).
      rewrite fmap_cons, <- IH.
      by apply hexPairs_two. }
    intros Hne. unfold keyBytes. rewrite Hpairs.
    destruct buf as [| b buf]; [done |]. rewrite fmap_cons. f_equal.
    change (List.map parseInt16 (twoDigits b :: (twoDigits <$> buf)))
      with (parseInt16 <$> (twoDigits <$> (b :: buf))).
    rewrite <- list_fmap_compose. apply Forall_fmap_ext.
    eapply Forall_impl; [exact Hbuf |]. intros x Hx.
    destruct (byte_digits_hex x Hx) as (_ & _ & Hp). exact Hp.
Qed.

Lemma bufToHex_read_back_witness :
  String.length (bufToHex [0; 11; 255; 16]) = (2 * length [0; 11; 255; 16])%nat
  /\ ([0; 11; 255; 16] <> [] ->
      keyBytes (bufToHex [0; 11; 255; 16]) = Some (Some <$> [0; 11; 255; 16]))
  /\ keyBytes (bufToHex []) = None.
Proof.
  apply bufToHex_read_back. repeat constructor; lia.
Defined.

(** *** [numToHex] *)























End HexFacts.

(** ** The checked writer *)

Section PatchFacts.
Import Patch.

Lemma checkAddressRange_spec address :
  checkAddressRange address = Some tt <-> 0xffff <= address <= 0xffffffff.
Proof.
  unfold checkAddressRange.
  destruct (Z.ltb_spec address 0xffff), (Z.ltb_spec 0xffffffff address);
    simpl; split; (done || lia).
Qed.

Lemma byte_mask val : Z.land val 0xff = val mod 256.
Proof. exact (Z.land_ones val 8 ltac:(lia)). Qed.

Lemma ushr_byte val n :
  0 <= n -> Z.land (ushr val n) 0xff = (val mod 2 ^ 32) / 2 ^ n mod 256.
Proof. intros Hn. unfold ushr. by rewrite byte_mask, Z.shiftr_div_pow2. Qed.

(** X8: [writeChar], [writeShort] and [writeWord] at an address in range
    put on record one, two and four bytes from that address on, lowest
    byte first, that write the value modulo [2 ^ 8], [2 ^ 16] and
    [2 ^ 32], and give back the address after the last byte. *)
Theorem written_value_reads_back (self : Checked) (address val : Z) :
  0xffff <= address <= 0xffffffff ->
  (exists self' bytes,
      writeChar self address val = Some (self', address + 1)
      /\ writes self' = record (writes self) address bytes
      /\ length bytes = 1%nat /\ Forall (fun b => 0 <= b < 256) bytes
      /\ littleEndian bytes = val mod 2 ^ 8)
  /\ (exists self' bytes,
      writeShort self address val = Some (self', address + 2)
      /\ writes self' = record (writes self) address bytes
      /\ length bytes = 2%nat /\ Forall (fun b => 0 <= b < 256) bytes
      /\ littleEndian bytes = val mod 2 ^ 16)
  /\ (exists self' bytes,
      writeWord self address val = Some (self', address + 4)
      /\ writes self' = record (writes self) address bytes
      /\ length bytes = 4%nat /\ Forall (fun b => 0 <= b < 256) bytes
      /\ littleEndian bytes = val mod 2 ^ 32).
Proof.
  intros Hrange. apply checkAddressRange_spec in Hrange.
  unfold writeChar, writeShort, writeWord. rewrite Hrange.
  cbn [mbind option_bind].
  split; [| split]; eexists _, _;
    (split; [reflexivity |]); (split; [reflexivity |]); (split; [reflexivity |]).
  - split; [| cbn [littleEndian]; rewrite byte_mask; change (2 ^ 8) with 256; lia].
    repeat constructor; rewrite byte_mask; apply Z.mod_pos_bound; lia.
  - split; [| cbn [littleEndian]; rewrite byte_mask, ushr_byte by lia].
    + repeat constructor; rewrite ?byte_mask, ?ushr_byte by lia;
        apply Z.mod_pos_bound; lia.
    + change (2 ^ 32) with 4294967296. change (2 ^ 16) with 65536.
      change (2 ^ 8) with 256. Z.div_mod_to_equations. lia.
  - split; [| cbn [littleEndian]; rewrite byte_mask, !ushr_byte by lia].
    + repeat constructor; rewrite ?byte_mask, ?ushr_byte by lia;
        apply Z.mod_pos_bound; lia.
    + change (2 ^ 32) with 4294967296. change (2 ^ 24) with 16777216.
      change (2 ^ 16) with 65536. change (2 ^ 8) with 256.
      Z.div_mod_to_equations. lia.
Qed.

Lemma written_value_reads_back_witness :
  exists self' bytes,
    writeWord (checked NoFile None) 0x043930c4 (-2) = Some (self', 0x043930c4 + 4)
    /\ writes self' = record (writes (checked NoFile None)) 0x043930c4 bytes
    /\ length bytes = 4%nat /\ Forall (fun b => 0 <= b < 256) bytes
    /\ littleEndian bytes = (-2) mod 2 ^ 32.
Proof.
  apply (written_value_reads_back (checked NoFile None) 0x043930c4 (-2)). lia.
Defined.

(** The byte that [apply] writes at a name. *)
Lemma lookup_record w bytes : forall address k,
  record w address bytes !! k
  = if decide (address <= k < address + Z.of_nat (length bytes))
    then bytes !! Z.to_nat (k - address) else w !! k.
Proof.
  revert w. induction bytes as [| b bytes IH]; intros w address k.
  - cbn [record length]. case_decide; [lia | done].
  - cbn [record]. rewrite IH. cbn [length].
    destruct (decide (k = address)) as [-> | Hne].
    + rewrite decide_False by lia. rewrite decide_True by lia.
      by rewrite lookup_insert_eq, Z.sub_diag.
    + rewrite lookup_insert_ne by done. repeat case_decide; try lia; [| done].
      replace (Z.to_nat (k - address)) with (S (Z.to_nat (k - (address + 1)))) by lia.
      done.
Qed.

Lemma apply_in_range (other : gmap Z Z) names : forall self,
  Forall (fun a => 0xffff <= a <= 0xffffffff) names ->
  apply names self other
  = Wrote (mkChecked
      (foldl (fun f a => store f a [Z.land (default 0 (other !! a)) 0xff])
         (file self) names)
      (foldl (fun w a => <[a := Z.land (default 0 (other !! a)) 0xff]> w)
         (writes self) names)).
Proof.
  induction names as [| a names IH]; intros self Hall.
  - by destruct self.
  - apply Forall_cons in Hall as [Ha Hall]. cbn [apply foldl].
    unfold writeChar. rewrite (proj2 (checkAddressRange_spec a) Ha).
    cbn [mbind option_bind]. by rewrite (IH _ Hall).
Qed.

Lemma apply_out_of_range (other : gmap Z Z) names : forall self,
  Exists (fun a => ~ 0xffff <= a <= 0xffffffff) names ->
  exists self', apply names self other = Threw self'.
Proof.
  induction names as [| a names IH]; intros self Hex.
  - by apply Exists_nil in Hex.
  - cbn [apply]. unfold writeChar.
    destruct (checkAddressRange a) as [[] |] eqn:Hcheck; [| by eexists].
    cbn [mbind option_bind]. apply IH.
    apply Exists_cons in Hex as [Hbad | Hex]; [| done].
    by apply checkAddressRange_spec in Hcheck.
Qed.

Lemma lookup_foldl_insert (v : Z -> Z) names : forall (w : gmap Z Z) k,
  foldl (fun w a => <[a := v a]> w) w names !! k
  = if decide (k ∈ names) then Some (v k) else w !! k.
Proof.
  induction names as [| a names IH]; intros w k; cbn [foldl].
  - by rewrite decide_False by apply not_elem_of_nil.
  - rewrite IH. destruct (decide (k ∈ names)) as [Hin | Hout].
    + by rewrite decide_True by by right.
    + destruct (decide (k = a)) as [-> | Hne].
      * rewrite lookup_insert_eq. by rewrite decide_True by by left.
      * rewrite lookup_insert_ne by done.
        rewrite decide_False; [done |]. by intros [-> | Hin]%elem_of_cons.
Qed.

Lemma lookup_foldl_set (v : Z -> Z) names : forall (buf : list Z) (i : nat),
  Forall (fun a => 0 <= a) names ->
  foldl (fun buf a => <[Z.to_nat a := v a]> buf) buf names !! i
  = if decide (Z.of_nat i ∈ names) then (fun _ => v (Z.of_nat i)) <$> buf !! i else buf !! i.
Proof.
  induction names as [| a names IH]; intros buf i Hall; cbn [foldl].
  - by rewrite decide_False by apply not_elem_of_nil.
  - apply Forall_cons in Hall as [Ha Hall]. rewrite (IH _ _ Hall).
    destruct (decide (Z.of_nat i = a)) as [<- | Hne].
    + rewrite Nat2Z.id. destruct (decide (Z.of_nat i ∈ names)) as [Hin | Hout].
      * rewrite decide_True by by left.
        destruct (decide (i < length buf)%nat) as [Hlt | Hge].
        -- rewrite list_lookup_insert_eq by done.
           by destruct (lookup_lt_is_Some_2 buf i Hlt) as [x ->].
        -- rewrite list_insert_ge by lia. done.
      * rewrite decide_True by by left.
        destruct (decide (i < length buf)%nat) as [Hlt | Hge].
        -- rewrite list_lookup_insert_eq by done.
           by destruct (lookup_lt_is_Some_2 buf i Hlt) as [x ->].
        -- rewrite list_insert_ge by lia.
           by rewrite (lookup_ge_None_2 buf i) by lia.
    + rewrite list_lookup_insert_ne by lia.
      destruct (decide (Z.of_nat i ∈ names)) as [Hin | Hout].
      * by rewrite decide_True by by right.
      * rewrite decide_False; [done |]. by intros [Heq | Hin]%elem_of_cons.
Qed.

Lemma foldl_store_buffer (v : Z -> Z) names : forall buf,
  foldl (fun f a => store f a [v a]) (Buffer buf) names
  = Buffer (foldl (fun buf a => <[Z.to_nat a := v a]> buf) buf names).
Proof. induction names as [| a names IH]; intros buf; cbn [foldl]; [done |]. apply IH. Qed.

Lemma foldl_set_length (v : Z -> Z) names : forall buf : list Z,
  length (foldl (fun buf a => <[Z.to_nat a := v a]> buf) buf names) = length buf.
Proof.
  induction names as [| a names IH]; intros buf; cbn [foldl]; [done |].
  by rewrite IH, length_insert.
Qed.

Lemma elem_of_names (other : gmap Z Z) names k :
  names ≡ₚ (map_to_list other).*1 -> k ∈ names <-> is_Some (other !! k).
Proof.
  intros Hnames. rewrite Hnames, list_elem_of_fmap. split.
  - intros ([k' v] & -> & Hin). apply elem_of_map_to_list in Hin. by exists v.
  - intros [v Hv]. exists (k, v). split; [done |]. by apply elem_of_map_to_list.
Qed.

(** X9: [apply] replays the record of another writer byte by byte.  When
    every address on that record is in range, it ends without error and
    the record of this writer is then its own, overlaid with the other
    one, each value masked to a byte; when one address is out of range,
    it throws.  Neither depends on the order of the names. *)
Theorem apply_replays_record (names : list Z) (self : Checked) (other : gmap Z Z) :
  names ≡ₚ (map_to_list other).*1 ->
  (map_Forall (fun a _ => 0xffff <= a <= 0xffffffff) other ->
   exists self',
     apply names self other = Wrote self'
     /\ writes self' = ((fun v => v mod 256) <$> other) ∪ writes self)
  /\ (~ map_Forall (fun a _ => 0xffff <= a <= 0xffffffff) other ->
      exists self', apply names self other = Threw self').
Proof.
  intros Hnames. split.
  - intros Hall. rewrite apply_in_range.
    + eexists. split; [reflexivity |]. cbn [writes]. apply map_eq. intros k.
      rewrite (lookup_foldl_insert (fun a => Z.land (default 0 (other !! a)) 0xff)).
      rewrite lookup_union, lookup_fmap.
      destruct (other !! k) as [v |] eqn:Hk.
      * rewrite decide_True by (apply (elem_of_names other); [done | by eexists]).
        cbn. rewrite byte_mask. by destruct (writes self !! k).
      * rewrite decide_False.
        -- cbn. by destruct (writes self !! k).
        -- intros [v Hv]%(elem_of_names other); [| done]. congruence.
    + apply Forall_forall. intros a [v Hv]%(elem_of_names other); [| done].
      exact (Hall a v Hv).
  - intros Hbad. apply apply_out_of_range. apply Exists_exists.
    apply (map_not_Forall _) in Hbad as (a & v & Hv & Ha).
    exists a. split; [| done]. apply (elem_of_names other); [done | by eexists].
Qed.

Lemma apply_replays_record_witness :
  exists self',
    apply [70000; 70001] (checked NoFile None) {[70001 := 300; 70000 := 5]}
    = Wrote self'
    /\ writes self'
       = ((fun v => v mod 256) <$> {[70001 := 300; 70000 := 5]})
         ∪ writes (checked NoFile None).
Proof.
  destruct (apply_replays_record [70000; 70001] (checked NoFile None)
              {[70001 := 300; 70000 := 5]}) as [Hwrote _].
  - vm_compute. apply perm_swap.
  - apply Hwrote. apply (bool_decide_unpack _). by vm_compute.
Defined.

(** X10: on a writer whose file is a buffer, [apply] of a record with
    every address in range changes the bytes of the buffer at the
    addresses on record, each to the value there masked to a byte, and no
    other byte; the buffer keeps its length, an address past its end
    being left out. *)
Theorem apply_patches_buffer (names : list Z) (self : Checked) (other : gmap Z Z)
    (buf : list Z) :
  names ≡ₚ (map_to_list other).*1 ->
  map_Forall (fun a _ => 0xffff <= a <= 0xffffffff) other ->
  file self = Buffer buf ->
  exists self' buf',
    apply names self other = Wrote self'
    /\ file self' = Buffer buf'
    /\ length buf' = length buf
    /\ forall i : nat,
         buf' !! i = match other !! Z.of_nat i with
                     | Some v => (fun _ => v mod 256) <$> buf !! i
                     | None => buf !! i
                     end.
Proof.
  intros Hnames Hall Hfile.
  assert (Hrange : Forall (fun a => 0xffff <= a <= 0xffffffff) names).
  { apply Forall_forall. intros a [v Hv]%(elem_of_names other); [| done].
    exact (Hall a v Hv). }
  rewrite (apply_in_range other names self Hrange), Hfile.
  rewrite (foldl_store_buffer (fun a => Z.land (default 0 (other !! a)) 0xff)).
  eexists _, _. split; [reflexivity |]. split; [reflexivity |].
  split; [apply foldl_set_length |]. intros i.
  rewrite (lookup_foldl_set (fun a => Z.land (default 0 (other !! a)) 0xff)).
  - destruct (other !! Z.of_nat i) as [v |] eqn:Hi.
    + rewrite decide_True by (apply (elem_of_names other); [done | by eexists]).
      cbn [default]. by rewrite byte_mask.
    + rewrite decide_False; [done |].
      intros [v Hv]%(elem_of_names other); [| done]. congruence.
  - eapply Forall_impl; [exact Hrange |]. intros a Ha. cbv beta in Ha. lia.
Qed.

Lemma apply_patches_buffer_witness :
  exists self' buf',
    apply [70000; 70001] (mkChecked (Buffer (replicate (Z.to_nat 70001) 9)) ∅)
      {[70001 := 300; 70000 := 5]} = Wrote self'
    /\ file self' = Buffer buf'
    /\ length buf' = length (replicate (Z.to_nat 70001) 9)
    /\ forall i : nat,
         buf' !! i
         = match ({[70001 := 300; 70000 := 5]} : gmap Z Z) !! Z.of_nat i with
           | Some v => (fun _ => v mod 256) <$> replicate (Z.to_nat 70001) 9 !! i
           | None => replicate (Z.to_nat 70001) 9 !! i
           end.
Proof.
  apply (apply_patches_buffer [70000; 70001]
           (mkChecked (Buffer (replicate (Z.to_nat 70001) 9)) ∅)
           {[70001 := 300; 70000 := 5]} (replicate (Z.to_nat 70001) 9)).
  - vm_compute. apply perm_swap.
  - apply (bool_decide_unpack _). by vm_compute.
  - reflexivity.
Defined.

End PatchFacts.

(** ** The text of the seed in the menu *)

Section MenuTextFacts.
Import Patch MenuText.

Lemma map_table c val :
  map c = Some val ->
  0 <= val < 65536 /\ 0 < val / 256 < 256 /\ 0 < val mod 256 < 256.
Proof.
  assert (Htable : Forall (fun entry => 0 <= entry.2 < 65536
                             /\ 0 < entry.2 / 256 < 256
                             /\ 0 < entry.2 mod 256 < 256) table).
  { apply (bool_decide_unpack _). by vm_compute. }
  unfold map. destruct (List.find _ table) as [entry |] eqn:Hfind; [| done].
  intros [= <-]. apply find_some in Hfind as [Hin _].
  rewrite Forall_forall in Htable. by apply Htable, list_elem_of_In.
Qed.

Lemma glyph_bytes c : Forall (fun b => 0 < b < 256) (glyph c).
Proof.
  unfold glyph. destruct (map c) as [val |] eqn:Hmap.
  - destruct (map_table c val Hmap) as (_ & Hhi & Hlo).
    apply Forall_cons_2; [done |]. apply Forall_cons_2; [done |]. apply Forall_nil_2.
  - destruct (isLetterOrSpace c) eqn:Hc; [| apply Forall_nil_2].
    apply Forall_cons_2; [| apply Forall_nil_2]. unfold isLetterOrSpace in Hc. lia.
Qed.

Lemma glyphs_bytes text : Forall (fun b => 0 < b < 256) (glyphs text).
Proof.
  unfold glyphs. induction text as [| c text IH]; [constructor |].
  rewrite bind_cons. apply Forall_app. split; [apply glyph_bytes | done].
Qed.

Lemma writeChar_masked data address val :
  writeChar data address (Z.land val 0xff) = writeChar data address val.
Proof.
  unfold writeChar. by rewrite !byte_mask, Z.mod_mod by lia.
Qed.

Lemma writeChar_address data address val data' next :
  writeChar data address val = Some (data', next) -> next = address + 1.
Proof.
  unfold writeChar. destruct (checkAddressRange address); [| done].
  cbn [mbind option_bind]. by intros [= _ <-].
Qed.

(** The loop writes the bytes of the characters it takes, in order. *)
Lemma writeMenuTextFrom_glyphs range text : forall a,
  exists k,
    (k <= length text)%nat
    /\ (forall data,
          writeMenuTextFrom a data text range
          = writeChars data (Range.start range + a) (glyphs (take k text)))
    /\ (glyphs (take k text) = []
        \/ a + Z.of_nat (length (glyphs (take k text))) <= Range.length range)
    /\ (k = length text
        \/ Range.length range - 1 <= a + Z.of_nat (length (glyphs (take k text)))).
Proof.
  induction text as [| c rest IH]; intros a.
  { exists 0%nat. split; [done |]. split; [done |]. split; by left. }
  cbn [writeMenuTextFrom].
  destruct (Z.ltb_spec a (Range.length range)) as [Ha | Ha]; cycle 1.
  { exists 0%nat. cbn [length]. split; [lia |]. split; [done |].
    split; [by left | right; cbn; lia]. }
  destruct (map c) as [val |] eqn:Hmap.
  - destruct (Z.ltb_spec (a + 1) (Range.length range)) as [Hb | Hb]; cycle 1.
    { exists 0%nat. cbn [length]. split; [lia |]. split; [done |].
      split; [by left | right; cbn; lia]. }
    destruct (map_table c val Hmap) as (Hval & _ & _).
    assert (Hglyph : glyph c = [val / 256; val mod 256])
      by (unfold glyph; by rewrite Hmap).
    destruct (IH (a + 2)) as (k & Hk & Hrun & Hfit & Hfull).
    exists (S k). cbn [length take]. split; [lia |].
    unfold glyphs in *. rewrite bind_cons, Hglyph. cbn [app writeChars length].
    split; [| split; [right | destruct Hfull as [-> | Hfull]; [by left | right]]].
    + intros data.
      assert (Hhi : writeChar data (Range.start range + a) (ushr val 8)
                    = writeChar data (Range.start range + a) (val / 256)).
      { unfold ushr. rewrite Z.mod_small, Z.shiftr_div_pow2 by lia. done. }
      rewrite Hhi.
      destruct (writeChar data (Range.start range + a) (val / 256))
        as [[data1 next1] |] eqn:H1; [| done].
      apply writeChar_address in H1 as Hnext1. subst next1.
      cbn [mbind option_bind]. rewrite byte_mask.
      replace (Range.start range + (a + 1)) with (Range.start range + a + 1) by lia.
      destruct (writeChar data1 (Range.start range + a + 1) (val mod 256))
        as [[data2 next2] |] eqn:H2; [| done].
      apply writeChar_address in H2 as Hnext2. subst next2.
      cbn [mbind option_bind]. rewrite Hrun. f_equal. lia.
    + destruct Hfit as [-> | Hfit]; cbn [length]; lia.
    + lia.
  - destruct (isLetterOrSpace c) eqn:Hc.
    + assert (Hglyph : glyph c = [c]) by (unfold glyph; by rewrite Hmap, Hc).
      destruct (IH (a + 1)) as (k & Hk & Hrun & Hfit & Hfull).
      exists (S k). cbn [length take]. split; [lia |].
      unfold glyphs in *. rewrite bind_cons, Hglyph. cbn [app writeChars length].
      split; [| split; [right | destruct Hfull as [-> | Hfull]; [by left | right]]].
      * intros data.
        destruct (writeChar data (Range.start range + a) c)
          as [[data1 next1] |] eqn:H1; [| done].
        apply writeChar_address in H1 as Hnext1. subst next1.
        cbn [mbind option_bind]. rewrite Hrun. f_equal. lia.
      * destruct Hfit as [-> | Hfit]; cbn [length]; lia.
      * lia.
    + assert (Hglyph : glyph c = []) by (unfold glyph; by rewrite Hmap, Hc).
      destruct (IH a) as (k & Hk & Hrun & Hfit & Hfull).
      exists (S k). cbn [length take]. split; [lia |].
      unfold glyphs in *. rewrite bind_cons, Hglyph. cbn [app].
      split; [done |]. split; [done |].
      destruct Hfull as [-> | Hfull]; [by left | by right].
Qed.

(** X11: [writeMenuText] writes whole characters only.  What it writes
    is what [writeChar] writes, from the start of the range on, for the
    bytes of the first [k] characters of the text: never more bytes than
    the range has, none of them zero, and all the text unless the range is
    full or one byte short of it. *)
Theorem writeMenuText_whole_characters (text : list Z) (range : Range.t) :
  exists k,
    (k <= length text)%nat
    /\ (forall data,
          writeMenuText data text range
          = writeChars data (Range.start range) (glyphs (take k text)))
    /\ Z.of_nat (length (glyphs (take k text))) <= Z.max 0 (Range.length range)
    /\ Forall (fun b => 0 < b < 256) (glyphs (take k text))
    /\ (k = length text
        \/ Range.length range - 1 <= Z.of_nat (length (glyphs (take k text)))).
Proof.
  destruct (writeMenuTextFrom_glyphs range text 0) as (k & Hk & Hrun & Hfit & Hfull).
  exists k. split; [done |]. split; [| split; [| split]].
  - intros data. unfold writeMenuText. rewrite Hrun. f_equal. lia.
  - destruct Hfit as [-> | Hfit]; cbn [length]; lia.
  - apply glyphs_bytes.
  - destruct Hfull as [-> | Hfull]; [by left | right; lia].
Qed.

Lemma writeChars_record bytes : forall data address,
  0xffff <= address -> address + Z.of_nat (length bytes) - 1 <= 0xffffffff ->
  Forall (fun b => 0 <= b < 256) bytes ->
  exists data',
    writeChars data address bytes = Some data'
    /\ writes data' = record (writes data) address bytes.
Proof.
  induction bytes as [| b bytes IH]; intros data address Hlow Hhigh Hbytes.
  { by exists data. }
  apply Forall_cons in Hbytes as [Hb Hbytes]. cbn [length] in Hhigh.
  cbn [writeChars]. unfold writeChar.
  rewrite (proj2 (checkAddressRange_spec address)) by lia.
  cbn [mbind option_bind].
  destruct (IH (mkChecked (store (file data) address [Z.land b 255])
                  (record (writes data) address [Z.land b 255])) (address + 1))
    as (data' & Hrun & Hw); [lia | lia | done |].
  exists data'. split; [done |]. rewrite Hw. cbn [writes record].
  rewrite byte_mask, Z.mod_small by lia. done.
Qed.

Lemma clear_fold base n : forall s data,
  foldl (fun data i => data ← data; fst <$> writeChar data (base + i) 0)
    (Some data) (seqZ s (Z.of_nat n))
  = writeChars data (base + s) (replicate n 0).
Proof.
  induction n as [| n IH]; intros s data; [done |].
  rewrite seqZ_cons by lia. cbn [foldl replicate writeChars mbind option_bind].
  replace (Z.pred (Z.of_nat (S n))) with (Z.of_nat n) by lia.
  destruct (writeChar data (base + s) 0) as [[data1 next] |] eqn:H1.
  - apply writeChar_address in H1 as ->. cbn [fmap option_fmap option_map fst].
    rewrite IH. cbn [mbind option_bind]. f_equal. lia.
  - cbn [fmap option_fmap option_map]. clear.
    generalize (seqZ (Z.succ s) (Z.of_nat n)). intros l.
    induction l as [| x l IHl]; [done |]. exact IHl.
Qed.

Lemma lookup_padded n (bytes : list Z) (i : nat) :
  (length bytes <= n)%nat ->
  padded n bytes !! i
  = if decide (i < length bytes)%nat then bytes !! i
    else if decide (i < n)%nat then Some 0 else None.
Proof.
  intros Hlen. unfold padded. case_decide.
  - by rewrite lookup_app_l.
  - rewrite lookup_app_r by lia. case_decide.
    + apply lookup_replicate_2. lia.
    + apply lookup_ge_None_2. rewrite length_replicate. lia.
Qed.

Lemma padded_length n (bytes : list Z) :
  (length bytes <= n)%nat -> length (padded n bytes) = n.
Proof. intros Hlen. unfold padded. rewrite length_app, length_replicate. lia. Qed.

Lemma writeShort_in_range data address val :
  0xffff <= address <= 0xffffffff ->
  writeShort data address val
  = Some (mkChecked
            (store (file data) address [Z.land val 0xff; Z.land (ushr val 8) 0xff])
            (record (writes data) address [Z.land val 0xff; Z.land (ushr val 8) 0xff]),
          address + 2).
Proof.
  intros Hrange. unfold writeShort.
  by rewrite (proj2 (checkAddressRange_spec address) Hrange).
Qed.

Lemma writeMenuText_record data text range :
  0xffff <= Range.start range -> 0 <= Range.length range ->
  Range.start range + Range.length range - 1 <= 0xffffffff ->
  exists data' k,
    (k <= length text)%nat
    /\ writeMenuText data text range = Some data'
    /\ writes data' = record (writes data) (Range.start range) (glyphs (take k text))
    /\ Z.of_nat (length (glyphs (take k text))) <= Z.max 0 (Range.length range)
    /\ (k = length text
        \/ Range.length range - 1 <= Z.of_nat (length (glyphs (take k text)))).
Proof.
  intros Hlow Hsome Hhigh.
  destruct (writeMenuTextFrom_glyphs range text 0) as (k & Hk & Hrun & Hfit & Hfull).
  assert (Hlen : Z.of_nat (length (glyphs (take k text))) <= Z.max 0 (Range.length range)).
  { destruct Hfit as [-> | Hfit]; cbn [length]; lia. }
  destruct (writeChars_record (glyphs (take k text)) data (Range.start range + 0))
    as (data' & Hwrite & Hw).
  - lia.
  - destruct Hfit as [-> | Hfit]; cbn [length]; lia.
  - eapply Forall_impl; [apply glyphs_bytes |]. intros b Hb. cbv beta in Hb. lia.
  - exists data', k. unfold writeMenuText. rewrite Hrun, Hwrite.
    rewrite Z.add_0_r in Hw. repeat split; [done .. |].
    destruct Hfull as [-> | Hfull]; [by left | right; lia].
Qed.

(** X12: [setSeedText] ends without error on every writer, seed and
    preset.  The 52 bytes on record from [0x04389c6c] on are then the
    bytes of the first [ks] characters of the seed, at most 31, with
    zeros up to 32 bytes, and after them the bytes of the first [kp]
    characters of the preset, at most 20, with zeros up to 20 bytes: the
    text of the seed always ends with a zero and does not reach into the
    preset.  The characters are all those of the seed unless 30 bytes at
    least are taken, and all those of the preset unless 19 bytes at least
    are. *)
Theorem setSeedText_block (data : Checked) (seed : list Z) (preset : option (list Z)) :
  exists data' ks kp,
    setSeedText data seed preset = Some data'
    /\ (ks <= length seed)%nat /\ (kp <= length (default [] preset))%nat
    /\ (length (glyphs (take ks seed)) <= 31)%nat
    /\ (length (glyphs (take kp (default [] preset))) <= 20)%nat
    /\ (ks = length seed \/ (30 <= length (glyphs (take ks seed)))%nat)
    /\ (kp = length (default [] preset)
        \/ (19 <= length (glyphs (take kp (default [] preset))))%nat)
    /\ recorded (writes data') 0x04389c6c 52
       = Some <$> (padded 32 (glyphs (take ks seed))
                   ++ padded 20 (glyphs (take kp (default [] preset))))
    /\ recorded (writes data') 0x043930c4 2 = [Some 0xb4; Some 0x78]
    /\ recorded (writes data') 0x043930d4 2 = [Some 0xd4; Some 0x78]
    /\ recorded (writes data') 0x0439312c 2 = [Some 0xb4; Some 0x78]
    /\ recorded (writes data') 0x0439313c 2 = [Some 0xd4; Some 0x78].
Proof.
  unfold setSeedText.
  pose proof (clear_fold 0x04389c6c 52 0 data) as Hclear.
  change (Z.of_nat 52) with 52 in Hclear. rewrite Hclear. clear Hclear.
  destruct (writeChars_record (replicate 52 0) data (0x04389c6c + 0))
    as (d1 & H1 & W1); [lia | rewrite length_replicate; lia | |].
  { apply Forall_replicate. lia. }
  rewrite H1. cbn [mbind option_bind].
  do 4 (rewrite writeShort_in_range by lia; cbn [mbind option_bind]).
  match goal with
  | |- context [writeMenuText ?d seed seedRange] =>
      destruct (writeMenuText_record d seed seedRange)
        as (d6 & ks & Hks & H6 & W6 & Hslen & Hsfull); [done | done | done |]
  end.
  rewrite H6. cbn [mbind option_bind].
  destruct (writeMenuText_record d6 (default [] preset) presetRange)
    as (d7 & kp & Hkp & H7 & W7 & Hplen & Hpfull); [done | done | done |].
  change (Z.max 0 (Range.length seedRange)) with 31 in Hslen.
  change (Z.max 0 (Range.length presetRange)) with 20 in Hplen.
  change (Range.length seedRange) with 31 in Hsfull.
  change (Range.length presetRange) with 20 in Hpfull.
  exists d7, ks, kp. split; [done |]. split; [done |]. split; [done |].
  split; [lia |]. split; [lia |].
  split; [destruct Hsfull as [-> | Hsfull]; [by left | right; lia] |].
  split; [destruct Hpfull as [-> | Hpfull]; [by left | right; lia] |].
  clear H1 H6 H7 Hsfull Hpfull.
  rewrite W7, W6. cbn [writes]. rewrite W1.
  change (Range.start seedRange) with 0x04389c6c.
  change (Range.start presetRange) with 0x04389c8c.
  set (sb := glyphs (take ks seed)) in *.
  set (pb := glyphs (take kp (default [] preset))) in *.
  change (Z.land 0x78b4 0xff) with 0xb4. change (Z.land 0x78d4 0xff) with 0xd4.
  change (Z.land (ushr 0x78b4 8) 0xff) with 0x78.
  change (Z.land (ushr 0x78d4 8) 0xff) with 0x78.
  split; [| unfold recorded; change (seqZ 0 2) with [0; 1]; cbn [fmap list_fmap];
            rewrite !lookup_record; cbn [length];
            rewrite ?length_replicate;
            repeat split; repeat f_equal;
            repeat (case_decide; try lia); reflexivity].
  apply list_eq. intros i. unfold recorded. rewrite !list_lookup_fmap.
  destruct (decide (i < 52)%nat) as [Hi | Hi]; cycle 1.
  { rewrite lookup_seqZ_ge by lia.
    rewrite lookup_ge_None_2; [done |].
    rewrite length_app, !padded_length by lia. lia. }
  rewrite (lookup_seqZ_lt _ _ _) by lia. cbn [fmap option_fmap option_map].
  rewrite !lookup_record. cbn [length]. rewrite ?length_replicate.
  destruct (decide (i < 32)%nat) as [Hseed | Hpreset].
  - rewrite lookup_app_l by (rewrite padded_length; lia).
    rewrite lookup_padded by lia.
    repeat (case_decide; try lia); cbn [fmap option_fmap option_map].
    + match goal with
      | |- context [sb !! Z.to_nat ?e] => replace (Z.to_nat e) with i by lia
      end.
      by destruct (lookup_lt_is_Some_2 sb i ltac:(lia)) as [x ->].
    + by rewrite lookup_replicate_2 by lia.
  - rewrite lookup_app_r by (rewrite padded_length; lia).
    rewrite padded_length by lia. rewrite lookup_padded by lia.
    repeat (case_decide; try lia); cbn [fmap option_fmap option_map].
    + match goal with
      | |- context [pb !! Z.to_nat ?e] =>
          replace (Z.to_nat e) with (i - 32)%nat by lia
      end.
      by destruct (lookup_lt_is_Some_2 pb (i - 32) ltac:(lia)) as [x ->].
    + by rewrite lookup_replicate_2 by lia.
Qed.

End MenuTextFacts.

(** ** Files on the disc image *)

Section RomFacts.
Import Rom.

Lemma sector_value : sector = 2048%nat.
Proof. by vm_compute. Qed.

Lemma gap_value : gap = 304%nat.
Proof. by vm_compute. Qed.

Lemma sector_pos : (0 < sector)%nat.
Proof. rewrite sector_value. lia. Qed.

Lemma div_sector_next j :
  (sector <= j)%nat -> (j / sector = S ((j - sector) / sector))%nat.
Proof.
  intros Hj. replace j with (j - sector + 1 * sector)%nat at 1 by lia.
  rewrite Nat.div_add by (pose proof sector_pos; lia). lia.
Qed.

Lemma div_sector_first j : (j < sector)%nat -> (j / sector = 0)%nat.
Proof. apply Nat.div_small. Qed.

Lemma stored_length c : (c < sector)%nat -> (c + c / sector * gap = c)%nat.
Proof. intros Hc. rewrite div_sector_first by done. lia. Qed.

Lemma lookup_set file offset chunk file' (i : nat) :
  (offset <= length file)%nat ->
  set file offset chunk = Some file' ->
  length file' = length file
  /\ file' !! i = if decide (offset <= i < offset + length chunk)%nat
                  then chunk !! (i - offset)%nat else file !! i.
Proof.
  intros Hoffset. unfold set. case_decide as Hfit; [| done]. intros [= <-].
  split.
  - rewrite !length_app, length_take, length_drop. lia.
  - case_decide as Hi.
    + rewrite lookup_app_r by (rewrite length_take; lia).
      rewrite length_take, Nat.min_l by lia.
      by rewrite lookup_app_l by lia.
    + destruct (decide (i < offset)%nat) as [Hlow | Hhigh].
      * rewrite lookup_app_l by (rewrite length_take; lia).
        by rewrite lookup_take_lt.
      * rewrite lookup_app_r by (rewrite length_take; lia).
        rewrite length_take, Nat.min_l by lia.
        rewrite lookup_app_r by lia. rewrite lookup_drop. f_equal. lia.
Qed.

#[local] Opaque sector gap.

(** The loop ends, without error, and puts each byte of the data that is
    of the file where it belongs. *)
Lemma restoreLoop_reads steps : forall data file curr,
  (length data < steps)%nat -> (curr <= length file)%nat ->
  (length data
   <= (length file - curr) + (length file - curr) / sector * gap)%nat ->
  exists file',
    restoreLoop steps data file curr = File file'
    /\ length file' = length file
    /\ (forall i, (i < curr)%nat -> file' !! i = file !! i)
    /\ (forall j, (curr + j < length file)%nat ->
          file' !! (curr + j)%nat
          = match data !! (j + j / sector * gap)%nat with
            | Some b => Some b
            | None => file !! (curr + j)%nat
            end).
Proof.
  induction steps as [| steps IH]; intros data file curr Hsteps Hcurr Hfits; [lia |].
  destruct data as [| b data].
  { exists file. cbn [restoreLoop]. split; [done |]. split; [done |]. split; [done |].
    intros j _. by rewrite lookup_nil. }
  remember (b :: data) as d eqn:Hd.
  assert (Hloop : restoreLoop (S steps) d file curr
                  = match set file curr (slice d 0 sector) with
                    | None => RangeError
                    | Some file =>
                        restoreLoop steps (drop (sector + gap) d) file
                          (Nat.min (curr + sector) (length file))
                    end) by (by subst d).
  rewrite Hloop. clear Hloop.
  assert (Hd1 : (0 < length d)%nat) by (subst d; cbn [length]; lia).
  clear Hd b data.
  set (chunk := slice d 0 sector).
  assert (Hchunk : length chunk = Nat.min sector (length d)).
  { unfold chunk, slice. rewrite length_take, drop_0. lia. }
  assert (Hlook : forall j, (j < sector)%nat -> chunk !! j = d !! j).
  { intros j Hj. unfold chunk, slice. rewrite drop_0, Nat.sub_0_r.
    by rewrite lookup_take_lt. }
  assert (Hroom : (length chunk <= length file - curr)%nat).
  { destruct (decide (sector <= length file - curr)%nat) as [Hbig | Hsmall]; [lia |].
    rewrite stored_length in Hfits by lia. lia. }
  destruct (set file curr chunk) as [file1 |] eqn:Hset; cycle 1.
  { unfold set in Hset. by rewrite decide_True in Hset. }
  pose proof (fun i => lookup_set file curr chunk file1 i Hcurr Hset) as Hfile1.
  destruct (Hfile1 0%nat) as [Hlen1 _].
  destruct (IH (drop (sector + gap) d) file1
              (Nat.min (curr + sector) (length file1)))
    as (file' & Hrun & Hlen & Hbefore & Hafter).
  - rewrite length_drop. pose proof sector_pos. lia.
  - lia.
  - rewrite length_drop, Hlen1.
    destruct (decide (sector <= length file - curr)%nat) as [Hbig | Hsmall].
    + rewrite Nat.min_l by lia.
      rewrite (div_sector_next (length file - curr)) in Hfits by done.
      replace (length file - (curr + sector))%nat
        with (length file - curr - sector)%nat by lia.
      lia.
    + rewrite stored_length in Hfits by lia. lia.
  - exists file'. split; [done |]. split; [lia |]. split.
    + intros i Hi. rewrite Hbefore by lia.
      destruct (Hfile1 i) as [_ ->]. by rewrite decide_False by lia.
    + intros j Hj. destruct (decide (j < sector)%nat) as [Hfirst | Hnext].
      * rewrite div_sector_first by done. rewrite Nat.mul_0_l, Nat.add_0_r.
        rewrite Hbefore by lia. destruct (Hfile1 (curr + j)%nat) as [_ ->].
        case_decide as Hin.
        -- replace (curr + j - curr)%nat with j by lia. rewrite Hlook by done.
           destruct (lookup_lt_is_Some_2 d j ltac:(lia)) as [x ->]. done.
        -- by rewrite (lookup_ge_None_2 d j) by lia.
      * rewrite (div_sector_next j) by lia.
        specialize (Hafter (j - sector)%nat).
        rewrite Hlen1, Nat.min_l in Hafter by lia.
        replace (curr + sector + (j - sector))%nat with (curr + j)%nat in Hafter by lia.
        rewrite Hafter by lia. rewrite lookup_drop.
        replace (sector + gap + (j - sector + (j - sector) / sector * gap))%nat
          with (j + S ((j - sector) / sector) * gap)%nat by lia.
        destruct (d !! _); [done |].
        destruct (Hfile1 (curr + j)%nat) as [_ ->]. by rewrite decide_False by lia.
Qed.

(** X13: [restoreFile] ends without error and gives a buffer of the
    length of the file whose byte at each address is the byte of the data
    at [romOffset] of that address, or 0 where the data ends before it:
    [romOffset] finds on the image what [restoreFile] reads from it. *)
Theorem restoreFile_reads_romOffset (data : list Z) (zone : Zone) :
  exists file,
    restoreFile data zone = File file
    /\ length file = len zone
    /\ forall address, (address < len zone)%nat ->
         file !! address = Some (default 0 (data !! romOffset zone address)).
Proof.
  unfold restoreFile.
  set (dataLength := (len zone + len zone / sector * gap)%nat).
  set (d := slice data (pos zone) (pos zone + dataLength)).
  assert (Hd : (length d <= dataLength)%nat).
  { unfold d, slice. rewrite length_take. lia. }
  destruct (restoreLoop_reads (S (length d)) d (replicate (len zone) 0) 0)
    as (file & Hrun & Hlen & _ & Hbytes).
  - lia.
  - lia.
  - by rewrite length_replicate, Nat.sub_0_r.
  - rewrite length_replicate in Hlen, Hbytes.
    exists file. split; [done |]. split; [done |]. intros address Ha.
    specialize (Hbytes address Ha).
    change (0 + address)%nat with address in Hbytes.
    rewrite Hbytes, lookup_replicate_2 by done.
    assert (Hk : (address + address / sector * gap < dataLength)%nat).
    { unfold dataLength.
      assert (address / sector <= len zone / sector)%nat
        by (apply Nat.Div0.div_le_mono; lia).
      nia. }
    unfold d, slice. rewrite lookup_take_lt by lia. rewrite lookup_drop.
    unfold romOffset. rewrite <- Nat.add_assoc.
    by destruct (data !! _).
Qed.

End RomFacts.

(** ** Shuffling *)

Section ShuffleFacts.
Import Shuffle.
Context {A : Type}.

Lemma floor_in_range (r : Q) (n : Z) :
  Qle 0 r -> Qlt r 1 -> 0 < n -> 0 <= Qfloor (Qmult r (inject_Z n)) < n.
Proof.
  intros Hlow Hhigh Hn.
  assert (Hpos : Qlt 0 (inject_Z n)) by (change 0%Q with (inject_Z 0); by rewrite <- Zlt_Qlt).
  split.
  - change 0 with (Qfloor (inject_Z 0)). apply Qfloor_resp_le.
    change (inject_Z 0) with 0%Q. by apply Qmult_le_0_compat, Qlt_le_weak.
  - rewrite Zlt_Qlt. eapply Qle_lt_trans; [apply Qfloor_le |].
    rewrite <- (Qmult_1_l (inject_Z n)) at 2. by apply Qmult_lt_compat_r.
Qed.

Lemma shuffleLoop_permutation (rng : nat -> Q) steps :
  (forall k, Qle 0 (rng k) /\ Qlt (rng k) 1) ->
  forall calls (copy : list A) acc,
    (length copy <= steps)%nat ->
    exists l,
      shuffleLoop steps rng calls copy acc = Some (acc ++ (Some <$> l))
      /\ l ≡ₚ copy.
Proof.
  intros Hrng. induction steps as [| steps IH]; intros calls copy acc Hsteps.
  { destruct copy; [| cbn [length] in Hsteps; lia].
    exists []. by rewrite app_nil_r. }
  destruct copy as [| x copy].
  { exists []. by rewrite app_nil_r. }
  remember (x :: copy) as array eqn:Harray.
  assert (Hlen : 0 < Z.of_nat (length array)) by (subst array; cbn [length]; lia).
  assert (Hloop : shuffleLoop (S steps) rng calls array acc
                  = let rand := Qfloor (Qmult (rng calls)
                                          (inject_Z (Z.of_nat (length array)))) in
                    let '(removed, copy) := splice array rand in
                    shuffleLoop steps rng (S calls) copy (acc ++ [head removed]))
    by (by subst array).
  rewrite Hloop. clear Hloop Harray x copy. cbv zeta.
  destruct (Hrng calls) as [Hlow Hhigh].
  pose proof (floor_in_range _ _ Hlow Hhigh Hlen) as Hrand.
  set (rand := Qfloor _) in *. unfold splice.
  rewrite (proj2 (Z.ltb_ge rand 0)), Z.min_l by lia.
  destruct (lookup_lt_is_Some_2 array (Z.to_nat rand) ltac:(lia)) as [y Hy].
  rewrite Hy. cbv beta iota. change (head (option_list (Some y))) with (Some y).
  destruct (IH (S calls) (delete (Z.to_nat rand) array) (acc ++ [Some y]))
    as (l & Hrun & Hperm).
  { rewrite length_delete by by eexists. lia. }
  exists (y :: l). split.
  - rewrite Hrun, <- app_assoc. done.
  - rewrite Hperm. symmetry. by apply delete_Permutation.
Qed.

(** X14: when every number that the generator gives is at least 0 and
    less than 1, [shuffled] ends after as many turns as the array has
    elements, and what it gives is a permutation of the array: every
    element once, none [undefined]. *)
Theorem shuffled_is_permutation (rng : nat -> Q) (steps : nat) (array : list A) :
  (forall k, Qle 0 (rng k) /\ Qlt (rng k) 1) ->
  (length array <= steps)%nat ->
  exists l, shuffled steps rng array = Some (Some <$> l) /\ l ≡ₚ array.
Proof.
  intros Hrng Hsteps.
  destruct (shuffleLoop_permutation rng steps Hrng 0%nat array [] Hsteps)
    as (l & Hrun & Hperm).
  by exists l.
Qed.

End ShuffleFacts.

Lemma shuffled_is_permutation_witness :
  exists l,
    Shuffle.shuffled 3 (fun k => if Nat.even k then 1 # 2 else 0%Q) [10; 20; 30]
    = Some (Some <$> l)
    /\ l ≡ₚ [10; 20; 30].
Proof.
  apply (shuffled_is_permutation (fun k => if Nat.even k then 1 # 2 else 0%Q) 3
           [10; 20; 30]).
  - intros k. destruct (Nat.even k); split; (by vm_compute).
  - cbn [length]. lia.
Defined.

(** ** The shape of a proof graph *)

Section ShapeFacts.
Import Minimizer Shape.

Lemma score_none requirements : score requirements = None <-> requirements = [].
Proof.
  destruct (score_cases requirements) as [[-> Hs] | (deepest & Hin & _ & Hs)];
    rewrite Hs; [done |].
  split; [done |]. intros ->. by apply elem_of_nil in Hin.
Qed.

Lemma minifyWith_none (f : LockNode -> option Requirement) min lock :
  minifyWith f min lock = None <-> lock = [] \/ Exists (fun node => f node = None) lock.
Proof.
  unfold minifyWith. destruct (mapM f lock) as [requirements |] eqn:Hmap.
  - cbn [mbind option_bind]. pose proof (length_mapM _ _ _ Hmap) as Hlen.
    destruct (score requirements) as [solution |] eqn:Hscore.
    + cbn [mbind option_bind]. split; [done |]. intros [-> | Hex].
      * destruct requirements; [| done].
        assert (score [] = None) by by apply score_none. congruence.
      * apply mapM_None in Hex. congruence.
    + apply score_none in Hscore as ->. split; [| done]. intros _. left.
      by destruct lock.
  - split; [| done]. intros _. right. by apply mapM_None.
Qed.

Lemma reduceM_minifyWith_none (f : LockNode -> option Requirement) locks : forall min,
  reduceM (minifyWith f) locks min = None
  <-> Exists (fun lock => lock = [] \/ Exists (fun node => f node = None) lock) locks.
Proof.
  induction locks as [| lock locks IH]; intros min.
  - split; [done |]. by intros ?%Exists_nil.
  - rewrite reduceM_cons, Exists_cons, <- (minifyWith_none f min).
    destruct (minifyWith f min lock) as [min' |]; cbn [mbind option_bind].
    + rewrite IH. naive_solver.
    + naive_solver.
Qed.

Lemma requirementOf_none node :
  requirementOf node = None <-> noEmptyLock node = false.
Proof.
  induction node as [item | item locks IH] using LockNode_nested_ind; [done |].
  cbn [requirementOf noEmptyLock].
  destruct (reduceM (minifyWith requirementOf) locks Initial) as [solution |] eqn:Hsol.
  - cbn [mbind option_bind]. split; [done |]. intros Hbad.
    assert (Hnone : reduceM (minifyWith requirementOf) locks Initial = None);
      [| congruence].
    apply reduceM_minifyWith_none. clear Hsol.
    induction locks as [| lock locks IHlocks]; [done |].
    apply Forall_cons in IH as [Hlock IH]. cbn [forallb] in Hbad.
    apply andb_false_iff in Hbad as [Hbad | Hbad]; [left | right; by apply IHlocks].
    destruct lock as [| node lock]; [by left | right].
    clear IHlocks IH. revert Hbad Hlock. generalize (node :: lock). clear.
    intros lock Hbad Hlock.
    induction lock as [| node lock IHlock]; [done |].
    apply Forall_cons in Hlock as [Hnode Hlock]. cbn [forallb] in Hbad.
    apply andb_false_iff in Hbad as [Hbad | Hbad];
      [left; by apply Hnode | right; by apply IHlock].
  - split; [| done]. intros _. apply reduceM_minifyWith_none in Hsol. clear -Hsol IH.
    induction locks as [| lock locks IHlocks]; [by apply Exists_nil in Hsol |].
    apply Forall_cons in IH as [Hlock IH]. cbn [forallb].
    apply andb_false_iff. apply Exists_cons in Hsol as [[-> | Hnode] | Hrest];
      [by left | left | right; by apply IHlocks].
    destruct lock as [| node lock]; [done |].
    revert Hnode Hlock. generalize (node :: lock). clear. intros lock Hnode Hlock.
    induction lock as [| node lock IHlock]; [by apply Exists_nil in Hnode |].
    apply Forall_cons in Hlock as [Hn Hlock]. cbn [forallb]. apply andb_false_iff.
    apply Exists_cons in Hnode as [Hnode | Hnode];
      [left; by apply Hn | right; by apply IHlock].
Qed.

(** X15: [minifySolution] throws if and only if the lock it is given is
    empty or a lock under one of its nodes is, at any level and also in an
    alternative that would not be selected; the solution it is to compare
    with plays no part in this. *)
Theorem minifySolution_throws_on_empty_lock (min : Solution) (lock : list LockNode) :
  minifySolution min lock = None
  <-> lock = [] \/ Exists (fun node => noEmptyLock node = false) lock.
Proof.
  unfold minifySolution. rewrite minifyWith_none.
  split; (intros [Hempty | Hex]; [by left | right]);
    (eapply Exists_impl; [exact Hex |]); intros node Hnode; by apply requirementOf_none.
Qed.

(** *** [pruneSubsets] on every tree without an initial solution *)

Lemma collectAbilities_runs node :
  wellScored node = true ->
  forall map, exists abilities map',
    collectAbilities node map = Some (abilities, map').
Proof.
  induction node as [item depth | | item depth d w a requirements IH]
    using Requirement_nested_ind; intros Hw map; [| done |].
  - cbn [collectAbilities]. destruct (map !! item); by eexists _, _.
  - apply wellScored_scored in Hw. cbn [collectAbilities].
    destruct (map !! item) as [known |]; [by eexists _, _ |].
    assert (Hall : forall acc map0, exists acc' map',
               reduceM (fun '(abilities, map) node =>
                          '(collected, map) ← collectAbilities node map;
                          Some (abilities ∪ {[reqItem node]} ∪ collected, map))
                       requirements (acc, map0) = Some (acc', map')).
    { clear map. induction requirements as [| r rs IHrs]; intros acc map0.
      - by eexists _, _.
      - apply Forall_cons in IH as [Hr IH]. apply Forall_cons in Hw as [Hwr Hw].
        rewrite reduceM_cons. destruct (Hr Hwr map0) as (collected & map1 & ->).
        cbn [mbind option_bind]. apply (IHrs IH Hw). }
    destruct (Hall {[item]} map) as (acc' & map' & ->).
    cbn [mbind option_bind]. by eexists _, _.
Qed.

Lemma pruneLater_runs abilities later : forall map,
  Forall (fun r => wellScored r = true) later ->
  exists later' map',
    pruneLater abilities later map = Some (later', map')
    /\ later' `sublist_of` later.
Proof.
  induction later as [| curr rest IH]; intros map Hw.
  - exists [], map. done.
  - apply Forall_cons in Hw as [Hcurr Hrest]. cbn [pruneLater].
    destruct (collectAbilities_runs curr Hcurr map) as (collected & map1 & ->).
    cbn [mbind option_bind].
    destruct (IH map1 Hrest) as (rest' & map2 & -> & Hsub).
    cbn [mbind option_bind]. eexists _, _. split; [reflexivity |].
    destruct (bool_decide (collected ⊆ abilities));
      [by apply sublist_cons | by apply sublist_skip].
Qed.

Lemma pruneLoop_trims prune steps : forall abilities nodes map,
  (length nodes <= steps)%nat ->
  Forall (trimsNode prune) nodes ->
  exists kept rest map',
    pruneLoop prune steps abilities nodes map = Ran (Some (rest, map'))
    /\ kept `sublist_of` nodes /\ head kept = head nodes
    /\ Forall2 trims rest kept
    /\ Forall (fun r => wellScored r = true) rest.
Proof.
  induction steps as [| steps IH]; intros abilities nodes map Hlen Hall.
  { destruct nodes; [| cbn [length] in Hlen; lia].
    exists [], [], map. by repeat split. }
  destruct nodes as [| node later].
  { exists [], [], map. by repeat split. }
  apply Forall_cons in Hall as [[Hw Hnode] Hlater]. cbn [pruneLoop].
  destruct (Hnode map) as (node' & map1 & -> & Htrims & Hw'). cbn [runBind].
  destruct (collectAbilities_runs node' Hw' map1) as (collected & map2 & ->).
  cbn [runBind].
  destruct (pruneLater_runs (abilities ∪ collected) later map2)
    as (later' & map3 & -> & Hsub).
  { eapply Forall_impl; [exact Hlater |]. by intros r [Hr _]. }
  cbn [runBind].
  destruct (IH (abilities ∪ collected) later' map3)
    as (kept & rest & map4 & -> & Hkept & _ & Hrest & Hwrest).
  { apply sublist_length in Hsub. cbn [length] in Hlen. lia. }
  { apply Forall_forall. intros r Hr.
    apply (proj1 (Forall_forall _ _) Hlater). by eapply elem_of_sublist. }
  cbn [runBind]. exists (node :: kept), (node' :: rest), map4.
  split; [done |]. split; [| split; [done | split]].
  - apply sublist_skip. by etrans.
  - by constructor.
  - by constructor.
Qed.

Lemma pruneSubsetsFuel_trims fuel : forall node map,
  (reqHeight node < fuel)%nat -> wellScored node = true ->
  exists node' map',
    pruneSubsetsFuel fuel node map = Ran (Some (node', map'))
    /\ trims node' node /\ wellScored node' = true.
Proof.
  induction fuel as [| fuel IH]; intros node map Hfuel Hw; [lia |].
  destruct node as [item depth [[| d w a requirements] |]]; [done | |].
  - change (pruneSubsetsFuel (S fuel)
              (mkReq item depth (Some (Scored d w a requirements))) map)
      with (runBind (pruneLoop (pruneSubsetsFuel fuel)
                       (length (sortBy byDepthDescending requirements)) ∅
                       (sortBy byDepthDescending requirements) map)
              (fun '(nodes, map) =>
                 Ran (Some (mkReq item depth (Some (Scored d w a nodes)), map)))).
    destruct (pruneLoop_trims (pruneSubsetsFuel fuel)
                (length (sortBy byDepthDescending requirements)) ∅
                (sortBy byDepthDescending requirements) map)
      as (kept & rest & map' & -> & Hkept & Hhead & Hrest & Hwrest); [done | |].
    + apply Forall_forall. intros r Hr.
      apply (proj1 (sortBy_elem byDepthDescending r requirements)) in Hr.
      pose proof (reqHeight_requirement r item depth d w a requirements Hr) as Hh.
      apply wellScored_scored in Hw. rewrite Forall_forall in Hw.
      split; [by apply Hw |]. intros map0. apply IH; [lia | by apply Hw].
    + cbn [runBind]. eexists _, _. split; [reflexivity |].
      split; [by eapply trims_scored | by apply wellScored_scored].
  - exists (mkReq item depth None), map. split; [done |]. split; [constructor | done].
Qed.

(** X16: on every tree without an initial solution, and whatever the
    memo it is given, [pruneSubsets] ends without error, and the tree it
    gives is the tree it was given with, at every level, the requirements
    sorted by descending depth and some of them removed: none is added or
    changed, and the first of the sorted requirements always stays. *)
Theorem pruneSubsets_only_removes (node : Requirement) (map : Memo) :
  wellScored node = true ->
  exists node' map',
    pruneSubsets node map = Ran (Some (node', map'))
    /\ trims node' node /\ wellScored node' = true.
Proof.
  intros Hw. apply pruneSubsetsFuel_trims; [lia | done].
Qed.

Lemma pruneSubsets_only_removes_witness :
  exists node' map',
    pruneSubsets sharedTree {["B" := {["Z"]}]} = Ran (Some (node', map'))
    /\ trims node' sharedTree /\ wellScored node' = true.
Proof.
  apply (pruneSubsets_only_removes sharedTree {["B" := {["Z"]}]}). by vm_compute.
Defined.

(** *** What [collectAbilities] gives and keeps *)

Lemma collectAbilities_memoises node map abilities map' :
  collectAbilities node map = Some (abilities, map') ->
  map' !! reqItem node = Some abilities.
Proof.
  destruct node as [item depth solution]. cbn [collectAbilities reqItem].
  destruct (map !! item) as [known |] eqn:Hitem.
  { by intros [= <- <-]. }
  destruct solution as [[| d w a requirements] |]; [done | |].
  - destruct (reduceM _ requirements _) as [[collected map1] |]; [| done].
    cbn [mbind option_bind]. intros [= <- <-]. apply lookup_insert_eq.
  - intros [= <- <-]. apply lookup_insert_eq.
Qed.

(** X17: on a tree without an initial solution in which every
    occurrence of an ability has the same abilities under it,
    [collectAbilities] with an empty memo ends without error and gives
    all the abilities under the node; it leaves them in the memo for the
    item of the node, and every set in the memo is the set of the
    abilities under the nodes of its key. *)
Theorem collectAbilities_gives_closure (node : Requirement) :
  wellScored node = true ->
  oneClosurePerItem node ->
  exists map',
    collectAbilities node ∅ = Some (closure node, map')
    /\ map' !! reqItem node = Some (closure node)
    /\ forall item abilities,
         map' !! item = Some abilities -> abilities = closuresOf node item.
Proof.
  intros Hw Hone.
  pose proof (oneClosurePerItem_consistent node Hone) as Hc.
  destruct (collectAbilities_sound (closuresOf node) node Hw Hc ∅)
    as (map' & Hrun & Hsound); [done |].
  rewrite <- (consistentWith_closure _ _ Hc) in Hrun.
  exists map'. split; [done |]. split; [| done].
  by eapply collectAbilities_memoises.
Qed.

Lemma collectAbilities_gives_closure_witness :
  exists map',
    collectAbilities sharedTree ∅ = Some (closure sharedTree, map')
    /\ map' !! reqItem sharedTree = Some (closure sharedTree)
    /\ forall item abilities,
         map' !! item = Some abilities -> abilities = closuresOf sharedTree item.
Proof.
  apply collectAbilities_gives_closure.
  - reflexivity.
  - apply (bool_decide_unpack (oneClosurePerItem sharedTree)). vm_compute. exact I.
Defined.

(** *** The whole minimization *)

Lemma minifyWith_good (f : LockNode -> option Requirement) min lock :
  goodLock f lock -> min = Initial \/ goodSolution min ->
  exists solution, minifyWith f min lock = Some solution /\ goodSolution solution.
Proof.
  intros [Hne Hall] Hmin. unfold minifyWith.
  assert (Hmap : exists requirements,
             mapM f lock = Some requirements
             /\ Forall (fun r => wellScored r = true) requirements).
  { clear Hne. induction lock as [| node lock IH]; [by exists [] |].
    apply Forall_cons in Hall as [(r & Hr & Hw) Hall].
    destruct (IH Hall) as (rs & Hrs & Hws). exists (r :: rs).
    split; [| by constructor]. apply mapM_Some. constructor; [done |].
    by apply mapM_Some. }
  destruct Hmap as (requirements & Hmap & Hws). rewrite Hmap.
  cbn [mbind option_bind].
  assert (Hreqs : requirements <> []).
  { apply length_mapM in Hmap. destruct requirements; [| done]. by destruct lock. }
  destruct (score_cases requirements) as [[-> _] | (deepest & _ & _ & ->)]; [done |].
  cbn [mbind option_bind]. eexists. split; [reflexivity |].
  unfold select. destruct (replaces _ min) eqn:Hreplaces.
  - by eexists _, _, _, _.
  - destruct Hmin as [-> | Hgood]; [done | done].
Qed.

Lemma reduceM_minifyWith_good (f : LockNode -> option Requirement) locks : forall min,
  Forall (goodLock f) locks -> min = Initial \/ goodSolution min ->
  exists solution,
    reduceM (minifyWith f) locks min = Some solution
    /\ (goodSolution solution \/ (locks = [] /\ solution = min)).
Proof.
  induction locks as [| lock locks IH]; intros min Hall Hmin.
  - exists min. split; [done |]. by right.
  - apply Forall_cons in Hall as [Hlock Hall]. rewrite reduceM_cons.
    destruct (minifyWith_good f min lock Hlock Hmin) as (min' & -> & Hgood).
    cbn [mbind option_bind].
    destruct (IH min' Hall (or_intror Hgood)) as (solution & -> & Hsol).
    exists solution. split; [done |]. left.
    by destruct Hsol as [Hsol | [_ ->]].
Qed.

Lemma requirementOf_wellFormed node :
  wellFormed node = true ->
  exists r, requirementOf node = Some r /\ wellScored r = true.
Proof.
  induction node as [item | item locks IH] using LockNode_nested_ind; intros Hwf.
  { by eexists. }
  cbn [wellFormed] in Hwf. destruct locks as [| lock0 locks0]; [done |].
  remember (lock0 :: locks0) as locks eqn:Hlocks.
  assert (Hgood : Forall (goodLock requirementOf) locks).
  { clear Hlocks. induction locks as [| lock locks IHlocks]; [constructor |].
    apply Forall_cons in IH as [Hlock IH]. cbn [forallb] in Hwf.
    apply andb_true_iff in Hwf as [Hwl Hwf].
    constructor; [| by apply IHlocks].
    destruct lock as [| node lock]; [done |]. split; [done |].
    revert Hwl Hlock. generalize (node :: lock). clear. intros lock Hwl Hlock.
    induction lock as [| node lock IHlock]; [constructor |].
    apply Forall_cons in Hlock as [Hnode Hlock]. cbn [forallb] in Hwl.
    apply andb_true_iff in Hwl as [Hwn Hwl].
    constructor; [by apply Hnode | by apply IHlock]. }
  destruct (reduceM_minifyWith_good requirementOf locks Initial Hgood (or_introl eq_refl))
    as (solution & Hsol & [Hs | [-> _]]); [| by subst].
  cbn [requirementOf]. rewrite Hsol. cbn [mbind option_bind].
  eexists. split; [reflexivity |].
  destruct Hs as (d & w & a & requirements & -> & _ & Hws).
  by apply wellScored_scored.
Qed.

(** X18: on alternatives of which there is one at least, none an empty
    lock, over nodes that have no empty lock and no empty [locks] at any
    level, the minimization of [renderSolutions] ends without error: it
    gives collapsed nodes, one at least, none with an empty [items] or a
    single sub-node. *)
Theorem minimize_runs_on_well_formed (solutions : list (list LockNode)) :
  solutions <> [] ->
  Forall (fun lock => lock <> [] /\ Forall (fun node => wellFormed node = true) lock)
    solutions ->
  exists collapsed,
    Renderer.minimize solutions = Ran (Some collapsed)
    /\ collapsed <> []
    /\ Forall (fun c => wellCollapsed c = true) collapsed.
Proof.
  intros Hsome Hall. unfold Renderer.minimize.
  destruct (reduceM_minifyWith_good requirementOf solutions Initial)
    as (minified & Hmin & [Hgood | [-> _]]); [| by left | | done].
  { eapply Forall_impl; [exact Hall |]. intros lock [Hne Hnodes].
    split; [done |]. eapply Forall_impl; [exact Hnodes |].
    intros node Hnode. by apply requirementOf_wellFormed. }
  change (reduceM minifySolution solutions Initial)
    with (reduceM (minifyWith requirementOf) solutions Initial).
  rewrite Hmin. cbn [runBind].
  destruct Hgood as (d & w & a & requirements & -> & Hreqs & Hws).
  cbn [solRequirements runBind].
  assert (Hpruned : exists pruned,
             foldr (fun node acc =>
                      runBind (pruneSubsets node ∅) (fun '(node, _) =>
                      runBind acc (fun nodes => Ran (Some (node :: nodes)))))
                   (Ran (Some [])) requirements
             = Ran (Some pruned)
             /\ length pruned = length requirements
             /\ Forall (fun r => wellScored r = true) pruned).
  { clear Hreqs Hmin. induction requirements as [| r rs IH]; [by exists [] |].
    apply Forall_cons in Hws as [Hw Hws].
    destruct (IH Hws) as (pruned & Hrun & Hlen & Hwp). cbn [foldr].
    destruct (pruneSubsetsFuel_trims (S (reqHeight r)) r ∅) as (r' & map' & Hr & _ & Hw');
      [lia | done |].
    change (pruneSubsets r ∅) with (pruneSubsetsFuel (S (reqHeight r)) r ∅).
    rewrite Hr, Hrun. cbn [runBind].
    exists (r' :: pruned). split; [done |]. split; [cbn [length]; lia | by constructor]. }
  destruct Hpruned as (pruned & -> & Hlen & Hwp). cbn [runBind].
  assert (Hsimplified : exists simplified,
             mapM simplifySolution pruned = Some simplified
             /\ length simplified = length pruned).
  { clear Hlen. induction pruned as [| r rs IH]; [by exists [] |].
    apply Forall_cons in Hwp as [Hw Hwp].
    destruct (IH Hwp) as (simplified & Hs & Hlen).
    destruct (simplifySolution_total r Hw) as (s & Hr).
    exists (s :: simplified). split; [| cbn [length]; lia].
    apply mapM_Some. constructor; [done |]. by apply mapM_Some. }
  destruct Hsimplified as (simplified & -> & Hlen'). cbn [runBind].
  eexists. split; [reflexivity |]. split.
  - destruct simplified; [| done]. destruct requirements; [done |].
    cbn [length] in *. lia.
  - apply Forall_forall. intros c [s [-> _]]%list_elem_of_fmap.
    apply collapseSolution_wellCollapsed.
Qed.

Lemma minimize_runs_on_well_formed_witness :
  exists collapsed,
    Renderer.minimize [[sharedRaw]; [splitRaw]] = Ran (Some collapsed)
    /\ collapsed <> []
    /\ Forall (fun c => wellCollapsed c = true) collapsed.
Proof.
  apply (minimize_runs_on_well_formed [[sharedRaw]; [splitRaw]]); [done |].
  repeat constructor; done.
Defined.

End ShapeFacts.

(** ** The lines of a rendered tree *)

Section RenderedFacts.
Import Minimizer Renderer Shape.

Section CollapsedInduction.
Variable P : Collapsed -> Prop.
Hypothesis leaf_case : forall items, P (mkCollapsed items None).
Hypothesis solution_case :
  forall items solution, Forall P solution -> P (mkCollapsed items (Some solution)).

Lemma Collapsed_nested_ind : forall node, P node.
Proof.
  fix IH 1. intros [items [solution |]]; [| apply leaf_case].
  apply solution_case.
  induction solution as [| node solution IHs]; constructor; [apply IH | exact IHs].
Qed.
End CollapsedInduction.

Variable relics : list Relic.

Lemma names_none items :
  mapM (fun a => name <$> relicFromAbility relics a) items = None
  <-> Exists (fun a => relicFromAbility relics a = None) items.
Proof.
  rewrite mapM_None. split; intros Hex; (eapply Exists_impl; [exact Hex |]);
    intros a Ha; cbv beta in *; by destruct (relicFromAbility relics a).
Qed.

Lemma renderNode_lines node : forall indentLevel sub,
  (renderNode relics indentLevel sub node = None
   <-> Exists (fun a => relicFromAbility relics a = None) (itemsOf node))
  /\ forall lines,
       renderNode relics indentLevel sub node = Some lines ->
       length lines = countNodes node.
Proof.
  induction node as [items | items solution IH] using Collapsed_nested_ind;
    intros indentLevel sub; cbn [renderNode itemsOf countNodes].
  - rewrite app_nil_r, <- names_none.
    destruct (mapM _ items) as [names |]; cbn [mbind option_bind].
    + split; [done |]. by intros lines [= <-].
    + done.
  - rewrite Exists_app, <- names_none.
    destruct (mapM _ items) as [names |]; cbn [mbind option_bind]; [| naive_solver].
    set (level := (_ + chainWidth names)%nat). clearbody level.
    assert (Hsub :
      (mapM (renderNode relics level true) solution = None
       <-> Exists (fun a => relicFromAbility relics a = None)
             (concat (List.map itemsOf solution)))
      /\ forall nodes, mapM (renderNode relics level true) solution = Some nodes ->
           length (concat nodes) = sum_list (List.map countNodes solution)).
    { induction solution as [| node solution IHs].
      - split; [split; [done | by intros ?%Exists_nil] |]. by intros nodes [= <-].
      - apply Forall_cons in IH as [Hnode IH]. destruct (IHs IH) as [Hnone Hlen].
        destruct (Hnode level true) as [Hn Hl]. cbn [List.map concat sum_list].
        rewrite Exists_app, <- Hn, <- Hnone. split.
        + rewrite mapM_None, Exists_cons, <- mapM_None. done.
        + intros nodes Hnodes. apply mapM_Some in Hnodes.
          apply Forall2_cons_inv_l in Hnodes as (lines & rest & Hlines & Hrest & ->).
          cbn [concat]. rewrite length_app, (Hl lines Hlines).
          f_equal. apply Hlen. by apply mapM_Some. }
    destruct Hsub as [Hnone Hlen].
    destruct (mapM (renderNode relics level true) solution) as [nodes |];
      cbn [mbind option_bind].
    + split; [split; [done |] |].
      * intros [Hex | Hex]; [done | by apply Hnone in Hex].
      * intros lines [= <-]. cbn [length]. f_equal. by apply Hlen.
    + split; [| done]. split; [| done]. intros _. right. by apply Hnone.
Qed.

(** X19: [renderNode] throws exactly when an ability named in the tree
    has no relic, at any level; when every ability has one, it gives one
    line for each node of the tree. *)
Theorem renderNode_one_line_per_node (indentLevel : nat) (sub : bool) (node : Collapsed) :
  match renderNode relics indentLevel sub node with
  | Some lines =>
      length lines = countNodes node
      /\ Forall (fun a => is_Some (relicFromAbility relics a)) (itemsOf node)
  | None => Exists (fun a => relicFromAbility relics a = None) (itemsOf node)
  end.
Proof.
  destruct (renderNode_lines node indentLevel sub) as [Hnone Hlen].
  destruct (renderNode relics indentLevel sub node) as [lines |]; [| by apply Hnone].
  split; [by apply Hlen |]. apply Forall_forall. intros a Ha.
  destruct (relicFromAbility relics a) eqn:Hrelic; [done |].
  assert (Hex : Exists (fun a => relicFromAbility relics a = None) (itemsOf node))
    by (apply Exists_exists; by exists a).
  by apply Hnone in Hex.
Qed.

End RenderedFacts.

(** ** Rooms of a zone *)

Section ZoneFacts.
Import Zone.

Lemma roomLoop_least zone steps : forall layout rooms k,
  0 <= k -> (Z.to_nat k < steps)%nat ->
  byteAt zone (layout + 8 * k) = Some 0x40 ->
  (forall j, 0 <= j < k -> byteAt zone (layout + 8 * j) <> Some 0x40) ->
  roomLoop steps zone layout rooms = Rooms (rooms + k).
Proof.
  induction steps as [| steps IH]; intros layout rooms k Hk Hsteps Hend Hbefore; [lia |].
  cbn [roomLoop]. destruct (decide (k = 0)) as [-> | Hpos].
  - rewrite Z.mul_0_r, Z.add_0_r in Hend. rewrite decide_True by done.
    f_equal. lia.
  - rewrite decide_False.
    + rewrite (IH (layout + 8) (rooms + 1) (k - 1)); [f_equal; lia | lia | lia | |].
      * rewrite <- Hend. f_equal. lia.
      * intros j Hj. specialize (Hbefore (j + 1) ltac:(lia)).
        by replace (layout + 8 + 8 * j) with (layout + 8 * (j + 1)) by lia.
    + specialize (Hbefore 0 ltac:(lia)). by rewrite Z.mul_0_r, Z.add_0_r in Hbefore.
Qed.

Lemma roomLoop_endless zone steps : forall layout rooms,
  (forall j, 0 <= j -> byteAt zone (layout + 8 * j) <> Some 0x40) ->
  roomLoop steps zone layout rooms = OutOfSteps.
Proof.
  induction steps as [| steps IH]; intros layout rooms Hnone; [done |].
  cbn [roomLoop]. rewrite decide_False.
  - apply IH. intros j Hj. specialize (Hnone (j + 1) ltac:(lia)).
    by replace (layout + 8 + 8 * j) with (layout + 8 * (j + 1)) by lia.
  - specialize (Hnone 0 ltac:(lia)). by rewrite Z.mul_0_r, Z.add_0_r in Hnone.
Qed.

(** X20: [roomCount] reads the start of the layout from the four bytes
    at [0x10], lowest first, less [0x80180000], and counts the entries of
    8 bytes before the first one that starts with [0x40].  When no entry
    starts with [0x40], as when the layout lies outside the zone, it has
    not returned after any number of turns: the loop does not end. *)
Theorem roomCount_first_end_marker (zone : list Z) (word : Z) :
  readUInt32LE zone (Z.to_nat 0x10) = Some word ->
  (forall k steps,
      0 <= k -> (Z.to_nat k < steps)%nat ->
      byteAt zone (word - 0x80180000 + 8 * k) = Some 0x40 ->
      (forall j, 0 <= j < k -> byteAt zone (word - 0x80180000 + 8 * j) <> Some 0x40) ->
      roomCount steps zone = Rooms k)
  /\ ((forall j, 0 <= j -> byteAt zone (word - 0x80180000 + 8 * j) <> Some 0x40) ->
      forall steps, roomCount steps zone = OutOfSteps).
Proof.
  intros Hword. unfold roomCount. rewrite Hword. split.
  - intros k steps Hk Hsteps Hend Hbefore.
    by rewrite (roomLoop_least zone steps _ 0 k).
  - intros Hnone steps. by apply roomLoop_endless.
Qed.

Lemma roomCount_first_end_marker_witness : roomCount 2 oneRoom = Rooms 1.
Proof.
  destruct (roomCount_first_end_marker oneRoom 0x80180018) as [Hrooms _];
    [reflexivity |].
  apply (Hrooms 1 2%nat); [lia | lia | reflexivity |].
  intros j Hj. assert (j = 0) as -> by lia. by vm_compute.
Defined.

End ZoneFacts.
